(** * LevelDB write path: arena, skip list, block builder, filter block,
      table builder and table cache

    A shallow embedding of the C++ sources
      util/arena.cc, db/skiplist.h, table/block_builder.cc,
      table/filter_block.cc, table/table_builder.cc, db/table_cache.cc
    together with the properties the specification states about them.

    Conventions.
    - [size_t] and [uint64_t] are 64-bit, [uint32_t] is 32-bit; values are
      kept as [Z] and every arithmetic step that can wrap is wrapped with
      [u64] or [u32].
    - A byte string ([std::string], [Slice]) is a [list byte].
    - An [assert] that fails aborts the program: functions with assertions
      return [option], [None] standing for the abort.
    - Pointers into a store are indices; [nullptr] is [None]. *)

From Stdlib Require Import ZArith List Lia Bool.
From Stdlib.Strings Require Import Byte String.
From stdpp Require Import base option list numbers gmap.
Import ListNotations.
Local Open Scope Z_scope.

#[global] Unset Default Proof Using.
#[global] Unset Suggest Proof Using.

(** ** Machine integers *)

Definition u32 (x : Z) : Z := x mod 2 ^ 32.
Definition u64 (x : Z) : Z := x mod 2 ^ 64.

Abbreviation bytes := (list byte).

Definition byte_of_Z (x : Z) : byte :=
  match Byte.of_N (Z.to_N (x mod 256)) with
  | Some b => b
  | None => x00
  end.

Definition Z_of_byte (b : byte) : Z := Z.of_N (Byte.to_N b).

(** [size()] of a string or vector, a [size_t]. *)
Definition size {A} (l : list A) : Z := Z.of_nat (length l).

(** ** util/arena.cc *)

Module Arena.

Definition kBlockSize : Z := 4096.

(** A character pointer into the arena: the region it points into (its index in
    [blocks_]) and the byte offset inside that region. *)
Record ptr := Ptr { region : nat; offset : Z }.

(** [blocks_] keeps, for every region obtained from [new char[n]], the
    size [n] it was requested with; the region's identity is its index. *)
Record t := Build
  { alloc_ptr_ : option ptr;
    alloc_bytes_remaining_ : Z;
    blocks_ : list Z;
    memory_usage_ : Z }.

(** [Arena::Arena()] *)
Definition init : t :=
  {| alloc_ptr_ := None; alloc_bytes_remaining_ := 0;
     blocks_ := []; memory_usage_ := 0 |}.

(** [p + n] on a character pointer; arithmetic on [nullptr] stays [nullptr]. *)
Definition ptr_add (p : option ptr) (n : Z) : option ptr :=
  match p with
  | Some (Ptr r o) => Some (Ptr r (o + n))
  | None => None
  end.

Section WithPlatform.

(** The size of a pointer, and the address that [operator new] gave to
    each region. *)
Variable sizeof_ptr : Z.
Variable region_base : nat -> Z.

(** [Arena::AllocateNewBlock] *)
Definition AllocateNewBlock (a : t) (block_bytes : Z) : option ptr * t :=
  let result := Ptr (length (blocks_ a)) 0 in
  (Some result,
   {| alloc_ptr_ := alloc_ptr_ a;
      alloc_bytes_remaining_ := alloc_bytes_remaining_ a;
      blocks_ := blocks_ a ++ [block_bytes];
      memory_usage_ := u64 (memory_usage_ a + u64 (block_bytes + sizeof_ptr)) |}).

(** [Arena::AllocateFallback] *)
Definition AllocateFallback (a : t) (bytes : Z) : option ptr * t :=
  if bytes >? kBlockSize / 4 then
    let '(result, a1) := AllocateNewBlock a bytes in
    (result, a1)
  else
    let '(p, a1) := AllocateNewBlock a kBlockSize in
    let result := p in
    (result,
     {| alloc_ptr_ := ptr_add p bytes;
        alloc_bytes_remaining_ := u64 (kBlockSize - bytes);
        blocks_ := blocks_ a1;
        memory_usage_ := memory_usage_ a1 |}).

(** [reinterpret_cast<uintptr_t>(p)] *)
Definition address (p : option ptr) : Z :=
  match p with
  | Some (Ptr r o) => u64 (region_base r + o)
  | None => 0
  end.

(** [Arena::AllocateAligned]; the final [assert] on the alignment of the
    result aborts when it fails. *)
Definition AllocateAligned (a : t) (bytes : Z) : option (option ptr * t) :=
  let align := if sizeof_ptr >? 8 then sizeof_ptr else 8 in
  let current_mod := Z.land (address (alloc_ptr_ a)) (align - 1) in
  let slop := if current_mod =? 0 then 0 else align - current_mod in
  let needed := u64 (bytes + slop) in
  let '(result, a') :=
    if needed <=? alloc_bytes_remaining_ a then
      (ptr_add (alloc_ptr_ a) slop,
       {| alloc_ptr_ := ptr_add (alloc_ptr_ a) needed;
          alloc_bytes_remaining_ := u64 (alloc_bytes_remaining_ a - needed);
          blocks_ := blocks_ a;
          memory_usage_ := memory_usage_ a |})
    else AllocateFallback a bytes in
  if Z.land (address result) (align - 1) =? 0 then Some (result, a') else None.

End WithPlatform.

(** The region list only grows, by exactly one region per call. *)
Lemma AllocateNewBlock_blocks sz (a : t) (n : Z) :
  blocks_ (snd (AllocateNewBlock sz a n)) = blocks_ a ++ [n].
Proof. reflexivity. Qed.

Lemma AllocateNewBlock_cursor sz (a : t) (n : Z) :
  alloc_ptr_ (snd (AllocateNewBlock sz a n)) = alloc_ptr_ a
  /\ alloc_bytes_remaining_ (snd (AllocateNewBlock sz a n))
     = alloc_bytes_remaining_ a.
Proof. split; reflexivity. Qed.

(** When the padded request does not fit the current region,
    [AllocateAligned] hands the request to [AllocateFallback]. *)
Lemma AllocateAligned_not_fit sz base (a : t) (n : Z) r a' :
  AllocateAligned sz base a n = Some (r, a') ->
  alloc_bytes_remaining_ a < n -> 0 <= n < 2 ^ 64 - 8 -> 0 < sz <= 8 ->
  AllocateFallback sz a n = (r, a').
Proof.
  unfold AllocateAligned. intros H Hfit Hn Hsz.
  assert (E : (sz >? 8) = false) by (rewrite Z.gtb_ltb; apply Z.ltb_ge; lia).
  rewrite E in H. clear E.
  set (m := Z.land _ (8 - 1)) in H.
  assert (Hm : 0 <= m < 8).
  { subst m. change (8 - 1) with (Z.ones 3). rewrite Z.land_ones by lia.
    apply Z.mod_pos_bound. reflexivity. }
  set (slop := if m =? 0 then 0 else 8 - m) in H.
  assert (Hs : 0 <= slop < 8) by (subst slop; destruct (Z.eqb_spec m 0); lia).
  assert (Hu : u64 (n + slop) = n + slop).
  { unfold u64. apply Z.mod_small. lia. }
  rewrite Hu in H.
  destruct (Z.leb_spec (n + slop) (alloc_bytes_remaining_ a)); [lia|].
  destruct (AllocateFallback sz a n) as [r0 a0].
  destruct (Z.land (address base r0) (8 - 1) =? 0); congruence.
Qed.

(** C9.  [AllocateFallback], the path taken by a request of [n] bytes
    that does not fit the current region.  If [n] exceeds a quarter of the
    region size (1024), a dedicated region of exactly [n] bytes is added
    and its start returned, and the cursor and the remaining-byte count of
    the current region are untouched.  Otherwise a fresh region of 4096
    bytes is added and becomes the current one: the request is served from
    its start, the cursor stands [n] bytes into it and [4096 - n] bytes
    remain, whatever was left of the old region being dropped. *)
Theorem AllocateFallback_regions sz (a : t) (n : Z) :
  0 <= n < 2 ^ 64 ->
  let fresh := length (blocks_ a) in
  let '(result, a') := AllocateFallback sz a n in
  result = Some (Ptr fresh 0)
  /\ if n >? 1024
     then blocks_ a' = blocks_ a ++ [n]
          /\ alloc_ptr_ a' = alloc_ptr_ a
          /\ alloc_bytes_remaining_ a' = alloc_bytes_remaining_ a
     else blocks_ a' = blocks_ a ++ [4096]
          /\ alloc_ptr_ a' = Some (Ptr fresh n)
          /\ alloc_bytes_remaining_ a' = 4096 - n.
Proof.
  intros Hn fresh. unfold AllocateFallback.
  change (kBlockSize / 4) with 1024.
  destruct (Z.gtb_spec n 1024) as [Hbig|Hsmall]; cbn.
  - repeat split.
  - repeat split. unfold u64, kBlockSize. apply Z.mod_small. lia.
Qed.

(** A large request against a half-used region, and a small one. *)
Lemma AllocateFallback_regions_witness :
  let a := {| alloc_ptr_ := Some (Ptr 0 4000); alloc_bytes_remaining_ := 96;
              blocks_ := [4096]; memory_usage_ := 4104 |} in
  (let '(result, a') := AllocateFallback 8 a 2000 in
   result = Some (Ptr 1%nat 0)
   /\ blocks_ a' = [4096; 2000]
      /\ alloc_ptr_ a' = Some (Ptr 0 4000)
      /\ alloc_bytes_remaining_ a' = 96)
  /\ (let '(result, a') := AllocateFallback 8 a 100 in
      result = Some (Ptr 1%nat 0)
      /\ blocks_ a' = [4096; 4096]
         /\ alloc_ptr_ a' = Some (Ptr 1%nat 100)
         /\ alloc_bytes_remaining_ a' = 3996).
Proof.
  intro a. split.
  - apply (AllocateFallback_regions 8 a 2000). lia.
  - apply (AllocateFallback_regions 8 a 100). lia.
Defined.

(** *** Alignment, bounds and accounting *)

(** The cursor of an arena is in order when it is null with nothing
    remaining, or stands inside a region of [kBlockSize] bytes with exactly
    the rest of that region remaining. *)
Definition cursor_ok (a : t) : Prop :=
  match alloc_ptr_ a with
  | None => alloc_bytes_remaining_ a = 0
  | Some (Ptr r o) =>
      blocks_ a !! r = Some kBlockSize
      /\ 0 <= o /\ 0 <= alloc_bytes_remaining_ a
      /\ o + alloc_bytes_remaining_ a = kBlockSize
  end.

(** The bytes accounted for the regions: each with one pointer for its
    slot in [blocks_]. *)
Definition regions_usage (sizeof_ptr : Z) (blocks : list Z) : Z :=
  fold_right (fun n total => n + sizeof_ptr + total) 0 blocks.

(** A sequence of requests to [AllocateAligned]. *)
Fixpoint AllocateAll (sizeof_ptr : Z) (region_base : nat -> Z) (a : t)
    (requests : list Z) : option t :=
  match requests with
  | [] => Some a
  | n :: requests' =>
      '(_, a') ← AllocateAligned sizeof_ptr region_base a n;
      AllocateAll sizeof_ptr region_base a' requests'
  end.

Lemma land_7 (x : Z) : Z.land x (8 - 1) = x mod 8.
Proof. change (8 - 1) with (Z.ones 3). by rewrite Z.land_ones. Qed.

Lemma u64_mod_8 (x : Z) : u64 x mod 8 = x mod 8.
Proof.
  unfold u64. apply Z.mod_mod_divide. exists (2 ^ 61). reflexivity.
Qed.

Lemma address_aligned base (p : option ptr) (slop : Z) :
  let m := Z.land (address base p) (8 - 1) in
  slop = (if m =? 0 then 0 else 8 - m) ->
  Z.land (address base (ptr_add p slop)) (8 - 1) = 0.
Proof.
  intros m Hslop. subst m. rewrite land_7 in *.
  destruct p as [[r o]|]; cbn [ptr_add address] in *; [|reflexivity].
  rewrite u64_mod_8 in *.
  replace (base r + (o + slop)) with (base r + o + slop) by lia.
  pose proof (Z.mod_pos_bound (base r + o) 8 ltac:(lia)) as Hm.
  rewrite Z.add_mod by lia.
  destruct (Z.eqb_spec ((base r + o) mod 8) 0) as [E|E]; subst slop.
  - rewrite E. reflexivity.
  - rewrite (Z.mod_small (8 - _)) by lia.
    replace ((base r + o) mod 8 + (8 - (base r + o) mod 8)) with 8 by lia.
    reflexivity.
Qed.

Lemma AllocateFallback_result sz (a : t) (n : Z) :
  fst (AllocateFallback sz a n) = Some (Ptr (length (blocks_ a)) 0).
Proof. unfold AllocateFallback. by destruct (n >? kBlockSize / 4). Qed.

(** [AllocateAligned] never fails its assertion and returns an address
    that is a multiple of 8, when pointers have at most 8 bytes and
    [operator new] returns regions at multiples of 8. *)
Theorem AllocateAligned_aligned sz base (a : t) (n : Z) :
  0 < sz <= 8 -> (forall r, base r mod 8 = 0) ->
  exists result a',
    AllocateAligned sz base a n = Some (result, a')
    /\ address base result mod 8 = 0.
Proof.
  intros Hsz Hbase. unfold AllocateAligned.
  assert (E : (sz >? 8) = false) by (rewrite Z.gtb_ltb; apply Z.ltb_ge; lia).
  rewrite E. clear E.
  set (m := Z.land (address base (alloc_ptr_ a)) (8 - 1)).
  set (slop := if m =? 0 then 0 else 8 - m).
  destruct (u64 (n + slop) <=? alloc_bytes_remaining_ a).
  - pose proof (address_aligned base (alloc_ptr_ a) slop eq_refl) as Hal.
    rewrite Hal. cbn. eexists _, _. split; [reflexivity|].
    by rewrite <- land_7.
  - pose proof (AllocateFallback_result sz a n) as Hres.
    destruct (AllocateFallback sz a n) as [result a']. cbn [fst] in Hres.
    subst result. cbn [address]. rewrite Z.add_0_r, land_7, u64_mod_8, Hbase.
    cbn [Z.eqb]. eexists _, _. split; [reflexivity|].
    cbn [address]. by rewrite Z.add_0_r, u64_mod_8.
Qed.

Lemma AllocateAligned_aligned_witness :
  exists result a',
    AllocateAligned 8 (fun r => 4096 * Z.of_nat r + 65536)
      {| alloc_ptr_ := Some (Ptr 0 13); alloc_bytes_remaining_ := 4083;
         blocks_ := [4096]; memory_usage_ := 4104 |} 24
    = Some (result, a')
    /\ address (fun r => 4096 * Z.of_nat r + 65536) result mod 8 = 0.
Proof.
  apply AllocateAligned_aligned; [lia|].
  intros r. replace (4096 * Z.of_nat r + 65536)
    with ((512 * Z.of_nat r + 8192) * 8) by lia.
  apply Z.mod_mul. lia.
Defined.

(** A sequence of requests to [AllocateAligned], keeping what each call
    returned together with the number of bytes asked for. *)
Fixpoint AllocateEach (sizeof_ptr : Z) (region_base : nat -> Z) (a : t)
    (requests : list Z) : option (list (option ptr * Z) * t) :=
  match requests with
  | [] => Some ([], a)
  | n :: requests' =>
      '(result, a1) ← AllocateAligned sizeof_ptr region_base a n;
      '(handed, a') ← AllocateEach sizeof_ptr region_base a1 requests';
      Some ((result, n) :: handed, a')
  end.

(** One call: the bytes returned are the bytes between the old and the new
    cursor of the current region, or the whole of a dedicated region that
    leaves the cursor alone, or the first bytes of a fresh region of
    [kBlockSize] bytes whose cursor stands right behind them. *)
Lemma AllocateAligned_step sz base (a : t) (n : Z) result a' :
  0 < sz <= 8 -> cursor_ok a -> 0 < n < 2 ^ 63 ->
  AllocateAligned sz base a n = Some (result, a') ->
  cursor_ok a'
  /\ exists r o,
       result = Some (Ptr r o)
       /\ ((exists o0, alloc_ptr_ a = Some (Ptr r o0) /\ o0 <= o
                       /\ o + n <= kBlockSize
                       /\ blocks_ a' = blocks_ a
                       /\ alloc_ptr_ a' = Some (Ptr r (o + n)))
           \/ (r = length (blocks_ a) /\ o = 0
               /\ blocks_ a' = blocks_ a ++ [n]
               /\ alloc_ptr_ a' = alloc_ptr_ a)
           \/ (r = length (blocks_ a) /\ o = 0 /\ n <= kBlockSize
               /\ blocks_ a' = blocks_ a ++ [kBlockSize]
               /\ alloc_ptr_ a' = Some (Ptr r n))).
Proof.
  intros Hsz Hok Hn. unfold AllocateAligned.
  assert (E : (sz >? 8) = false) by (rewrite Z.gtb_ltb; apply Z.ltb_ge; lia).
  rewrite E. clear E.
  set (m := Z.land (address base (alloc_ptr_ a)) (8 - 1)).
  assert (Hm : 0 <= m < 8).
  { subst m. rewrite land_7. apply Z.mod_pos_bound. lia. }
  set (slop := if m =? 0 then 0 else 8 - m).
  assert (Hs : 0 <= slop < 8) by (subst slop; destruct (Z.eqb_spec m 0); lia).
  assert (Hu : u64 (n + slop) = n + slop).
  { unfold u64. apply Z.mod_small. lia. }
  rewrite Hu.
  destruct (Z.leb_spec (n + slop) (alloc_bytes_remaining_ a)) as [Hfit|Hnofit].
  - (* served from the current region *)
    unfold cursor_ok in Hok.
    destruct (alloc_ptr_ a) as [[r o]|] eqn:Hp; [|lia].
    destruct Hok as (Hr & Ho & Hrem & Hsum). cbn [ptr_add].
    destruct (Z.land _ _ =? 0); [|discriminate].
    intros [= <- <-].
    assert (Hu' : u64 (alloc_bytes_remaining_ a - (n + slop))
                  = alloc_bytes_remaining_ a - (n + slop)).
    { unfold u64, kBlockSize in *. apply Z.mod_small. lia. }
    split.
    + unfold cursor_ok. cbn [alloc_ptr_ ptr_add blocks_ alloc_bytes_remaining_].
      rewrite Hu'. split; [done|]. lia.
    + exists r, (o + slop). cbn [blocks_ alloc_ptr_].
      split; [done|]. left. exists o.
      split; [done|]. split; [lia|]. split; [lia|]. split; [done|].
      do 2 f_equal. lia.
  - (* a new region *)
    unfold AllocateFallback, AllocateNewBlock. cbn [fst snd].
    change (kBlockSize / 4) with 1024.
    destruct (Z.gtb_spec n 1024) as [Hbig|Hsmall]; cbn [blocks_ alloc_ptr_];
      (destruct (Z.land _ _ =? 0); [|discriminate]); intros [= <- <-].
    + split.
      * unfold cursor_ok in *. cbn.
        destruct (alloc_ptr_ a) as [[r o]|]; [|done].
        destruct Hok as (Hr & Hrest). split; [|done].
        by apply lookup_app_l_Some.
      * exists (length (blocks_ a)), 0. cbn [blocks_ alloc_ptr_].
        split; [done|]. right. left. done.
    + assert (Hu' : u64 (kBlockSize - n) = kBlockSize - n).
      { unfold u64, kBlockSize. apply Z.mod_small. lia. }
      split.
      * unfold cursor_ok.
        cbn [alloc_ptr_ ptr_add blocks_ alloc_bytes_remaining_].
        rewrite Hu'. split; [by apply list_lookup_middle|].
        unfold kBlockSize. lia.
      * exists (length (blocks_ a)), 0. cbn [blocks_ alloc_ptr_ ptr_add].
        split; [done|]. right. right.
        split; [done|]. split; [done|]. split; [unfold kBlockSize; lia|].
        split; [done|]. do 2 f_equal.
Qed.

(** The bytes of a returned pointer lie inside a region of the arena. *)
Definition in_region (blocks : list Z) (x : option ptr * Z) : Prop :=
  exists r o region_size,
    x.1 = Some (Ptr r o) /\ blocks !! r = Some region_size
    /\ 0 <= o /\ o + x.2 <= region_size.

(** The bytes of a returned pointer are still free in arena [a]: they lie
    in a region that [a] does not have yet, or behind its cursor. *)
Definition unused (a : t) (x : option ptr * Z) : Prop :=
  exists r o,
    x.1 = Some (Ptr r o)
    /\ ((length (blocks_ a) <= r)%nat
        \/ exists c, alloc_ptr_ a = Some (Ptr r c) /\ c <= o).

(** Two returned pointers share no byte. *)
Definition apart (x y : option ptr * Z) : Prop :=
  forall r1 o1 r2 o2,
    x.1 = Some (Ptr r1 o1) -> y.1 = Some (Ptr r2 o2) ->
    r1 <> r2 \/ o1 + x.2 <= o2 \/ o2 + y.2 <= o1.

Fixpoint all_apart (handed : list (option ptr * Z)) : Prop :=
  match handed with
  | [] => True
  | x :: rest => Forall (apart x) rest /\ all_apart rest
  end.

Lemma all_apart_lookup (handed : list (option ptr * Z)) (i j : nat) x y :
  all_apart handed -> (i < j)%nat ->
  handed !! i = Some x -> handed !! j = Some y -> apart x y.
Proof.
  revert i j. induction handed as [|z rest IH]; intros i j Hall Hij Hi Hj;
    [done|].
  destruct Hall as [Hz Hrest]. destruct j as [|j]; [lia|].
  destruct i as [|i]; cbn in Hi, Hj.
  - injection Hi as ->. rewrite Forall_forall in Hz. apply Hz.
    by eapply list_elem_of_lookup_2.
  - apply (IH i j); [done|lia|done|done].
Qed.

Lemma in_region_app blocks more x :
  in_region blocks x -> in_region (blocks ++ more) x.
Proof.
  intros (r & o & s & Hx & Hr & Ho). exists r, o, s.
  split; [done|]. split; [by apply lookup_app_l_Some|done].
Qed.

(** From an arena whose cursor is in order, a sequence of requests keeps
    the regions already there, and returns bytes that lie inside the
    regions, were free before, and are apart from each other. *)
Lemma AllocateEach_apart sz base (requests : list Z) :
  0 < sz <= 8 -> (forall r, base r mod 8 = 0) ->
  Forall (fun n => 0 < n < 2 ^ 63) requests ->
  forall a0, cursor_ok a0 ->
  exists handed a more,
    AllocateEach sz base a0 requests = Some (handed, a)
    /\ cursor_ok a
    /\ blocks_ a = blocks_ a0 ++ more
    /\ map snd handed = requests
    /\ Forall (in_region (blocks_ a)) handed
    /\ Forall (unused a0) handed
    /\ all_apart handed.
Proof.
  intros Hsz Hbase. induction 1 as [|n requests Hn Hrest IH]; intros a0 Hok.
  - exists [], a0, []. cbn [AllocateEach map all_apart].
    rewrite app_nil_r. done.
  - cbn [AllocateEach].
    destruct (AllocateAligned_aligned sz base a0 n Hsz Hbase)
      as (result & a1 & Hal & _).
    rewrite Hal. cbn [mbind option_bind].
    destruct (AllocateAligned_step sz base a0 n result a1 Hsz Hok Hn Hal)
      as (Hok1 & r & o & -> & Hcase).
    destruct (IH a1 Hok1)
      as (handed & a & more & -> & Hoka & Hblocks & Hmap & Hin & Hun & Hap).
    cbn [mbind option_bind].
    assert (Hr : (r < length (blocks_ a1))%nat
                 /\ (length (blocks_ a0) <= length (blocks_ a1))%nat
                 /\ exists region_size more1,
                      blocks_ a1 = blocks_ a0 ++ more1
                      /\ blocks_ a1 !! r = Some region_size
                      /\ 0 <= o /\ o + n <= region_size).
    { unfold cursor_ok in Hok.
      destruct Hcase as [(o0 & Hp & Ho & Hfit & Hb & _)
                        |[(-> & -> & Hb & _)|(-> & -> & Hfit & Hb & _)]];
        rewrite Hb.
      - rewrite Hp in Hok. destruct Hok as (Hl & Ho0 & _).
        split; [by eapply lookup_lt_Some|]. split; [lia|].
        exists kBlockSize, []. rewrite app_nil_r.
        split; [done|]. split; [done|]. lia.
      - rewrite length_app. cbn [length]. split; [lia|]. split; [lia|].
        exists n, [n]. split; [done|].
        split; [by apply list_lookup_middle|]. lia.
      - rewrite length_app. cbn [length]. split; [lia|]. split; [lia|].
        exists kBlockSize, [kBlockSize]. split; [done|].
        split; [by apply list_lookup_middle|]. lia. }
    destruct Hr as (Hlt & Hle & region_size & more1 & Hb1 & Hlook & Ho & Hon).
    exists ((Some (Ptr r o), n) :: handed), a, (more1 ++ more).
    split; [done|]. split; [done|].
    split; [by rewrite Hblocks, Hb1, app_assoc|].
    split; [cbn [map snd]; by rewrite Hmap|].
    split; [|split; [|split]].
    + constructor; [|done]. exists r, o, region_size. cbn [fst snd].
      split; [done|]. rewrite Hblocks.
      split; [by apply lookup_app_l_Some|]. lia.
    + constructor.
      * exists r, o. cbn [fst]. split; [done|].
        destruct Hcase as [(o0 & Hp & Ho0 & _)|[(-> & _)|(-> & _)]].
        -- right. by exists o0.
        -- by left.
        -- by left.
      * rewrite Forall_forall in Hun |- *. intros x Hx.
        destruct (Hun x Hx) as (r' & o' & Hx1 & Hfree).
        exists r', o'. split; [done|].
        destruct Hfree as [Hnew|(c & Hc & Hco)]; [left; lia|].
        destruct Hcase as [(o0 & Hp & Ho0 & _ & _ & Hp1)
                          |[(-> & -> & _ & Hp1)|(-> & -> & _ & _ & Hp1)]];
          rewrite Hp1 in Hc.
        -- injection Hc as <- <-. right. exists o0. split; [done|]. lia.
        -- right. by exists c.
        -- injection Hc as <- <-. by left.
    + rewrite Forall_forall in Hun |- *. intros x Hx.
      destruct (Hun x Hx) as (r' & o' & Hx1 & Hfree).
      intros r1 o1 r2 o2. cbn [fst snd]. intros [= <- <-] Hx2.
      rewrite Hx1 in Hx2. injection Hx2 as <- <-.
      destruct Hfree as [Hnew|(c & Hc & Hco)]; [left; lia|].
      destruct Hcase as [(o0 & Hp & Ho0 & _ & _ & Hp1)
                        |[(-> & -> & _ & Hp1)|(-> & -> & _ & _ & Hp1)]];
        rewrite Hp1 in Hc.
      * injection Hc as <- <-. right. left. lia.
      * left. intros <-. unfold cursor_ok in Hok. rewrite Hc in Hok.
        destruct Hok as (Hl & _). apply lookup_lt_Some in Hl. lia.
      * injection Hc as <- <-. right. left. lia.
    + done.
Qed.

(** Whatever sequence of requests a new arena serves, every call returns a
    pointer to as many bytes as were asked for inside one region of the
    arena, and no two calls return a byte in common: no byte is handed out
    twice.  The cursor stays in order. *)
Theorem AllocateAligned_in_bounds sz base (requests : list Z) :
  0 < sz <= 8 -> (forall r, base r mod 8 = 0) ->
  Forall (fun n => 0 < n < 2 ^ 63) requests ->
  exists handed a,
    AllocateEach sz base init requests = Some (handed, a)
    /\ cursor_ok a
    /\ map snd handed = requests
    /\ (forall i p n, handed !! i = Some (p, n) ->
          exists r o region_size,
            p = Some (Ptr r o) /\ blocks_ a !! r = Some region_size
            /\ 0 <= o /\ o + n <= region_size)
    /\ (forall i j r o1 n1 o2 n2, (i < j)%nat ->
          handed !! i = Some (Some (Ptr r o1), n1) ->
          handed !! j = Some (Some (Ptr r o2), n2) ->
          o1 + n1 <= o2 \/ o2 + n2 <= o1).
Proof.
  intros Hsz Hbase Hreq.
  destruct (AllocateEach_apart sz base requests Hsz Hbase Hreq init)
    as (handed & a & more & Hrun & Hok & _ & Hmap & Hin & _ & Hap);
    [reflexivity|].
  exists handed, a. split; [done|]. split; [done|]. split; [done|]. split.
  - intros i p n Hi. rewrite Forall_forall in Hin.
    apply (Hin (p, n)). by eapply list_elem_of_lookup_2.
  - intros i j r o1 n1 o2 n2 Hij Hi Hj.
    destruct (all_apart_lookup handed i j _ _ Hap Hij Hi Hj r o1 r o2)
      as [Hne|Hd]; done.
Qed.

(** Six requests: three are served from the first region, the fourth gets
    a region of its own, the fifth still fits the first region, and the
    sixth opens a second region of [kBlockSize] bytes. *)
Lemma AllocateAligned_in_bounds_witness :
  exists handed a,
    AllocateEach 8 (fun r => 4096 * Z.of_nat r + 65536) init
      [100; 24; 2000; 3000; 1000; 1000] = Some (handed, a)
    /\ cursor_ok a
    /\ map snd handed = [100; 24; 2000; 3000; 1000; 1000]
    /\ (forall i p n, handed !! i = Some (p, n) ->
          exists r o region_size,
            p = Some (Ptr r o) /\ blocks_ a !! r = Some region_size
            /\ 0 <= o /\ o + n <= region_size)
    /\ (forall i j r o1 n1 o2 n2, (i < j)%nat ->
          handed !! i = Some (Some (Ptr r o1), n1) ->
          handed !! j = Some (Some (Ptr r o2), n2) ->
          o1 + n1 <= o2 \/ o2 + n2 <= o1).
Proof.
  apply (AllocateAligned_in_bounds 8 (fun r => 4096 * Z.of_nat r + 65536)
           [100; 24; 2000; 3000; 1000; 1000]).
  - lia.
  - intros r. replace (4096 * Z.of_nat r + 65536)
      with ((512 * Z.of_nat r + 8192) * 8) by lia.
    apply Z.mod_mul. lia.
  - repeat constructor; lia.
Defined.

(** The run of the six requests above. *)
Lemma AllocateEach_example :
  AllocateEach 8 (fun r => 4096 * Z.of_nat r + 65536) init
    [100; 24; 2000; 3000; 1000; 1000]
  = Some ([(Some (Ptr 0 0), 100); (Some (Ptr 0 104), 24);
           (Some (Ptr 0 128), 2000); (Some (Ptr 1 0), 3000);
           (Some (Ptr 0 2128), 1000); (Some (Ptr 2 0), 1000)],
          {| alloc_ptr_ := Some (Ptr 2 1000); alloc_bytes_remaining_ := 3096;
             blocks_ := [4096; 3000; 4096];
             memory_usage_ := 11216 |}).
Proof. reflexivity. Qed.

Lemma regions_usage_app sz blocks n :
  regions_usage sz (blocks ++ [n]) = regions_usage sz blocks + (n + sz).
Proof.
  unfold regions_usage.
  induction blocks as [|b blocks IH]; cbn [app fold_right]; [lia|].
  rewrite IH. lia.
Qed.

Lemma AllocateNewBlock_usage sz (a : t) (n : Z) :
  memory_usage_ a = u64 (regions_usage sz (blocks_ a)) ->
  let a' := snd (AllocateNewBlock sz a n) in
  memory_usage_ a' = u64 (regions_usage sz (blocks_ a')).
Proof.
  intros Hu. cbn [snd AllocateNewBlock memory_usage_ blocks_].
  rewrite regions_usage_app, Hu. unfold u64.
  by rewrite <- Z.add_mod by lia.
Qed.

Lemma AllocateAligned_usage sz base (a : t) (n : Z) result a' :
  memory_usage_ a = u64 (regions_usage sz (blocks_ a)) ->
  AllocateAligned sz base a n = Some (result, a') ->
  memory_usage_ a' = u64 (regions_usage sz (blocks_ a')).
Proof.
  intros Hu. unfold AllocateAligned.
  destruct (_ <=? alloc_bytes_remaining_ a).
  - destruct (Z.land _ _ =? 0); [|discriminate]. by intros [= <- <-].
  - pose proof (AllocateNewBlock_usage sz a n Hu) as H1.
    pose proof (AllocateNewBlock_usage sz a kBlockSize Hu) as H2.
    unfold AllocateFallback, AllocateNewBlock in *.
    cbn [fst snd memory_usage_ blocks_] in *.
    destruct (n >? kBlockSize / 4);
      match goal with
      | |- (if ?c then _ else _) = _ -> _ => destruct c; [|discriminate]
      end; by intros [= <- <-].
Qed.

(** After any sequence of requests to a new arena, [memory_usage_] is
    the total size of the regions obtained plus one pointer for each
    (as a 64-bit value). *)
Theorem memory_usage_accounts_regions sz base (requests : list Z) (a : t) :
  AllocateAll sz base init requests = Some a ->
  memory_usage_ a = u64 (regions_usage sz (blocks_ a)).
Proof.
  assert (Hgen : forall a0,
            memory_usage_ a0 = u64 (regions_usage sz (blocks_ a0)) ->
            AllocateAll sz base a0 requests = Some a ->
            memory_usage_ a = u64 (regions_usage sz (blocks_ a))).
  { induction requests as [|n requests IH]; intros a0 Hu; cbn [AllocateAll].
    - by intros [= <-].
    - destruct (AllocateAligned sz base a0 n) as [[result a1]|] eqn:Hal;
        [|discriminate].
      cbn [mbind option_bind]. apply IH.
      by eapply AllocateAligned_usage. }
  apply Hgen. reflexivity.
Qed.

Lemma memory_usage_accounts_regions_witness :
  memory_usage_
    {| alloc_ptr_ := Some (Ptr 0 2128); alloc_bytes_remaining_ := 1968;
       blocks_ := [4096; 4000]; memory_usage_ := 8112 |}
  = u64 (regions_usage 8 [4096; 4000]).
Proof.
  apply (memory_usage_accounts_regions 8 (fun r => 4096 * Z.of_nat r + 65536)
           [100; 2000; 4000; 24]).
  reflexivity.
Defined.

End Arena.

(** ** util/coding.cc *)

Module Coding.

(** Modelled from the spec: util/coding.cc is not among the sources.  The
    spec gives fixed-width integers as little-endian bytes and calls the
    variable-length ones varints: seven value bits per byte, least
    significant group first, the high bit set on every byte but the last. *)
Definition EncodeFixed32 (v : Z) : bytes :=
  [ byte_of_Z v; byte_of_Z (Z.shiftr v 8);
    byte_of_Z (Z.shiftr v 16); byte_of_Z (Z.shiftr v 24) ].

Definition PutFixed32 (dst : bytes) (v : Z) : bytes :=
  dst ++ EncodeFixed32 (u32 v).

(** Reading four bytes at the front of [p]; [None] when fewer are there. *)
Definition DecodeFixed32 (p : bytes) : option Z :=
  match p with
  | b0 :: b1 :: b2 :: b3 :: _ =>
      Some (Z.lor (Z.lor (Z_of_byte b0) (Z.shiftl (Z_of_byte b1) 8))
                  (Z.lor (Z.shiftl (Z_of_byte b2) 16)
                         (Z.shiftl (Z_of_byte b3) 24)))
  | _ => None
  end.

(** [more] is the number of continuation bytes still allowed: 4 for a
    32-bit value, 9 for a 64-bit one. *)
Fixpoint EncodeVarint (more : nat) (v : Z) : bytes :=
  match more with
  | O => [byte_of_Z v]
  | S more' =>
      if v <? 128 then [byte_of_Z v]
      else byte_of_Z (Z.lor (Z.land v 127) 128)
             :: EncodeVarint more' (Z.shiftr v 7)
  end.

Definition PutVarint32 (dst : bytes) (v : Z) : bytes :=
  dst ++ EncodeVarint 4 (u32 v).

Definition PutVarint64 (dst : bytes) (v : Z) : bytes :=
  dst ++ EncodeVarint 9 (u64 v).

Fixpoint GetVarint (more : nat) (shift : Z) (acc : Z) (p : bytes)
  : option (Z * bytes) :=
  match p with
  | [] => None
  | b :: p' =>
      let byte := Z_of_byte b in
      if Z.land byte 128 =? 0
      then Some (Z.lor acc (Z.shiftl byte shift), p')
      else match more with
           | O => None
           | S more' =>
               GetVarint more' (shift + 7)
                 (Z.lor acc (Z.shiftl (Z.land byte 127) shift)) p'
           end
  end.

Definition GetVarint32 (p : bytes) : option (Z * bytes) := GetVarint 4 0 0 p.
Definition GetVarint64 (p : bytes) : option (Z * bytes) := GetVarint 9 0 0 p.

(** *** Round trips *)

Lemma Z_of_byte_range b : 0 <= Z_of_byte b < 256.
Proof.
  unfold Z_of_byte. pose proof (Byte.to_N_bounded b) as H.
  lia.
Qed.

Lemma Z_of_byte_of_Z x : 0 <= x < 256 -> Z_of_byte (byte_of_Z x) = x.
Proof.
  intros Hx. unfold byte_of_Z, Z_of_byte.
  rewrite Z.mod_small by lia.
  destruct (Byte.of_N (Z.to_N x)) as [b|] eqn:E.
  - apply Byte.to_of_N in E. rewrite E. lia.
  - apply Byte.of_N_None_iff in E. lia.
Qed.

Lemma byte_of_Z_of_byte b : byte_of_Z (Z_of_byte b) = b.
Proof.
  unfold byte_of_Z, Z_of_byte.
  pose proof (Byte.to_N_bounded b) as H.
  rewrite Z.mod_small by lia.
  rewrite N2Z.id, Byte.of_to_N. reflexivity.
Qed.

Lemma low7_high (v : Z) :
  0 <= v -> Z.lor (Z.land v 127) (Z.shiftl (Z.shiftr v 7) 7) = v.
Proof.
  intros Hv. apply Z.bits_inj'. intros i Hi.
  rewrite Z.lor_spec, Z.land_spec.
  change 127 with (Z.ones 7).
  destruct (Z.lt_ge_cases i 7) as [Hlt|Hge].
  - rewrite Z.ones_spec_low by lia.
    rewrite Z.shiftl_spec_low by lia.
    rewrite andb_true_r, orb_false_r. reflexivity.
  - rewrite Z.ones_spec_high by lia.
    rewrite Z.shiftl_spec by lia.
    rewrite Z.shiftr_spec by lia.
    rewrite andb_false_r. cbn. f_equal. lia.
Qed.

Lemma continuation_byte (v : Z) :
  0 <= v ->
  let c := Z.lor (Z.land v 127) 128 in
  0 <= c < 256 /\ Z.land c 128 = 128 /\ Z.land c 127 = Z.land v 127.
Proof.
  intros Hv c. subst c.
  assert (Hl : 0 <= Z.land v 127 < 128).
  { change 127 with (Z.ones 7). rewrite Z.land_ones by lia.
    apply Z.mod_pos_bound. reflexivity. }
  assert (Hdisj : Z.land (Z.land v 127) 128 = 0).
  { apply Z.bits_inj'. intros i Hi. rewrite !Z.land_spec, Z.bits_0.
    change 127 with (Z.ones 7). change 128 with (2 ^ 7).
    rewrite Z.pow2_bits_eqb by lia.
    destruct (Z.eqb_spec 7 i) as [<-|Hne].
    - rewrite Z.ones_spec_high by lia. rewrite !andb_false_r. reflexivity.
    - rewrite !andb_false_r. reflexivity. }
  assert (Hadd : Z.lor (Z.land v 127) 128 = Z.land v 127 + 128).
  { rewrite <- Z.lxor_lor by exact Hdisj.
    symmetry. apply Z.add_nocarry_lxor. exact Hdisj. }
  split; [lia|]. split.
  - apply Z.bits_inj'. intros i Hi. rewrite Z.land_spec, Z.lor_spec.
    change 128 with (2 ^ 7). rewrite Z.pow2_bits_eqb by lia.
    destruct (Z.eqb_spec 7 i); [rewrite orb_true_r|rewrite !andb_false_r];
      reflexivity.
  - apply Z.bits_inj'. intros i Hi.
    rewrite !Z.land_spec, Z.lor_spec, Z.land_spec.
    change 128 with (2 ^ 7). rewrite Z.pow2_bits_eqb by lia.
    change 127 with (Z.ones 7).
    destruct (Z.lt_ge_cases i 7).
    + rewrite Z.ones_spec_low by lia.
      destruct (Z.eqb_spec 7 i); [lia|].
      rewrite orb_false_r, !andb_true_r. reflexivity.
    + rewrite Z.ones_spec_high by lia. rewrite !andb_false_r. reflexivity.
Qed.

Lemma small_byte_no_continuation (v : Z) :
  0 <= v < 128 -> Z.land v 128 = 0.
Proof.
  intros Hv. apply Z.bits_inj'. intros i Hi.
  rewrite Z.land_spec, Z.bits_0. change 128 with (2 ^ 7).
  rewrite Z.pow2_bits_eqb by lia.
  destruct (Z.eqb_spec 7 i) as [<-|Hne]; [|apply andb_false_r].
  rewrite andb_true_r. apply Z.bits_above_log2; [lia|].
  destruct (Z.eq_dec v 0) as [->|Hnz]; [reflexivity|].
  apply Z.log2_lt_pow2; lia.
Qed.

Lemma GetVarint_EncodeVarint more : forall v shift acc rest,
  0 <= v < 2 ^ (7 * (Z.of_nat more + 1)) -> 0 <= shift ->
  GetVarint more shift acc (EncodeVarint more v ++ rest)
  = Some (Z.lor acc (Z.shiftl v shift), rest).
Proof.
  induction more as [|more IH]; intros v shift acc rest Hv Hs.
  - cbn in Hv. cbn [EncodeVarint GetVarint app].
    rewrite Z_of_byte_of_Z by lia.
    rewrite small_byte_no_continuation by lia. reflexivity.
  - cbn [EncodeVarint].
    destruct (Z.ltb_spec v 128) as [Hlt|Hge].
    + cbn [GetVarint app]. rewrite Z_of_byte_of_Z by lia.
      rewrite small_byte_no_continuation by lia. reflexivity.
    + destruct (continuation_byte v) as (Hc & Hhi & Hlo); [lia|].
      cbn [GetVarint app]. rewrite Z_of_byte_of_Z by exact Hc.
      rewrite Hhi, Hlo. cbn [Z.eqb].
      rewrite IH.
      * f_equal. f_equal. rewrite <- Z.lor_assoc. f_equal.
        replace (shift + 7) with (7 + shift) by lia.
        rewrite <- (Z.shiftl_shiftl _ 7 shift) by lia.
        rewrite <- Z.shiftl_lor. rewrite low7_high by lia. reflexivity.
      * rewrite Z.shiftr_div_pow2 by lia. split.
        -- apply Z.div_pos; lia.
        -- apply Z.div_lt_upper_bound; [lia|].
           rewrite <- Z.pow_add_r by lia.
           replace (7 + 7 * (Z.of_nat more + 1))
             with (7 * (Z.of_nat (S more) + 1)) by lia.
           lia.
      * lia.
Qed.

Lemma GetVarint32_PutVarint32 (v : Z) (rest : bytes) :
  0 <= v < 2 ^ 32 ->
  GetVarint32 (EncodeVarint 4 (u32 v) ++ rest) = Some (v, rest).
Proof.
  intros Hv. unfold GetVarint32, u32. rewrite Z.mod_small by exact Hv.
  rewrite GetVarint_EncodeVarint.
  - rewrite Z.shiftl_0_r. reflexivity.
  - change (2 ^ (7 * (Z.of_nat 4 + 1))) with (2 ^ 35).
    assert (2 ^ 32 < 2 ^ 35) by reflexivity. lia.
  - lia.
Qed.

Lemma EncodeVarint_nonempty more v : EncodeVarint more v <> [].
Proof. destruct more; cbn; [|destruct (v <? 128)]; discriminate. Qed.

Lemma DecodeFixed32_EncodeFixed32 (v : Z) (rest : bytes) :
  0 <= v < 2 ^ 32 -> DecodeFixed32 (EncodeFixed32 v ++ rest) = Some v.
Proof.
  intros Hv. unfold EncodeFixed32, DecodeFixed32. cbn [app].
  unfold byte_of_Z.
  assert (Hb : forall x, 0 <= x ->
    Z_of_byte (match Byte.of_N (Z.to_N (x mod 256)) with
               | Some b => b | None => x00 end) = Z.land x 255).
  { intros x Hx. change 255 with (Z.ones 8). rewrite Z.land_ones by lia.
    change (2 ^ 8) with 256.
    pose proof (Z_of_byte_of_Z (x mod 256)) as H. unfold byte_of_Z in H.
    rewrite Z.mod_mod in H by lia. apply H. apply Z.mod_pos_bound. lia. }
  rewrite !Hb by (try apply Z.shiftr_nonneg; lia).
  f_equal. apply Z.bits_inj'. intros i Hi.
  rewrite !Z.lor_spec.
  rewrite !Z.shiftl_spec by lia. rewrite !Z.land_spec.
  change 255 with (Z.ones 8).
  destruct (Z.lt_ge_cases i 8); [|destruct (Z.lt_ge_cases i 16);
    [|destruct (Z.lt_ge_cases i 24); [|destruct (Z.lt_ge_cases i 32)]]].
  - rewrite Z.ones_spec_low by lia.
    rewrite (Z.testbit_neg_r _ (i - 8)), (Z.testbit_neg_r _ (i - 16)),
      (Z.testbit_neg_r _ (i - 24)) by lia.
    rewrite andb_true_r, !orb_false_r. reflexivity.
  - rewrite (Z.ones_spec_high 8 i) by lia.
    rewrite (Z.ones_spec_low 8 (i - 8)) by lia.
    rewrite (Z.testbit_neg_r _ (i - 16)), (Z.testbit_neg_r _ (i - 24)) by lia.
    rewrite andb_false_r, andb_true_r, !orb_false_r. cbn.
    rewrite Z.shiftr_spec by lia. f_equal. lia.
  - rewrite (Z.ones_spec_high 8 i), (Z.ones_spec_high 8 (i - 8)) by lia.
    rewrite (Z.ones_spec_low 8 (i - 16)) by lia.
    rewrite (Z.testbit_neg_r _ (i - 24)) by lia.
    rewrite !andb_false_r, andb_true_r, !orb_false_r. cbn.
    rewrite Z.shiftr_spec by lia. f_equal. lia.
  - rewrite (Z.ones_spec_high 8 i), (Z.ones_spec_high 8 (i - 8)),
      (Z.ones_spec_high 8 (i - 16)) by lia.
    rewrite (Z.ones_spec_low 8 (i - 24)) by lia.
    rewrite !andb_false_r, andb_true_r. cbn.
    rewrite Z.shiftr_spec by lia. f_equal. lia.
  - rewrite (Z.ones_spec_high 8 i), (Z.ones_spec_high 8 (i - 8)),
      (Z.ones_spec_high 8 (i - 16)), (Z.ones_spec_high 8 (i - 24)) by lia.
    rewrite !andb_false_r. cbn. symmetry.
    apply Z.bits_above_log2; [lia|].
    destruct (Z.eq_dec v 0) as [->|Hnz]; [cbn; lia|].
    apply Z.lt_le_trans with 32; [|lia]. apply Z.log2_lt_pow2; lia.
Qed.

Lemma EncodeVarint_length more v :
  (1 <= length (EncodeVarint more v) <= more + 1)%nat.
Proof.
  revert v. induction more as [|more IH]; intros v; cbn [EncodeVarint].
  - cbn. lia.
  - destruct (v <? 128); cbn [length]; [lia|]. specialize (IH (Z.shiftr v 7)). lia.
Qed.


Lemma GetVarint64_PutVarint64 (v : Z) (rest : bytes) :
  0 <= v < 2 ^ 64 ->
  GetVarint64 (EncodeVarint 9 (u64 v) ++ rest) = Some (v, rest).
Proof.
  intros Hv. unfold GetVarint64, u64. rewrite Z.mod_small by exact Hv.
  rewrite GetVarint_EncodeVarint.
  - rewrite Z.shiftl_0_r. reflexivity.
  - change (2 ^ (7 * (Z.of_nat 9 + 1))) with (2 ^ 70).
    assert (2 ^ 64 < 2 ^ 70) by reflexivity. lia.
  - lia.
Qed.


End Coding.

(** ** Collaborators: status, comparator, filter policy, options *)

(** Modelled from the spec: leveldb/status.h, leveldb/comparator.h,
    leveldb/filter_policy.h and leveldb/options.h are not among the
    sources.  The spec lists the error kinds and the operations the core
    uses from each collaborator; only those appear here. *)
Inductive Status :=
| OK
| NotFound (msg : string)
| Corruption (msg : string)
| NotSupported (msg : string)
| InvalidArgument (msg : string)
| IOError (msg : string).

Definition ok (s : Status) : bool :=
  match s with OK => true | _ => false end.

Record Comparator := mkComparator
  { Compare : bytes -> bytes -> Z;
    FindShortestSeparator : bytes -> bytes -> bytes;
    FindShortSuccessor : bytes -> bytes }.

Module FilterPolicy.
Record t := Build
  { Name : bytes;
    (** [CreateFilter keys dst] is [dst] after the call. *)
    CreateFilter : list bytes -> bytes -> bytes;
    KeyMayMatch : bytes -> bytes -> bool }.
End FilterPolicy.

Inductive CompressionType := kNoCompression | kSnappyCompression.

Definition CompressionType_value (t : CompressionType) : Z :=
  match t with kNoCompression => 0 | kSnappyCompression => 1 end.

Record Options := mkOptions
  { comparator : Comparator;
    block_size : Z;
    block_restart_interval : Z;
    compression : CompressionType;
    filter_policy : option FilterPolicy.t }.

(** Modelled from the spec: util/comparator.cc is not among the sources.
    The default comparator orders keys as byte strings; its two shortening
    operations obey the contract the spec gives for them (the separator
    [s] of [start] and [limit] has [start <= s < limit], the successor of
    a key is not smaller than the key). *)
Fixpoint bytewise_compare (a b : bytes) : Z :=
  match a, b with
  | [], [] => 0
  | [], _ :: _ => -1
  | _ :: _, [] => 1
  | x :: a', y :: b' =>
      if Z_of_byte x <? Z_of_byte y then -1
      else if Z_of_byte y <? Z_of_byte x then 1
      else bytewise_compare a' b'
  end.

Fixpoint bytewise_separator (start limit : bytes) : bytes :=
  match start, limit with
  | x :: s', y :: l' =>
      if Z_of_byte x =? Z_of_byte y then x :: bytewise_separator s' l'
      else if (Z_of_byte x <? 255) && (Z_of_byte x + 1 <? Z_of_byte y)
           then [byte_of_Z (Z_of_byte x + 1)]
           else start
  | _, _ => start
  end.

Fixpoint bytewise_successor (key : bytes) : bytes :=
  match key with
  | [] => []
  | x :: k' =>
      if Z_of_byte x =? 255 then x :: bytewise_successor k'
      else [byte_of_Z (Z_of_byte x + 1)]
  end.

Definition BytewiseComparator : Comparator :=
  {| Compare := bytewise_compare;
     FindShortestSeparator := bytewise_separator;
     FindShortSuccessor := bytewise_successor |}.

(** The options of the spec's scenarios: no compression, no filter, a
    restart every 16 entries, blocks of 4 KiB. *)
Definition default_options : Options :=
  {| comparator := BytewiseComparator;
     block_size := 4096;
     block_restart_interval := 16;
     compression := kNoCompression;
     filter_policy := None |}.

Abbreviation str := list_byte_of_string.


(** [assert(c)] in the option monad. *)
Definition assert (c : bool) : option unit := if c then Some tt else None.

(** ** table/block_builder.cc *)

Module BlockBuilder.

Import Coding.

Record t := Build
  { buffer_ : bytes;
    restarts_ : list Z;
    counter_ : Z;
    finished_ : bool;
    last_key_ : bytes }.

(** [BlockBuilder::BlockBuilder]; the builder keeps a pointer to the
    options, which the operations below take as an argument. *)
Definition create (options : Options) : option t :=
  _ ← assert (block_restart_interval options >=? 1);
  Some {| buffer_ := []; restarts_ := [0]; counter_ := 0;
          finished_ := false; last_key_ := [] |}.

(** [BlockBuilder::Reset] *)
Definition Reset (b : t) : t :=
  {| buffer_ := []; restarts_ := [0]; counter_ := 0;
     finished_ := false; last_key_ := [] |}.

(** [BlockBuilder::CurrentSizeEstimate] *)
Definition CurrentSizeEstimate (b : t) : Z :=
  u64 (u64 (size (buffer_ b) + u64 (size (restarts_ b) * 4)) + 4).

(** [BlockBuilder::empty], from the header: no entry since the last
    reset. *)
Definition empty (b : t) : bool :=
  match buffer_ b with [] => true | _ => false end.

(** [BlockBuilder::Finish]: the restart offsets, then their number. *)
Definition Finish (b : t) : bytes * t :=
  let buf := fold_left PutFixed32 (restarts_ b) (buffer_ b) in
  let buf := PutFixed32 buf (size (restarts_ b)) in
  (buf, {| buffer_ := buf; restarts_ := restarts_ b; counter_ := counter_ b;
           finished_ := true; last_key_ := last_key_ b |}).

(** The loop
    [while (shared < min_length && last_key_piece[shared] == key[shared])]. *)
Fixpoint shared_prefix (last_key_piece key : bytes) : Z :=
  match last_key_piece, key with
  | x :: l', y :: k' =>
      if Byte.eqb x y then 1 + shared_prefix l' k' else 0
  | _, _ => 0
  end.

(** [std::string::resize(n)]: truncate, or pad with zero bytes. *)
Definition resize (s : bytes) (n : Z) : bytes :=
  firstn (Z.to_nat n) s ++ repeat x00 (Z.to_nat n - length s).

(** [s.append(p + off, n)] where [p] is the data of [src]. *)
Definition append_from (s src : bytes) (off n : Z) : bytes :=
  s ++ firstn (Z.to_nat n) (skipn (Z.to_nat off) src).

Definition bytes_eqb (a b : bytes) : bool :=
  if List.list_eq_dec Byte.byte_eq_dec a b then true else false.

(** [BlockBuilder::Add] *)
Definition Add (options : Options) (b : t) (key value : bytes) : option t :=
  let last_key_piece := last_key_ b in
  _ ← assert (negb (finished_ b));
  _ ← assert (counter_ b <=? block_restart_interval options);
  _ ← assert (empty b
              || (Compare (comparator options) key last_key_piece >? 0));
  let '(shared, restarts, counter) :=
    if counter_ b <? block_restart_interval options then
      (shared_prefix last_key_piece key, restarts_ b, counter_ b)
    else
      (0, restarts_ b ++ [u32 (size (buffer_ b))], 0) in
  let non_shared := u64 (size key - shared) in
  let buf := PutVarint32 (buffer_ b) shared in
  let buf := PutVarint32 buf non_shared in
  let buf := PutVarint32 buf (size value) in
  let buf := append_from buf key shared non_shared in
  let buf := buf ++ value in
  let last_key := resize (last_key_ b) shared in
  let last_key := append_from last_key key shared non_shared in
  _ ← assert (bytes_eqb last_key key);
  Some {| buffer_ := buf; restarts_ := restarts; counter_ := counter + 1;
          finished_ := finished_ b; last_key_ := last_key |}.

(** Feeding a sequence of pairs to [Add]. *)
Fixpoint AddAll (options : Options) (b : t) (kvs : list (bytes * bytes))
  : option t :=
  match kvs with
  | [] => Some b
  | (k, v) :: kvs' => b' ← Add options b k v; AddAll options b' kvs'
  end.

(** *** Reading a block back

    The decoder follows the format documented at the head of
    block_builder.cc: the last four bytes hold the number of restarts, the
    restart offsets stand before them, and the entries fill the bytes in
    front of the restart array.  An entry is three varint32 (shared,
    non-shared, value length), then the key delta, then the value; its
    key is the first [shared] bytes of the previous key followed by the
    delta.  [restarts[i]] is the offset within the block of the i-th
    restart point, an entry with [shared_bytes == 0], so that decoding can
    start there from the empty key: the decoder reads the entries restart
    point by restart point, from each recorded offset up to the next one,
    the last stretch ending where the restart array begins. *)

Definition NumRestarts (block : bytes) : option Z :=
  DecodeFixed32 (skipn (length block - 4) block).

Definition restart_offset (block : bytes) : option Z :=
  n ← NumRestarts block;
  let off := size block - (1 + n) * 4 in
  if (4 <=? size block) && (0 <=? off) then Some off else None.

Definition DecodeEntry (p last_key : bytes)
  : option (bytes * bytes * bytes) :=
  '(shared, p1) ← GetVarint32 p;
  '(non_shared, p2) ← GetVarint32 p1;
  '(value_length, p3) ← GetVarint32 p2;
  if (shared <=? size last_key) && (non_shared + value_length <=? size p3)
  then
    let key := firstn (Z.to_nat shared) last_key
               ++ firstn (Z.to_nat non_shared) p3 in
    let p4 := skipn (Z.to_nat non_shared) p3 in
    Some (key, firstn (Z.to_nat value_length) p4,
          skipn (Z.to_nat value_length) p4)
  else None.

Fixpoint DecodeEntries (fuel : nat) (p last_key : bytes)
  : option (list (bytes * bytes)) :=
  match p with
  | [] => Some []
  | _ =>
      match fuel with
      | O => None
      | S fuel' =>
          '(key, value, rest) ← DecodeEntry p last_key;
          kvs ← DecodeEntries fuel' rest key;
          Some ((key, value) :: kvs)
      end
  end.

(** The restart offsets recorded in the trailer. *)
Fixpoint DecodeRestarts (n : nat) (p : bytes) : option (list Z) :=
  match n with
  | O => Some []
  | S n' =>
      r ← DecodeFixed32 p;
      rs ← DecodeRestarts n' (skipn 4 p);
      Some (r :: rs)
  end.

Definition RestartArray (block : bytes) : option (list Z) :=
  off ← restart_offset block;
  n ← NumRestarts block;
  DecodeRestarts (Z.to_nat n) (skipn (Z.to_nat off) block).

(** The entries that fill the bytes of the block from offset [from] up to
    offset [to], the first of them a delta against [last_key]. *)
Definition DecodeRegion (block : bytes) (from to : Z) (last_key : bytes)
  : option (list (bytes * bytes)) :=
  if from <=? to then
    let p := firstn (Z.to_nat (to - from)) (skipn (Z.to_nat from) block) in
    DecodeEntries (length p) p last_key
  else None.

(** The entries from offset [from] on, stretch by stretch: those up to
    the next restart point continue from [last_key]; at every restart
    point decoding starts afresh from the empty key at the recorded
    offset; the last stretch ends at [limit], where the restart array
    begins. *)
Fixpoint DecodeRegions (block : bytes) (from : Z) (last_key : bytes)
    (restarts : list Z) (limit : Z) : option (list (list (bytes * bytes))) :=
  match restarts with
  | [] => kvs ← DecodeRegion block from limit last_key; Some [kvs]
  | r :: restarts' =>
      kvs ← DecodeRegion block from r last_key;
      more ← DecodeRegions block r [] restarts' limit;
      Some (kvs :: more)
  end.

(** The entries of a block, one list for every restart point of the
    trailer: those that stand between it and the next one.  A block is
    read from its first restart point; one without restart points reads
    as empty. *)
Definition DecodeGroups (block : bytes)
  : option (list (list (bytes * bytes))) :=
  off ← restart_offset block;
  restarts ← RestartArray block;
  match restarts with
  | [] => Some []
  | r :: restarts' => DecodeRegions block r [] restarts' off
  end.

Definition DecodeBlock (block : bytes) : option (list (bytes * bytes)) :=
  groups ← DecodeGroups block;
  Some (concat groups).

(** The pairs as the restart points divide them: [counter] pairs are in
    the current group already, and a group is closed once it has
    [interval] pairs and another pair comes. *)
Definition cons_first {A} (x : A) (groups : list (list A)) : list (list A) :=
  match groups with
  | g :: groups' => (x :: g) :: groups'
  | [] => [[x]]
  end.

Fixpoint groups_from {A} (interval counter : Z) (l : list A)
  : list (list A) :=
  match l with
  | [] => [[]]
  | x :: l' =>
      if counter <? interval
      then cons_first x (groups_from interval (counter + 1) l')
      else [] :: cons_first x (groups_from interval 1 l')
  end.

(** Groups of [interval] pairs each, the last one with what is left. *)
Definition groups {A} (interval : Z) (l : list A) : list (list A) :=
  groups_from interval 0 l.

(** Strictly ascending keys, as [Add] requires of its callers. *)
Fixpoint ascending (cmp : Comparator) (kvs : list (bytes * bytes)) : Prop :=
  match kvs with
  | [] => True
  | (k1, _) :: kvs' =>
      match kvs' with
      | [] => True
      | (k2, _) :: _ => Compare cmp k2 k1 > 0 /\ ascending cmp kvs'
      end
  end.

(** *** Round trip *)

Lemma shared_prefix_bounds (l k : bytes) :
  0 <= shared_prefix l k /\ shared_prefix l k <= size l
  /\ shared_prefix l k <= size k.
Proof.
  revert k. induction l as [|x l IH]; intros [|y k]; cbn [shared_prefix];
    unfold size in *; cbn [length]; try lia.
  destruct (Byte.eqb x y); [|lia].
  specialize (IH k). lia.
Qed.

Lemma shared_prefix_firstn (l k : bytes) :
  firstn (Z.to_nat (shared_prefix l k)) l
  = firstn (Z.to_nat (shared_prefix l k)) k.
Proof.
  revert k. induction l as [|x l IH]; intros [|y k]; cbn [shared_prefix];
    try reflexivity.
  destruct (Byte.eqb x y) eqn:E; [|reflexivity].
  apply Byte.byte_dec_bl in E. subst y.
  pose proof (shared_prefix_bounds l k) as Hb.
  replace (Z.to_nat (1 + shared_prefix l k))
    with (S (Z.to_nat (shared_prefix l k))) by lia.
  cbn [firstn]. f_equal. apply IH.
Qed.

(** The bytes [Add] appends for one entry. *)
Definition Entry (shared : Z) (key value : bytes) : bytes :=
  EncodeVarint 4 (u32 shared)
  ++ EncodeVarint 4 (u32 (size key - shared))
  ++ EncodeVarint 4 (u32 (size value))
  ++ skipn (Z.to_nat shared) key ++ value.

Lemma bytes_eqb_refl (a : bytes) : bytes_eqb a a = true.
Proof. unfold bytes_eqb. destruct (List.list_eq_dec _ a a); congruence. Qed.

Lemma size_nonneg {A} (l : list A) : 0 <= size l.
Proof. unfold size. lia. Qed.

Lemma size_app {A} (l1 l2 : list A) : size (l1 ++ l2) = size l1 + size l2.
Proof. unfold size. rewrite length_app. lia. Qed.

Lemma entry_tail (buf last key value : bytes) (shared : Z) :
  0 <= shared <= size last -> shared <= size key ->
  firstn (Z.to_nat shared) last = firstn (Z.to_nat shared) key ->
  size key < 2 ^ 32 ->
  u64 (size key - shared) = size key - shared
  /\ append_from (resize last shared) key shared (size key - shared) = key
  /\ append_from
       (PutVarint32 (PutVarint32 (PutVarint32 buf shared) (size key - shared))
          (size value))
       key shared (size key - shared) ++ value
     = buf ++ Entry shared key value.
Proof.
  intros Hs Hk Hp Hsz.
  assert (Hdelta : firstn (Z.to_nat (size key - shared))
                     (skipn (Z.to_nat shared) key)
                   = skipn (Z.to_nat shared) key).
  { apply firstn_all2. rewrite length_skipn. unfold size. lia. }
  split; [|split].
  - unfold u64. apply Z.mod_small.
    assert (2 ^ 32 < 2 ^ 64) by reflexivity. lia.
  - unfold append_from, resize.
    replace (Z.to_nat shared - length last)%nat with 0%nat
      by (unfold size in *; lia).
    cbn [repeat]. rewrite app_nil_r, Hp, Hdelta.
    apply firstn_skipn.
  - unfold PutVarint32, append_from, Entry. rewrite Hdelta.
    rewrite <- !app_assoc. reflexivity.
Qed.

(** The number of bytes [Add] shares with the previous key: the common
    prefix, or nothing at a restart point. *)
Definition shared_bytes (options : Options) (b : t) (key : bytes) : Z :=
  if counter_ b <? block_restart_interval options
  then shared_prefix (last_key_ b) key else 0.

Lemma shared_bytes_spec options (b : t) (key : bytes) :
  let shared := shared_bytes options b key in
  0 <= shared <= size (last_key_ b)
  /\ shared <= size key
  /\ firstn (Z.to_nat shared) (last_key_ b) = firstn (Z.to_nat shared) key.
Proof.
  unfold shared_bytes.
  pose proof (shared_prefix_bounds (last_key_ b) key) as Hb.
  pose proof (shared_prefix_firstn (last_key_ b) key) as Hf.
  pose proof (size_nonneg key) as Hk.
  pose proof (size_nonneg (last_key_ b)) as Hl.
  destruct (counter_ b <? block_restart_interval options); cbn zeta.
  - repeat split; try lia. exact Hf.
  - repeat split; lia.
Qed.

Lemma Add_eq options (b : t) (key value : bytes) :
  finished_ b = false ->
  counter_ b <= block_restart_interval options ->
  (empty b = true \/ Compare (comparator options) key (last_key_ b) > 0) ->
  size key < 2 ^ 32 ->
  Add options b key value =
  Some {| buffer_ := buffer_ b ++ Entry (shared_bytes options b key) key value;
          restarts_ :=
            if counter_ b <? block_restart_interval options
            then restarts_ b
            else restarts_ b ++ [u32 (size (buffer_ b))];
          counter_ :=
            (if counter_ b <? block_restart_interval options
             then counter_ b else 0) + 1;
          finished_ := false;
          last_key_ := key |}.
Proof.
  intros Hfin Hcnt Hord Hsz.
  destruct (shared_bytes_spec options b key) as (Hs & Hsk & Hp).
  assert (Ho : empty b
               || (Compare (comparator options) key (last_key_ b) >? 0) = true).
  { destruct Hord as [->|Hgt]; [reflexivity|].
    apply orb_true_iff. right. apply Z.gtb_lt. lia. }
  assert (Hc : (counter_ b <=? block_restart_interval options) = true)
    by (apply Z.leb_le; lia).
  destruct (entry_tail (buffer_ b) (last_key_ b) key value
              (shared_bytes options b key) Hs Hsk Hp Hsz)
    as (Hns & Hlast & Hbuf).
  unfold Add. rewrite Hfin, Hc, Ho. cbn [negb assert mbind option_bind].
  unfold shared_bytes in *.
  destruct (counter_ b <? block_restart_interval options) eqn:Ec;
    cbn beta iota zeta; rewrite Hns, Hlast, Hbuf, bytes_eqb_refl;
    reflexivity.
Qed.

Lemma Add_spec options (b : t) (key value : bytes) :
  finished_ b = false ->
  counter_ b <= block_restart_interval options ->
  (empty b = true \/ Compare (comparator options) key (last_key_ b) > 0) ->
  size key < 2 ^ 32 ->
  exists shared,
    0 <= shared <= size (last_key_ b)
    /\ shared <= size key
    /\ firstn (Z.to_nat shared) (last_key_ b) = firstn (Z.to_nat shared) key
    /\ Add options b key value =
       Some {| buffer_ := buffer_ b ++ Entry shared key value;
               restarts_ :=
                 if counter_ b <? block_restart_interval options
                 then restarts_ b
                 else restarts_ b ++ [u32 (size (buffer_ b))];
               counter_ :=
                 (if counter_ b <? block_restart_interval options
                  then counter_ b else 0) + 1;
               finished_ := false;
               last_key_ := key |}.
Proof.
  intros Hfin Hcnt Hord Hsz. exists (shared_bytes options b key).
  destruct (shared_bytes_spec options b key) as (Hs & Hsk & Hp).
  repeat split; try lia; try exact Hp.
  apply Add_eq; assumption.
Qed.

Lemma Entry_length shared key value :
  (3 <= length (Entry shared key value))%nat.
Proof.
  unfold Entry. rewrite !length_app.
  pose proof (EncodeVarint_nonempty 4 (u32 shared)).
  pose proof (EncodeVarint_nonempty 4 (u32 (size key - shared))).
  pose proof (EncodeVarint_nonempty 4 (u32 (size value))).
  destruct (EncodeVarint 4 (u32 shared)); [congruence|].
  destruct (EncodeVarint 4 (u32 (size key - shared))); [congruence|].
  destruct (EncodeVarint 4 (u32 (size value))); [congruence|].
  cbn [length]. lia.
Qed.

Lemma DecodeEntry_Entry (last key value rest : bytes) (shared : Z) :
  0 <= shared <= size last -> shared <= size key ->
  firstn (Z.to_nat shared) last = firstn (Z.to_nat shared) key ->
  size key < 2 ^ 32 -> size value < 2 ^ 32 ->
  DecodeEntry (Entry shared key value ++ rest) last = Some (key, value, rest).
Proof.
  intros Hs Hk Hp Hsz Hvz.
  pose proof (size_nonneg value) as Hv0.
  unfold DecodeEntry, Entry. rewrite <- !app_assoc.
  rewrite GetVarint32_PutVarint32 by lia. cbn [mbind option_bind].
  rewrite GetVarint32_PutVarint32 by lia. cbn [mbind option_bind].
  rewrite GetVarint32_PutVarint32 by lia. cbn [mbind option_bind].
  assert (Hd : length (skipn (Z.to_nat shared) key)
               = Z.to_nat (size key - shared)).
  { rewrite length_skipn. unfold size. lia. }
  assert (Hle : (shared <=? size last)
                && (size key - shared + size value
                    <=? size (skipn (Z.to_nat shared) key ++ value ++ rest))
                = true).
  { apply andb_true_iff. split; apply Z.leb_le; [lia|].
    rewrite !size_app. unfold size at 3. rewrite Hd.
    pose proof (size_nonneg rest). lia. }
  rewrite Hle.
  rewrite <- Hd.
  rewrite firstn_app, Nat.sub_diag, firstn_all, firstn_O, app_nil_r.
  rewrite skipn_app, Nat.sub_diag, skipn_all, skipn_O. cbn [app].
  replace (Z.to_nat (size value)) with (length value) by (unfold size; lia).
  rewrite firstn_app, Nat.sub_diag, firstn_all, firstn_O, app_nil_r.
  rewrite skipn_app, Nat.sub_diag, skipn_all, skipn_O. cbn [app].
  rewrite Hp, firstn_skipn. reflexivity.
Qed.

Lemma DecodeEntries_Entry fuel (last key value rest : bytes) (shared : Z) :
  0 <= shared <= size last -> shared <= size key ->
  firstn (Z.to_nat shared) last = firstn (Z.to_nat shared) key ->
  size key < 2 ^ 32 -> size value < 2 ^ 32 ->
  DecodeEntries (S fuel) (Entry shared key value ++ rest) last
  = kvs ← DecodeEntries fuel rest key; Some ((key, value) :: kvs).
Proof.
  intros Hs Hk Hp Hsz Hvz.
  pose proof (Entry_length shared key value) as Hlen.
  pose proof (DecodeEntry_Entry last key value rest shared Hs Hk Hp Hsz Hvz)
    as Hd.
  destruct (Entry shared key value) as [|x e]; [cbn in Hlen; lia|].
  cbn [DecodeEntries app] in *. rewrite Hd. reflexivity.
Qed.

Lemma Entry_size_bound shared key value :
  0 <= shared <= size key ->
  size (Entry shared key value) <= 15 + (size key - shared) + size value.
Proof.
  intros Hs. unfold Entry. rewrite !size_app. unfold size in *.
  rewrite length_skipn.
  pose proof (EncodeVarint_length 4 (u32 shared)).
  pose proof (EncodeVarint_length 4 (u32 (Z.of_nat (length key) - shared))).
  pose proof (EncodeVarint_length 4 (u32 (Z.of_nat (length value)))).
  lia.
Qed.

Lemma empty_after_Entry (b : t) buf shared key value :
  buffer_ b = buf ++ Entry shared key value -> empty b = false.
Proof.
  intros Hb. unfold empty. rewrite Hb.
  pose proof (Entry_length shared key value) as Hl.
  destruct (buf ++ Entry shared key value) eqn:E; [|reflexivity].
  apply (f_equal (@length byte)) in E. rewrite length_app in E.
  cbn [length] in E. lia.
Qed.


(** What [Add] needs of the next key: the block is still empty, or the key
    sorts after the last one added. *)
Definition first_key_ok (cmp : Comparator) (b : t)
    (kvs : list (bytes * bytes)) : Prop :=
  match kvs with
  | [] => True
  | (k, _) :: _ => empty b = true \/ Compare cmp k (last_key_ b) > 0
  end.

Definition sizes_ok (kvs : list (bytes * bytes)) : Prop :=
  Forall (fun kv => size (fst kv) < 2 ^ 32 /\ size (snd kv) < 2 ^ 32) kvs.

Lemma AddAll_spec options :
  1 <= block_restart_interval options ->
  forall kvs b,
    finished_ b = false ->
    counter_ b <= block_restart_interval options ->
    first_key_ok (comparator options) b kvs ->
    ascending (comparator options) kvs ->
    sizes_ok kvs ->
    exists b' enc,
      AddAll options b kvs = Some b'
      /\ buffer_ b' = buffer_ b ++ enc
      /\ finished_ b' = false
      /\ (length (restarts_ b') <= length (restarts_ b) + length kvs)%nat
      /\ forall fuel, (length enc <= fuel)%nat ->
           DecodeEntries fuel enc (last_key_ b) = Some kvs.
Proof.
  intros Hint kvs. induction kvs as [|[k v] kvs IH]; intros b Hfin Hcnt Hfirst Hasc Hsz.
  - exists b, []. cbn. rewrite app_nil_r.
    repeat split; try lia; try assumption.
    intros fuel _. destruct fuel; reflexivity.
  - inversion Hsz as [|? ? [Hk Hv] Hsz']; subst. cbn [fst snd] in *.
    destruct (Add_spec options b k v Hfin Hcnt Hfirst Hk)
      as (shared & Hs & Hsk & Hp & HAdd).
    set (b1 := {| buffer_ := buffer_ b ++ Entry shared k v;
                  restarts_ := _; counter_ := _; finished_ := false;
                  last_key_ := k |}) in HAdd.
    destruct (IH b1) as (b' & enc & HAll & Hbuf & Hfin' & Hres & Hdec).
    + reflexivity.
    + subst b1. cbn [counter_].
      destruct (Z.ltb_spec (counter_ b) (block_restart_interval options)); lia.
    + destruct kvs as [|[k2 v2] kvs']; [exact I|].
      right. cbn [last_key_ b1]. cbn in Hasc. tauto.
    + destruct kvs as [|[k2 v2] kvs']; [exact I|]. cbn in Hasc. tauto.
    + exact Hsz'.
    + exists b', (Entry shared k v ++ enc).
      cbn [AddAll]. rewrite HAdd. cbn [mbind option_bind].
      split; [exact HAll|]. split.
      { rewrite Hbuf. subst b1. cbn [buffer_]. rewrite <- app_assoc. reflexivity. }
      split; [exact Hfin'|]. split.
      { subst b1. cbn [restarts_] in Hres.
        destruct (counter_ b <? block_restart_interval options);
          [|rewrite length_app in Hres]; cbn [length] in *; lia. }
      intros fuel Hfuel. rewrite length_app in Hfuel.
      pose proof (Entry_length shared k v) as Hlen.
      destruct fuel as [|fuel]; [lia|].
      rewrite DecodeEntries_Entry by assumption.
      change (last_key_ b1) with k in Hdec.
      rewrite (Hdec fuel) by lia. reflexivity.
Qed.

(** A whole block: construct the builder, add the pairs, finish. *)
Definition BuildBlock (options : Options) (kvs : list (bytes * bytes))
  : option bytes :=
  b0 ← create options;
  b ← AddAll options b0 kvs;
  Some (fst (Finish b)).

Lemma fold_left_PutFixed32 (rs : list Z) (buf : bytes) :
  exists trailer,
    fold_left PutFixed32 rs buf = buf ++ trailer
    /\ length trailer = (4 * length rs)%nat.
Proof.
  revert buf. induction rs as [|r rs IH]; intros buf; cbn [fold_left].
  - exists []. rewrite app_nil_r. split; reflexivity.
  - destruct (IH (PutFixed32 buf r)) as (tr & -> & Hlen).
    exists (EncodeFixed32 (u32 r) ++ tr). unfold PutFixed32.
    rewrite <- app_assoc. split; [reflexivity|].
    rewrite length_app, Hlen. cbn [length EncodeFixed32]. lia.
Qed.

Lemma Finish_layout (b : t) :
  size (restarts_ b) < 2 ^ 32 ->
  restart_offset (fst (Finish b)) = Some (size (buffer_ b))
  /\ firstn (length (buffer_ b)) (fst (Finish b)) = buffer_ b.
Proof.
  intros Hn. unfold Finish. cbn [fst].
  destruct (fold_left_PutFixed32 (restarts_ b) (buffer_ b)) as (tr & -> & Hlen).
  unfold PutFixed32. rewrite <- app_assoc.
  set (w := EncodeFixed32 (u32 (size (restarts_ b)))).
  assert (Hw : length w = 4%nat) by reflexivity.
  split.
  - unfold restart_offset, NumRestarts.
    rewrite !length_app, Hw.
    replace (length (buffer_ b) + (length tr + 4) - 4)%nat
      with (length (buffer_ b ++ tr)) by (rewrite length_app; lia).
    rewrite app_assoc, skipn_app, Nat.sub_diag, skipn_all, skipn_O.
    cbn [app]. subst w.
    pose proof (size_nonneg (restarts_ b)) as H0.
    rewrite <- (app_nil_r (EncodeFixed32 _)).
    unfold u32. rewrite Z.mod_small by lia.
    rewrite DecodeFixed32_EncodeFixed32 by lia.
    cbn [mbind option_bind].
    rewrite app_nil_r, !size_app.
    assert (Ht : size tr = 4 * size (restarts_ b)) by (unfold size; lia).
    assert (Hw' : size (EncodeFixed32 (size (restarts_ b))) = 4) by reflexivity.
    rewrite Ht, Hw'.
    pose proof (size_nonneg (buffer_ b)) as Hb0.
    replace (size (buffer_ b) + 4 * size (restarts_ b) + 4
             - (1 + size (restarts_ b)) * 4) with (size (buffer_ b)) by lia.
    destruct (Z.leb_spec 4 (size (buffer_ b) + 4 * size (restarts_ b) + 4));
      [|lia].
    destruct (Z.leb_spec 0 (size (buffer_ b))); [|lia].
    reflexivity.
  - rewrite firstn_app, Nat.sub_diag, firstn_all, firstn_O, app_nil_r.
    reflexivity.
Qed.

Lemma DecodeRestarts_fold_left (rs : list Z) (buf rest : bytes) :
  Forall (fun r => 0 <= r < 2 ^ 32) rs ->
  exists enc,
    fold_left PutFixed32 rs buf = buf ++ enc
    /\ length enc = (4 * length rs)%nat
    /\ DecodeRestarts (length rs) (enc ++ rest) = Some rs.
Proof.
  revert buf. induction rs as [|r rs IH]; intros buf Hrs; cbn [fold_left].
  - exists []. by rewrite app_nil_r.
  - apply Forall_cons in Hrs as [Hr Hrs].
    destruct (IH (PutFixed32 buf r) Hrs) as (enc & -> & Hlen & Hdec).
    exists (EncodeFixed32 (u32 r) ++ enc). unfold PutFixed32.
    rewrite <- app_assoc. split; [done|]. split.
    { rewrite length_app, Hlen. cbn [length EncodeFixed32]. lia. }
    cbn [length DecodeRestarts]. rewrite <- app_assoc.
    unfold u32. rewrite Z.mod_small by lia.
    rewrite DecodeFixed32_EncodeFixed32 by lia. cbn [mbind option_bind].
    change (skipn 4 (EncodeFixed32 r ++ enc ++ rest)) with (enc ++ rest).
    by rewrite Hdec.
Qed.

Lemma Finish_RestartArray (b : t) :
  size (restarts_ b) < 2 ^ 32 ->
  Forall (fun r => 0 <= r < 2 ^ 32) (restarts_ b) ->
  RestartArray (fst (Finish b)) = Some (restarts_ b).
Proof.
  intros Hcount Hall.
  destruct (Finish_layout b Hcount) as (Hoff & _).
  unfold RestartArray. rewrite Hoff. cbn [mbind option_bind].
  unfold restart_offset in Hoff.
  destruct (NumRestarts (fst (Finish b))) as [nr|] eqn:Hnr; [|discriminate].
  cbn [mbind option_bind] in *.
  assert (nr = size (restarts_ b)) as ->.
  { destruct ((4 <=? size (fst (Finish b))) && _) eqn:Hc; [|discriminate].
    injection Hoff as Hoff.
    unfold Finish in Hoff. cbn [fst] in Hoff.
    destruct (fold_left_PutFixed32 (restarts_ b) (buffer_ b))
      as (tr & Htr & Hlen).
    rewrite Htr in Hoff. unfold PutFixed32 in Hoff. rewrite !size_app in Hoff.
    change (size (EncodeFixed32 _)) with 4 in Hoff.
    assert (size tr = 4 * size (restarts_ b)) by (unfold size; lia). lia. }
  unfold Finish. cbn [fst].
  destruct (DecodeRestarts_fold_left (restarts_ b) (buffer_ b)
              (EncodeFixed32 (u32 (size (restarts_ b)))) Hall)
    as (enc & -> & Hlen & Hdec).
  unfold PutFixed32. rewrite <- app_assoc.
  replace (Z.to_nat (size (buffer_ b))) with (length (buffer_ b))
    by (unfold size; lia).
  rewrite skipn_app, Nat.sub_diag, skipn_all, skipn_O. cbn [app].
  replace (Z.to_nat (size (restarts_ b))) with (length (restarts_ b))
    by (unfold size; lia).
  exact Hdec.
Qed.

(** More fuel does not change what the entry decoder returns. *)
Lemma DecodeEntries_fuel (n m : nat) (p last : bytes) kvs :
  DecodeEntries n p last = Some kvs -> (n <= m)%nat ->
  DecodeEntries m p last = Some kvs.
Proof.
  revert m p last kvs. induction n as [|n IH]; intros m p last kvs.
  - destruct p; [by destruct m | discriminate].
  - destruct p as [|x p]; [by destruct m|].
    intros Hdec Hle. destruct m as [|m]; [lia|].
    cbn [DecodeEntries] in *.
    destruct (DecodeEntry (x :: p) last) as [[[key value] rest]|];
      [|discriminate].
    cbn [mbind option_bind] in *.
    destruct (DecodeEntries n rest key) as [kvs'|] eqn:Hrest; [|discriminate].
    rewrite (IH m rest key kvs' Hrest) by lia. exact Hdec.
Qed.

(** A stretch that begins with an entry decodes to that entry followed by
    what the stretch behind it decodes to. *)
Lemma DecodeRegion_Entry (pre rest last key value : bytes) (shared to : Z) kvs :
  0 <= shared <= size last -> shared <= size key ->
  firstn (Z.to_nat shared) last = firstn (Z.to_nat shared) key ->
  size key < 2 ^ 32 -> size value < 2 ^ 32 ->
  DecodeRegion (pre ++ Entry shared key value ++ rest)
    (size pre + size (Entry shared key value)) to key = Some kvs ->
  DecodeRegion (pre ++ Entry shared key value ++ rest) (size pre) to last
  = Some ((key, value) :: kvs).
Proof.
  intros Hs Hk Hp Hsz Hvz. unfold DecodeRegion.
  set (e := Entry shared key value).
  pose proof (Entry_length shared key value) as He. fold e in He.
  destruct (Z.leb_spec (size pre + size e) to) as [Hto|]; [|discriminate].
  destruct (Z.leb_spec (size pre) to) as [_|]; [|unfold size in *; lia].
  replace (Z.to_nat (size pre + size e)) with (length (pre ++ e))
    by (rewrite length_app; unfold size; lia).
  rewrite (app_assoc pre e rest), skipn_app, Nat.sub_diag, skipn_all, skipn_O.
  cbn [app]. rewrite <- (app_assoc pre e rest).
  replace (Z.to_nat (size pre)) with (length pre) by (unfold size; lia).
  rewrite skipn_app, Nat.sub_diag, skipn_all, skipn_O. cbn [app].
  rewrite firstn_app.
  rewrite (firstn_all2 e) by (unfold size in *; lia).
  replace (Z.to_nat (to - size pre) - length e)%nat
    with (Z.to_nat (to - (size pre + size e))) by (unfold size in *; lia).
  set (p1 := firstn _ rest). intros Hdec.
  rewrite length_app.
  replace (length e + length p1)%nat with (S (length e + length p1 - 1))
    by lia.
  subst e. rewrite DecodeEntries_Entry by assumption.
  rewrite (DecodeEntries_fuel _ _ _ _ _ Hdec) by lia. reflexivity.
Qed.

Lemma DecodeRegions_Entry (pre rest last key value : bytes) (shared : Z)
    (rs : list Z) (limit : Z) gs :
  0 <= shared <= size last -> shared <= size key ->
  firstn (Z.to_nat shared) last = firstn (Z.to_nat shared) key ->
  size key < 2 ^ 32 -> size value < 2 ^ 32 ->
  DecodeRegions (pre ++ Entry shared key value ++ rest)
    (size pre + size (Entry shared key value)) key rs limit = Some gs ->
  DecodeRegions (pre ++ Entry shared key value ++ rest) (size pre) last
    rs limit = Some (cons_first (key, value) gs).
Proof.
  intros Hs Hk Hp Hsz Hvz.
  destruct rs as [|r rs]; cbn [DecodeRegions].
  - destruct (DecodeRegion _ (size pre + _) limit key) as [kvs0|] eqn:H0;
      [|discriminate].
    cbn [mbind option_bind].
    rewrite (DecodeRegion_Entry _ _ _ _ _ _ _ _ Hs Hk Hp Hsz Hvz H0).
    cbn [mbind option_bind]. by intros [= <-].
  - destruct (DecodeRegion _ (size pre + _) r key) as [kvs0|] eqn:H0;
      [|discriminate].
    cbn [mbind option_bind].
    rewrite (DecodeRegion_Entry _ _ _ _ _ _ _ _ Hs Hk Hp Hsz Hvz H0).
    cbn [mbind option_bind].
    destruct (DecodeRegions _ r [] rs limit) as [more|]; [|discriminate].
    cbn [mbind option_bind]. by intros [= <-].
Qed.

Lemma concat_cons_first {A} (x : A) (gs : list (list A)) :
  concat (cons_first x gs) = x :: concat gs.
Proof. by destruct gs. Qed.

Lemma concat_groups_from {A} (interval counter : Z) (l : list A) :
  concat (groups_from interval counter l) = l.
Proof.
  revert counter. induction l as [|x l IH]; intros counter; [done|].
  cbn [groups_from].
  destruct (counter <? interval); cbn [concat app];
    by rewrite concat_cons_first, IH.
Qed.

Lemma DecodeRegion_nothing (block : bytes) (from : Z) (last : bytes) :
  DecodeRegion block from from last = Some [].
Proof.
  unfold DecodeRegion. rewrite Z.leb_refl, Z.sub_diag. reflexivity.
Qed.

(** What a run of [Add] calls leaves in the buffer and the restart list:
    read restart point by restart point, the new bytes give back the
    pairs. *)
Lemma AddAll_regions options :
  1 <= block_restart_interval options ->
  forall kvs b b',
    finished_ b = false ->
    counter_ b <= block_restart_interval options ->
    first_key_ok (comparator options) b kvs ->
    ascending (comparator options) kvs ->
    sizes_ok kvs ->
    AddAll options b kvs = Some b' ->
    size (buffer_ b') < 2 ^ 32 ->
    exists enc rs,
      buffer_ b' = buffer_ b ++ enc
      /\ restarts_ b' = restarts_ b ++ rs
      /\ Forall (fun r => 0 <= r < 2 ^ 32) rs
      /\ forall tail,
           DecodeRegions (buffer_ b' ++ tail) (size (buffer_ b)) (last_key_ b)
             rs (size (buffer_ b'))
           = Some (groups_from (block_restart_interval options) (counter_ b)
                     kvs).
Proof.
  intros Hint kvs.
  induction kvs as [|[k v] kvs IH];
    intros b b' Hfin Hcnt Hfirst Hasc Hsz Hrun Hfit.
  - cbn [AddAll] in Hrun. injection Hrun as <-.
    exists [], []. rewrite !app_nil_r.
    split; [done|]. split; [done|]. split; [done|].
    intros tail. cbn [DecodeRegions groups_from].
    by rewrite DecodeRegion_nothing.
  - inversion Hsz as [|? ? [Hk Hv] Hsz']; subst. cbn [fst snd] in *.
    pose proof (Add_eq options b k v Hfin Hcnt Hfirst Hk) as HAdd.
    destruct (shared_bytes_spec options b k) as (Hs & Hsk & Hp).
    set (shared := shared_bytes options b k) in *.
    set (b1 := {| buffer_ := buffer_ b ++ Entry shared k v;
                  restarts_ := _; counter_ := _; finished_ := false;
                  last_key_ := k |}) in HAdd.
    cbn [AddAll] in Hrun. rewrite HAdd in Hrun. cbn [mbind option_bind] in Hrun.
    destruct (IH b1 b') as (enc & rs & Hbuf & Hres & Hall & Hdec);
      [reflexivity | | | | exact Hsz' | exact Hrun | exact Hfit |].
    + subst b1. cbn [counter_].
      destruct (Z.ltb_spec (counter_ b) (block_restart_interval options)); lia.
    + destruct kvs as [|[k2 v2] kvs']; [exact I|].
      right. cbn [last_key_ b1]. cbn in Hasc. tauto.
    + destruct kvs as [|[k2 v2] kvs']; [exact I|]. cbn in Hasc. tauto.
    + cbn [buffer_ restarts_ last_key_ b1] in Hbuf, Hres, Hdec.
      rewrite <- app_assoc in Hbuf.
      assert (Hsize : size (buffer_ b) <= size (buffer_ b')).
      { rewrite Hbuf, size_app. pose proof (size_nonneg (Entry shared k v ++ enc)).
        lia. }
      pose proof (size_nonneg (buffer_ b)) as Hb0.
      exists (Entry shared k v ++ enc).
      set (limit := size (buffer_ b')) in *.
      destruct (Z.ltb_spec (counter_ b) (block_restart_interval options))
        as [Hlt|Hge].
      * exists rs. split; [done|]. split; [done|]. split; [done|].
        intros tail. specialize (Hdec tail).
        rewrite size_app in Hdec. rewrite Hbuf in Hdec |- *.
        rewrite <- !app_assoc in Hdec |- *.
        cbn [groups_from].
        destruct (Z.ltb_spec (counter_ b) (block_restart_interval options));
          [|lia].
        by apply DecodeRegions_Entry.
      * assert (Hu : u32 (size (buffer_ b)) = size (buffer_ b)).
        { unfold u32. apply Z.mod_small. lia. }
        rewrite Hu in Hres.
        exists (size (buffer_ b) :: rs). split; [done|].
        split; [by rewrite Hres, <- app_assoc|].
        split; [constructor; [lia | done]|].
        intros tail. specialize (Hdec tail).
        cbn [DecodeRegions groups_from]. rewrite DecodeRegion_nothing.
        cbn [mbind option_bind].
        destruct (Z.ltb_spec (counter_ b) (block_restart_interval options));
          [lia|].
        assert (Hshared : shared = 0).
        { subst shared. unfold shared_bytes.
          destruct (Z.ltb_spec (counter_ b) (block_restart_interval options));
            [lia | done]. }
        rewrite Hshared in *.
        rewrite size_app in Hdec. rewrite Hbuf in Hdec |- *.
        rewrite <- !app_assoc in Hdec |- *.
        rewrite (DecodeRegions_Entry _ _ [] _ _ 0 _ _ _ ltac:(done)
                   (size_nonneg k) eq_refl Hk Hv Hdec).
        reflexivity.
Qed.

(** The block that [Finish] returns is the buffer followed by the restart
    offsets and their number. *)
Lemma Finish_bytes (b : t) :
  exists tail,
    fst (Finish b) = buffer_ b ++ tail
    /\ size tail = 4 * size (restarts_ b) + 4.
Proof.
  unfold Finish. cbn [fst].
  destruct (fold_left_PutFixed32 (restarts_ b) (buffer_ b)) as (tr & -> & Hlen).
  unfold PutFixed32. rewrite <- app_assoc. eexists. split; [reflexivity|].
  rewrite size_app. change (size (EncodeFixed32 _)) with 4.
  unfold size. lia.
Qed.

Lemma BuildBlock_DecodeGroups options (kvs : list (bytes * bytes)) :
  1 <= block_restart_interval options ->
  ascending (comparator options) kvs ->
  sizes_ok kvs ->
  (forall block, BuildBlock options kvs = Some block -> size block < 2 ^ 32) ->
  exists block,
    BuildBlock options kvs = Some block
    /\ DecodeGroups block = Some (groups (block_restart_interval options) kvs).
Proof.
  intros Hint Hasc Hsz Hfit. revert Hfit.
  unfold BuildBlock, create.
  assert (Hi : (block_restart_interval options >=? 1) = true)
    by (apply Z.geb_le; lia).
  rewrite Hi. cbn [assert mbind option_bind].
  set (b0 := {| buffer_ := []; restarts_ := [0]; counter_ := 0;
                finished_ := false; last_key_ := [] |}).
  assert (Hfirst : first_key_ok (comparator options) b0 kvs).
  { destruct kvs as [|[k v] kvs]; [exact I|]. left. reflexivity. }
  destruct (AddAll_spec options Hint kvs b0)
    as (b & enc0 & HAll & _); try assumption; try reflexivity.
  { cbn. lia. }
  rewrite HAll. cbn [mbind option_bind]. intros Hfit.
  specialize (Hfit _ eq_refl).
  eexists. split; [reflexivity|].
  destruct (Finish_bytes b) as (tail & Hblock & Htail).
  rewrite Hblock, size_app, Htail in Hfit.
  pose proof (size_nonneg (buffer_ b)) as Hb0.
  pose proof (size_nonneg (restarts_ b)) as Hr0.
  destruct (AddAll_regions options Hint kvs b0 b)
    as (enc & rs & _ & Hres & Hall & Hdec); try assumption; try reflexivity.
  { cbn. lia. }
  { lia. }
  cbn [restarts_ buffer_ last_key_ b0 app] in Hres, Hdec.
  assert (Hcount : size (restarts_ b) < 2 ^ 32) by lia.
  destruct (Finish_layout b Hcount) as (Hoff & _).
  unfold DecodeGroups. rewrite Hoff. cbn [mbind option_bind].
  rewrite Finish_RestartArray; [|done|].
  - cbn [mbind option_bind]. rewrite Hres, Hblock. apply Hdec.
  - rewrite Hres. constructor; [lia | done].
Qed.

Lemma BuildBlock_DecodeBlock options (kvs : list (bytes * bytes)) :
  1 <= block_restart_interval options ->
  ascending (comparator options) kvs ->
  sizes_ok kvs ->
  (forall block, BuildBlock options kvs = Some block -> size block < 2 ^ 32) ->
  exists block,
    BuildBlock options kvs = Some block /\ DecodeBlock block = Some kvs.
Proof.
  intros Hint Hasc Hsz Hfit.
  destruct (BuildBlock_DecodeGroups options kvs Hint Hasc Hsz Hfit)
    as (block & Hb & Hg).
  exists block. split; [done|]. unfold DecodeBlock. rewrite Hg.
  cbn [mbind option_bind]. unfold groups. by rewrite concat_groups_from.
Qed.

(** C2, amended.  Block round trip.  For pairs with strictly ascending
    keys, each key and each value shorter than 2^32 bytes, fed to [Add],
    the block returned by [Finish], when it is smaller than 2^32 bytes,
    decodes by the documented entry format and the restart-array trailer
    to exactly the pairs that were added.  The trailer gives one restart
    point for every [block_restart_interval] pairs, and the entries read
    from each restart point up to the next, starting from the empty key,
    are the pairs of that group, in order; all of them together are the
    pairs that were added.  The bounds are those of the format: [Add]
    writes the three lengths of an entry as 32-bit varints and keeps the
    restart offsets as 32-bit values. *)
Theorem block_round_trip options (kvs : list (bytes * bytes)) :
  1 <= block_restart_interval options ->
  ascending (comparator options) kvs ->
  sizes_ok kvs ->
  (forall block, BuildBlock options kvs = Some block -> size block < 2 ^ 32) ->
  exists block,
    BuildBlock options kvs = Some block
    /\ DecodeGroups block = Some (groups (block_restart_interval options) kvs)
    /\ DecodeBlock block = Some kvs.
Proof.
  intros Hint Hasc Hsz Hfit.
  destruct (BuildBlock_DecodeGroups options kvs Hint Hasc Hsz Hfit)
    as (block & Hb & Hg).
  exists block. split; [done|]. split; [done|]. unfold DecodeBlock.
  rewrite Hg. cbn [mbind option_bind]. unfold groups.
  by rewrite concat_groups_from.
Qed.

(** The two entries of the spec's prefix-compression scenario. *)
Lemma block_round_trip_witness :
  exists block,
    BuildBlock default_options
      [(str "helloworld", str "1"); (str "help", str "2")] = Some block
    /\ DecodeGroups block
       = Some (groups (block_restart_interval default_options)
                 [(str "helloworld", str "1"); (str "help", str "2")])
    /\ DecodeBlock block
       = Some [(str "helloworld", str "1"); (str "help", str "2")].
Proof.
  apply (block_round_trip default_options
           [(str "helloworld", str "1"); (str "help", str "2")]).
  - cbn. lia.
  - vm_compute. auto.
  - repeat constructor; vm_compute; reflexivity.
  - intros block [= <-]. vm_compute. reflexivity.
Defined.

(** Five pairs in groups of two. *)
Example groups_of_two :
  groups 2 [1; 2; 3; 4; 5] = [[1; 2]; [3; 4]; [5]]
  /\ groups 2 [1; 2; 3; 4] = [[1; 2]; [3; 4]]
  /\ groups 2 ([] : list Z) = [[]].
Proof. repeat split. Qed.

(** Three entries with a restart point every two: the block has two
    restart points, and reading it from each of them gives the pairs. *)
Example restart_boundary_round_trip :
  let options := mkOptions BytewiseComparator 4096 2 kNoCompression None in
  exists block,
    BuildBlock options
      [(str "a", str "1"); (str "ab", str "2"); (str "ac", str "3")]
    = Some block
    /\ RestartArray block = Some [0; 10]
    /\ DecodeGroups block
       = Some [[(str "a", str "1"); (str "ab", str "2")];
               [(str "ac", str "3")]]
    /\ DecodeBlock block
       = Some [(str "a", str "1"); (str "ab", str "2"); (str "ac", str "3")].
Proof. eexists. repeat split; vm_compute; reflexivity. Qed.

Lemma DecodeEntry_empty_entry (rest : bytes) :
  DecodeEntry (x00 :: x00 :: x00 :: rest) [] = Some ([], [], rest).
Proof.
  unfold DecodeEntry.
  change (GetVarint32 (x00 :: x00 :: x00 :: rest))
    with (Some (0, x00 :: x00 :: rest)).
  cbn [mbind option_bind].
  change (GetVarint32 (x00 :: x00 :: rest)) with (Some (0, x00 :: rest)).
  cbn [mbind option_bind].
  change (GetVarint32 (x00 :: rest)) with (Some (0, rest)).
  cbn [mbind option_bind].
  pose proof (size_nonneg rest) as Hr.
  change (0 <=? size []) with true.
  destruct (Z.leb_spec (0 + 0) (size rest)); [|lia].
  reflexivity.
Qed.

(** A key of exactly 2^32 bytes: [Add] writes its length as a 32-bit
    varint, that is, as 0, and appends all its bytes; the decoder reads an
    entry with an empty key. *)
Lemma long_key_lost (key : bytes) :
  size key = 2 ^ 32 ->
  exists block,
    BuildBlock default_options [(key, [])] = Some block
    /\ DecodeBlock block <> Some [(key, [])].
Proof.
  intros Hk.
  set (b1 := {| buffer_ := [x00; x00; x00] ++ key; restarts_ := [0];
                counter_ := 1; finished_ := false; last_key_ := key |}).
  assert (HAdd : Add default_options
                   {| buffer_ := []; restarts_ := [0]; counter_ := 0;
                      finished_ := false; last_key_ := [] |} key []
                 = Some b1).
  { unfold Add.
    cbn [finished_ counter_ last_key_ buffer_ restarts_ negb assert mbind
         option_bind empty orb default_options block_restart_interval].
    change (0 <=? 16) with true. change (0 <? 16) with true.
    cbn [assert mbind option_bind shared_prefix].
    assert (Hns : u64 (size key - 0) = size key).
    { rewrite Hk. reflexivity. }
    rewrite Hns. unfold PutVarint32, append_from, resize.
    assert (Hw : u32 (size key) = 0) by (rewrite Hk; reflexivity).
    rewrite Hw.
    replace (Z.to_nat (size key)) with (length key) by (unfold size; lia).
    change (Z.to_nat 0) with 0%nat. rewrite !skipn_O.
    cbn [firstn length repeat Nat.sub app].
    rewrite firstn_all, app_nil_r. change (u32 0) with 0. change (u32 (size [])) with 0.
    change (EncodeVarint 4 0) with [x00].
    cbn [app]. rewrite bytes_eqb_refl. reflexivity. }
  exists (fst (Finish b1)). split.
  { unfold BuildBlock, create. cbn [AddAll assert mbind option_bind
      default_options block_restart_interval].
    change (16 >=? 1) with true. cbn [assert mbind option_bind].
    rewrite HAdd. reflexivity. }
  assert (Hcount : size (restarts_ b1) < 2 ^ 32) by reflexivity.
  destruct (Finish_layout b1 Hcount) as (Hoff & Htake).
  unfold DecodeBlock, DecodeGroups. rewrite Hoff. cbn [mbind option_bind].
  rewrite Finish_RestartArray; [|done|by repeat constructor].
  cbn [mbind option_bind restarts_ b1 DecodeRegions]. unfold DecodeRegion.
  pose proof (size_nonneg (buffer_ b1)) as Hb0.
  destruct (Z.leb_spec 0 (size (buffer_ b1))); [|lia].
  rewrite Z.sub_0_r. change (Z.to_nat 0) with 0%nat. rewrite skipn_O.
  replace (Z.to_nat (size (buffer_ b1))) with (length (buffer_ b1))
    by (unfold size; lia).
  rewrite Htake. cbn [buffer_ b1 app length].
  change (DecodeEntries (S ?n) (x00 :: ?p) [])
    with ('(key, value, rest) ← DecodeEntry (x00 :: p) [];
          kvs ← DecodeEntries n rest key; Some ((key, value) :: kvs)).
  rewrite DecodeEntry_empty_entry. cbn [mbind option_bind].
  destruct (DecodeEntries _ key []) as [kvs|];
    cbn [mbind option_bind concat app]; [|discriminate].
  intros [= Hkey _]. rewrite <- Hkey in Hk. discriminate.
Qed.

(** C2, as the spec states it, fails for a key of 2^32 bytes. *)
Lemma block_round_trip_counterexample :
  let key := repeat x00 (Z.to_nat (2 ^ 32)) in
  ascending (comparator default_options) [(key, [])]
  /\ exists block,
       BuildBlock default_options [(key, [])] = Some block
       /\ DecodeBlock block <> Some [(key, [])].
Proof.
  intros key. split; [exact I|]. apply long_key_lost.
  unfold key, size. rewrite repeat_length. apply Z2Nat.id. lia.
Qed.

(** The empty block, and the two-entry block byte for byte: the second
    key shares the three bytes [hel] with the first. *)
Example empty_block_bytes :
  BuildBlock default_options []
  = Some [x00; x00; x00; x00; x01; x00; x00; x00].
Proof. reflexivity. Qed.

Example two_entry_block_bytes :
  BuildBlock default_options
    [(str "helloworld", str "1"); (str "help", str "2")]
  = Some ([x00; x0a; x01] ++ str "helloworld" ++ str "1"
          ++ [x03; x01; x01] ++ str "p" ++ str "2"
          ++ [x00; x00; x00; x00; x01; x00; x00; x00]).
Proof. vm_compute. reflexivity. Qed.

(** *** Size estimate, restart points and refused calls *)

(** [CurrentSizeEstimate] is exact: it is the size of the block [Finish]
    returns next. *)
Theorem CurrentSizeEstimate_exact (b : t) :
  size (buffer_ b) + 4 * size (restarts_ b) + 4 < 2 ^ 64 ->
  size (fst (Finish b)) = CurrentSizeEstimate b.
Proof.
  intros Hfit. unfold Finish, CurrentSizeEstimate. cbn [fst].
  destruct (fold_left_PutFixed32 (restarts_ b) (buffer_ b)) as (tr & -> & Hlen).
  unfold PutFixed32. rewrite !size_app.
  pose proof (size_nonneg (buffer_ b)). pose proof (size_nonneg (restarts_ b)).
  assert (size tr = 4 * size (restarts_ b)) as -> by (unfold size; lia).
  change (size (EncodeFixed32 _)) with 4.
  assert (Hu : forall x, 0 <= x < 2 ^ 64 -> u64 x = x)
    by (intros x Hx; by apply Z.mod_small).
  rewrite (Hu (size (restarts_ b) * 4)) by lia.
  rewrite (Hu (size (buffer_ b) + _)) by lia.
  rewrite Hu by lia. lia.
Qed.

Lemma CurrentSizeEstimate_exact_witness :
  size (fst (Finish {| buffer_ := str "abc"; restarts_ := [0]; counter_ := 1;
                       finished_ := false; last_key_ := str "a" |}))
  = CurrentSizeEstimate
      {| buffer_ := str "abc"; restarts_ := [0]; counter_ := 1;
         finished_ := false; last_key_ := str "a" |}.
Proof. apply CurrentSizeEstimate_exact. vm_compute. reflexivity. Defined.

(** What one [Add] does to the restart array and the counter. *)
Lemma Add_restarts options (b b' : t) (key value : bytes) :
  Add options b key value = Some b' ->
  counter_ b <= block_restart_interval options
  /\ (if counter_ b <? block_restart_interval options
      then restarts_ b' = restarts_ b /\ counter_ b' = counter_ b + 1
      else restarts_ b' = restarts_ b ++ [u32 (size (buffer_ b))]
           /\ counter_ b' = 1)
  /\ last_key_ b' = key /\ buffer_ b' <> [].
Proof.
  unfold Add.
  destruct (negb (finished_ b)); [|discriminate]. cbn [assert mbind option_bind].
  destruct (Z.leb_spec (counter_ b) (block_restart_interval options));
    [|discriminate].
  cbn [assert mbind option_bind].
  destruct (empty b || _); [|discriminate]. cbn [assert mbind option_bind].
  destruct (counter_ b <? block_restart_interval options);
    cbn beta iota zeta;
    match goal with
    | |- context [bytes_eqb ?l ?k] =>
        unfold bytes_eqb; destruct (List.list_eq_dec Byte.byte_eq_dec l k) as [E|];
          [|discriminate]
    end;
    cbn [assert mbind option_bind]; intros [= <-];
    cbn [restarts_ counter_ last_key_ buffer_];
    (split; [lia|]); (split; [by split|]); (split; [done|]);
    unfold PutVarint32, append_from; intros Hnil;
    apply app_eq_nil in Hnil as [Hnil _];
    apply app_eq_nil in Hnil as [Hnil _];
    apply app_eq_nil in Hnil as [_ Hnil];
    by apply EncodeVarint_nonempty in Hnil.
Qed.

Lemma AddAll_app options (b : t) kvs1 kvs2 :
  AddAll options b (kvs1 ++ kvs2)
  = b1 ← AddAll options b kvs1; AddAll options b1 kvs2.
Proof.
  revert b. induction kvs1 as [|[k v] kvs1 IH]; intros b; [done|].
  cbn [app AddAll]. destruct (Add options b k v); [apply IH | done].
Qed.

(** [Add] refuses a key that does not sort after the key added last. *)
Theorem Add_out_of_order_aborts options (b0 b : t) kvs k1 v1 k2 v2 :
  AddAll options b0 (kvs ++ [(k1, v1)]) = Some b ->
  Compare (comparator options) k2 k1 <= 0 ->
  Add options b k2 v2 = None.
Proof.
  rewrite AddAll_app. intros Hrun Hcmp.
  destruct (AddAll options b0 kvs) as [b1|]; [|discriminate].
  cbn [mbind option_bind AddAll] in Hrun.
  destruct (Add options b1 k1 v1) as [b2|] eqn:Hadd; [|discriminate].
  cbn [mbind option_bind] in Hrun. injection Hrun as ->.
  destruct (Add_restarts _ _ _ _ _ Hadd) as (_ & _ & Hlast & Hbuf).
  unfold Add. destruct (negb (finished_ b)); [|done].
  cbn [assert mbind option_bind].
  destruct (counter_ b <=? block_restart_interval options); [|done].
  cbn [assert mbind option_bind].
  assert (empty b = false) as ->.
  { unfold empty. by destruct (buffer_ b). }
  rewrite Hlast.
  assert ((Compare (comparator options) k2 k1 >? 0) = false) as ->; [|done].
  rewrite Z.gtb_ltb. apply Z.ltb_ge. lia.
Qed.

Lemma Add_out_of_order_aborts_witness :
  Add default_options
    {| buffer_ := [x00; x01; x01] ++ str "b" ++ str "1"; restarts_ := [0];
       counter_ := 1; finished_ := false; last_key_ := str "b" |}
    (str "a") (str "2") = None.
Proof.
  apply (Add_out_of_order_aborts default_options
           {| buffer_ := []; restarts_ := [0]; counter_ := 0;
              finished_ := false; last_key_ := [] |}
           _ [] (str "b") (str "1")).
  - reflexivity.
  - vm_compute. discriminate.
Defined.

(** The restart array and the counter after [n] entries, [n] at least
    one. *)
Lemma AddAll_restarts options :
  1 <= block_restart_interval options ->
  forall kvs (b b' : t) n,
    1 <= n ->
    counter_ b = (n - 1) mod block_restart_interval options + 1 ->
    size (restarts_ b) = (n - 1) / block_restart_interval options + 1 ->
    AddAll options b kvs = Some b' ->
    size (restarts_ b')
    = (n + size kvs - 1) / block_restart_interval options + 1
    /\ exists rs, restarts_ b' = restarts_ b ++ rs
                  /\ Forall (fun r => 0 <= r < 2 ^ 32) rs.
Proof.
  intros Hint. set (I := block_restart_interval options) in *.
  induction kvs as [|[k v] kvs IH]; intros b b' n Hn Hc Hr; cbn [AddAll].
  - intros [= <-]. unfold size at 2. cbn [length].
    rewrite Z.add_0_r. split; [done|]. exists []. by rewrite app_nil_r.
  - destruct (Add options b k v) as [b1|] eqn:Hadd; [|discriminate].
    cbn [mbind option_bind]. intros Hrun.
    destruct (Add_restarts _ _ _ _ _ Hadd) as (Hle & Hstep & _). fold I in Hle, Hstep.
    pose proof (Z.mod_pos_bound (n - 1) I ltac:(lia)) as Hm.
    pose proof (Z.div_mod (n - 1) I ltac:(lia)) as Hdm.
    assert (Hnext : counter_ b1 = n mod I + 1
                    /\ size (restarts_ b1) = n / I + 1
                    /\ exists rs, restarts_ b1 = restarts_ b ++ rs
                                  /\ Forall (fun r => 0 <= r < 2 ^ 32) rs).
    { destruct (Z.ltb_spec (counter_ b) I) as [Hlt|Hge].
      - destruct Hstep as [-> ->].
        assert (n / I = (n - 1) / I /\ n mod I = (n - 1) mod I + 1) as [Hq Hrm].
        { assert (n = I * ((n - 1) / I) + ((n - 1) mod I + 1)) as Heq by lia.
          split.
          - symmetry. apply (Z.div_unique n I _ ((n - 1) mod I + 1)); lia.
          - symmetry. apply (Z.mod_unique n I ((n - 1) / I)); lia. }
        rewrite Hq, Hrm. split; [lia|]. split; [done|].
        exists []. by rewrite app_nil_r.
      - destruct Hstep as [-> ->].
        assert (n / I = (n - 1) / I + 1 /\ n mod I = 0) as [Hq Hrm].
        { assert (n = I * ((n - 1) / I + 1) + 0) as Heq by lia.
          split.
          - symmetry. apply (Z.div_unique n I _ 0); lia.
          - symmetry. apply (Z.mod_unique n I ((n - 1) / I + 1)); lia. }
        rewrite Hq, Hrm, size_app. unfold size at 2. cbn [length].
        split; [done|]. split; [lia|].
        eexists; split; [done|]. constructor; [|constructor].
        unfold u32. apply Z.mod_pos_bound. lia. }
    destruct Hnext as (Hc1 & Hr1 & rs1 & Hrs1 & Hf1).
    destruct (IH b1 b' (n + 1)) as (Hsize & rs & Hrs & Hf); try done; try lia.
    + by replace (n + 1 - 1) with n by lia.
    + by replace (n + 1 - 1) with n by lia.
    + split.
      * rewrite Hsize. do 2 f_equal. unfold size. cbn [length]. lia.
      * exists (rs1 ++ rs). rewrite Hrs, Hrs1, <- app_assoc. split; [done|].
        by apply Forall_app.
Qed.

(** The trailer of a finished block lists one restart point for every
    [block_restart_interval] entries, rounded up, and at least one; the
    first is at offset 0. *)
Theorem restart_points_count options (kvs : list (bytes * bytes)) block :
  1 <= block_restart_interval options ->
  size kvs < 2 ^ 32 - 1 ->
  BuildBlock options kvs = Some block ->
  exists rs,
    RestartArray block = Some rs
    /\ size rs
       = Z.max 1 ((size kvs + block_restart_interval options - 1)
                  / block_restart_interval options)
    /\ head rs = Some 0.
Proof.
  intros Hint Hn. unfold BuildBlock, create.
  destruct (block_restart_interval options >=? 1); [|discriminate].
  cbn [assert mbind option_bind].
  set (b0 := {| buffer_ := []; restarts_ := [0]; counter_ := 0;
                finished_ := false; last_key_ := [] |}).
  destruct (AddAll options b0 kvs) as [b|] eqn:Hrun; [|discriminate].
  cbn [mbind option_bind]. intros [= <-].
  set (I := block_restart_interval options) in *.
  assert (Hrs : size (restarts_ b) = Z.max 1 ((size kvs + I - 1) / I)
                /\ exists rs, restarts_ b = 0 :: rs
                              /\ Forall (fun r => 0 <= r < 2 ^ 32) rs).
  { destruct kvs as [|[k v] kvs].
    - cbn in Hrun. injection Hrun as <-. cbn [restarts_ b0]. split.
      + unfold size. cbn [length]. rewrite Z.add_0_l.
        rewrite Z.div_small by lia. reflexivity.
      + by exists [].
    - cbn [AddAll] in Hrun.
      destruct (Add options b0 k v) as [b1|] eqn:Hadd; [|discriminate].
      cbn [mbind option_bind] in Hrun.
      destruct (Add_restarts _ _ _ _ _ Hadd) as (_ & Hstep & _).
      fold I in Hstep. cbn [counter_ restarts_ buffer_ b0] in Hstep.
      destruct (Z.ltb_spec 0 I); [|lia]. destruct Hstep as [Hr1 Hc1].
      destruct (AddAll_restarts options Hint kvs b1 b 1)
        as (Hsize & rs & Hrs & Hf);
        [lia | by rewrite Hc1 | by rewrite Hr1 | done |].
      split.
      + rewrite Hsize.
        pose proof (size_nonneg kvs) as Hk.
        replace (size ((k, v) :: kvs) + I - 1)
          with ((1 + size kvs - 1) + 1 * I) by (unfold size; cbn [length]; lia).
        rewrite Z.div_add by lia.
        pose proof (Z.div_pos (1 + size kvs - 1) I ltac:(lia) ltac:(lia)).
        fold I. lia.
      + exists rs. by rewrite Hrs, Hr1. }
  destruct Hrs as (Hsize & rs & Hrs & Hf).
  assert (Hall : Forall (fun r => 0 <= r < 2 ^ 32) (restarts_ b)).
  { rewrite Hrs. constructor; [lia | done]. }
  assert (Hcount : size (restarts_ b) < 2 ^ 32).
  { rewrite Hsize. pose proof (size_nonneg kvs).
    assert ((size kvs + I - 1) / I < size kvs + 1).
    { apply Z.div_lt_upper_bound; nia. }
    lia. }
  exists (restarts_ b). split; [|split; [done | by rewrite Hrs]].
  destruct (Finish_layout b Hcount) as (Hoff & _).
  change (PutFixed32 _ _) with (fst (Finish b)).
  unfold RestartArray. rewrite Hoff. cbn [mbind option_bind].
  unfold restart_offset in Hoff.
  destruct (NumRestarts (fst (Finish b))) as [nr|] eqn:Hnr; [|discriminate].
  cbn [mbind option_bind] in *.
  assert (nr = size (restarts_ b)) as ->.
  { destruct ((4 <=? size (fst (Finish b))) && _) eqn:Hc; [|discriminate].
    injection Hoff as Hoff.
    unfold Finish in Hoff. cbn [fst] in Hoff.
    destruct (fold_left_PutFixed32 (restarts_ b) (buffer_ b))
      as (tr & Htr & Hlen).
    rewrite Htr in Hoff. unfold PutFixed32 in Hoff. rewrite !size_app in Hoff.
    change (size (EncodeFixed32 _)) with 4 in Hoff.
    assert (size tr = 4 * size (restarts_ b)) by (unfold size; lia). lia. }
  unfold Finish. cbn [fst].
  destruct (DecodeRestarts_fold_left (restarts_ b) (buffer_ b)
              (EncodeFixed32 (u32 (size (restarts_ b)))) Hall)
    as (enc & -> & Hlen & Hdec).
  unfold PutFixed32. rewrite <- app_assoc.
  replace (Z.to_nat (size (buffer_ b))) with (length (buffer_ b))
    by (unfold size; lia).
  rewrite skipn_app, Nat.sub_diag, skipn_all, skipn_O. cbn [app].
  replace (Z.to_nat (size (restarts_ b))) with (length (restarts_ b))
    by (unfold size; lia).
  exact Hdec.
Qed.

Lemma restart_points_count_witness :
  let options := mkOptions BytewiseComparator 4096 2 kNoCompression None in
  let kvs := [(str "a", str "1"); (str "b", str "2"); (str "c", str "3")] in
  exists rs,
    RestartArray
      ([x00; x01; x01] ++ str "a" ++ str "1"
       ++ [x00; x01; x01] ++ str "b" ++ str "2"
       ++ [x00; x01; x01] ++ str "c" ++ str "3"
       ++ [x00; x00; x00; x00; x0a; x00; x00; x00; x02; x00; x00; x00])
    = Some rs
    /\ size rs
       = Z.max 1 ((size kvs + block_restart_interval options - 1)
                  / block_restart_interval options)
    /\ head rs = Some 0.
Proof.
  intros options kvs. apply (restart_points_count options kvs).
  - cbn. lia.
  - vm_compute. reflexivity.
  - vm_compute. reflexivity.
Defined.

End BlockBuilder.

(** ** table/filter_block.cc *)

Module FilterBlock.

Import Coding.

(** Generate new filter every 2KB of data *)
Definition kFilterBaseLg : Z := 11.
Definition kFilterBase : Z := Z.shiftl 1 kFilterBaseLg.

Record Builder := mkBuilder
  { keys_ : bytes;
    start_ : list Z;
    result_ : bytes;
    tmp_keys_ : list bytes;
    filter_offsets_ : list Z }.

(** [FilterBlockBuilder::FilterBlockBuilder]; the policy pointer is an
    argument of the operations. *)
Definition create : Builder :=
  {| keys_ := []; start_ := []; result_ := []; tmp_keys_ := [];
     filter_offsets_ := [] |}.

(** [Slice(data + pos, len)] *)
Definition slice (data : bytes) (pos len : Z) : bytes :=
  firstn (Z.to_nat len) (skipn (Z.to_nat pos) data).

(** The loop of [GenerateFilter] that cuts the flattened keys apart:
    key [i] runs from [start[i]] to [start[i+1]]. *)
Fixpoint key_slices (keys : bytes) (start : list Z) : list bytes :=
  match start with
  | s0 :: rest =>
      match rest with
      | s1 :: _ => slice keys s0 (u64 (s1 - s0)) :: key_slices keys rest
      | [] => []
      end
  | [] => []
  end.

(** [FilterBlockBuilder::GenerateFilter] *)
Definition GenerateFilter (policy : FilterPolicy.t) (b : Builder) : Builder :=
  let num_keys := size (start_ b) in
  if num_keys =? 0 then
    {| keys_ := keys_ b; start_ := start_ b; result_ := result_ b;
       tmp_keys_ := tmp_keys_ b;
       filter_offsets_ := filter_offsets_ b ++ [u32 (size (result_ b))] |}
  else
    let start := start_ b ++ [size (keys_ b)] in
    let tmp_keys := key_slices (keys_ b) start in
    {| keys_ := []; start_ := [];
       result_ := FilterPolicy.CreateFilter policy tmp_keys (result_ b);
       tmp_keys_ := [];
       filter_offsets_ := filter_offsets_ b ++ [u32 (size (result_ b))] |}.

(** The loop [while (filter_index > filter_offsets_.size())] of
    [StartBlock]; every round adds one offset, so [fuel] rounds are enough
    once [fuel] reaches [filter_index]. *)
Fixpoint generate_until (fuel : nat) (policy : FilterPolicy.t)
    (filter_index : Z) (b : Builder) : Builder :=
  match fuel with
  | O => b
  | S fuel' =>
      if filter_index >? size (filter_offsets_ b)
      then generate_until fuel' policy filter_index (GenerateFilter policy b)
      else b
  end.

(** [FilterBlockBuilder::StartBlock] *)
Definition StartBlock (policy : FilterPolicy.t) (b : Builder)
    (block_offset : Z) : option Builder :=
  let filter_index := block_offset / kFilterBase in
  _ ← assert (filter_index >=? size (filter_offsets_ b));
  Some (generate_until (Z.to_nat filter_index) policy filter_index b).

(** [FilterBlockBuilder::AddKey] *)
Definition AddKey (b : Builder) (key : bytes) : Builder :=
  {| keys_ := keys_ b ++ key;
     start_ := start_ b ++ [size (keys_ b)];
     result_ := result_ b; tmp_keys_ := tmp_keys_ b;
     filter_offsets_ := filter_offsets_ b |}.

(** [FilterBlockBuilder::Finish] *)
Definition Finish (policy : FilterPolicy.t) (b : Builder) : bytes * Builder :=
  let b1 := match start_ b with
            | [] => b
            | _ :: _ => GenerateFilter policy b
            end in
  let array_offset := u32 (size (result_ b1)) in
  let res := fold_left PutFixed32 (filter_offsets_ b1) (result_ b1) in
  let res := PutFixed32 res array_offset in
  let res := res ++ [byte_of_Z kFilterBaseLg] in
  (res, {| keys_ := keys_ b1; start_ := start_ b1; result_ := res;
           tmp_keys_ := tmp_keys_ b1;
           filter_offsets_ := filter_offsets_ b1 |}).

(** The reader keeps the block contents in [data_] and, instead of the
    pointer [offset_], the position of the offset array inside them. *)
Record Reader := mkReader
  { data_ : bytes;
    offset_ : Z;
    num_ : Z;
    base_lg_ : Z }.

(** The conversion of a [char] to [size_t].  [char] is signed on the
    platforms the code is built for (x86-64): a byte of 0x80 or more is a
    negative [char], and converts to a value just below 2^64. *)
Definition char_to_size_t (b : byte) : Z :=
  let v := Z_of_byte b in
  if v <? 128 then v else u64 (v - 256).

(** [FilterBlockReader::FilterBlockReader]; [base_lg_ = contents[n - 1]]
    converts a [char] to the [size_t] field. *)
Definition open (contents : bytes) : Reader :=
  let n := size contents in
  if n <? 5 then {| data_ := []; offset_ := 0; num_ := 0; base_lg_ := 0 |}
  else
    let base_lg := char_to_size_t (nth (Z.to_nat (n - 1)) contents x00) in
    match DecodeFixed32 (skipn (Z.to_nat (n - 5)) contents) with
    | None => {| data_ := []; offset_ := 0; num_ := 0; base_lg_ := base_lg |}
    | Some last_word =>
        if last_word >? n - 5
        then {| data_ := []; offset_ := 0; num_ := 0; base_lg_ := base_lg |}
        else {| data_ := contents; offset_ := last_word;
                num_ := (n - 5 - last_word) / 4; base_lg_ := base_lg |}
    end.

(** [FilterBlockReader::KeyMayMatch]; [None] is a read past the end of
    the block.  The shift is the mathematical one also for a [base_lg_] of
    64 or more, for which C++ leaves [>>] undefined. *)
Definition KeyMayMatch (policy : FilterPolicy.t) (r : Reader)
    (block_offset : Z) (key : bytes) : option bool :=
  let index := Z.shiftr block_offset (base_lg_ r) in
  if index <? num_ r then
    start ← DecodeFixed32 (skipn (Z.to_nat (offset_ r + index * 4)) (data_ r));
    limit ← DecodeFixed32
              (skipn (Z.to_nat (offset_ r + index * 4 + 4)) (data_ r));
    if (start <=? limit) && (limit <=? offset_ r) then
      let filter := slice (data_ r) start (limit - start) in
      Some (FilterPolicy.KeyMayMatch policy key filter)
    else if start =? limit then
      (* Empty filters do not match any keys *)
      Some false
    else Some true
  else Some true.  (* Errors are treated as potential matches *)

(** Calls on a builder, in the order they are made. *)
Inductive call := CallAddKey (key : bytes) | CallStartBlock (block_offset : Z).

Fixpoint run (policy : FilterPolicy.t) (b : Builder) (calls : list call)
  : option Builder :=
  match calls with
  | [] => Some b
  | CallAddKey key :: calls' => run policy (AddKey b key) calls'
  | CallStartBlock off :: calls' =>
      b' ← StartBlock policy b off; run policy b' calls'
  end.




(** The whole life of a builder: the calls, then [Finish]. *)
Definition build (policy : FilterPolicy.t) (calls : list call) : option bytes :=
  b ← run policy create calls; Some (fst (Finish policy b)).

(** A policy in the style of the test suite's hash filter: one byte per
    key, its length; a key may match when its length byte is there. *)
Definition LengthFilter : FilterPolicy.t :=
  {| FilterPolicy.Name := str "LengthFilter";
     FilterPolicy.CreateFilter keys dst :=
       dst ++ map (fun k => byte_of_Z (size k)) keys;
     FilterPolicy.KeyMayMatch key filter :=
       existsb (Byte.eqb (byte_of_Z (size key))) filter |}.

(** A policy that never excludes a key: the interface allows false
    positives, so this is a legal, if useless, policy. *)
Definition MatchAll : FilterPolicy.t :=
  {| FilterPolicy.Name := str "MatchAll";
     FilterPolicy.CreateFilter keys dst := dst ++ [x01];
     FilterPolicy.KeyMayMatch key filter := true |}.

(** *** The number of filters *)

(** [GenerateFilter] records exactly one more offset and leaves no key
    pending. *)
Lemma GenerateFilter_spec policy (b : Builder) :
  size (filter_offsets_ (GenerateFilter policy b))
  = size (filter_offsets_ b) + 1
  /\ start_ (GenerateFilter policy b) = [].
Proof.
  unfold GenerateFilter.
  destruct (Z.eqb_spec (size (start_ b)) 0) as [E|E]; cbn.
  - rewrite BlockBuilder.size_app. split; [reflexivity|].
    destruct (start_ b); [reflexivity|]. unfold size in E. cbn in E. lia.
  - rewrite BlockBuilder.size_app. split; reflexivity.
Qed.

(** With enough fuel the loop of [StartBlock] stops because its condition
    is false: the builder then holds exactly [filter_index] offsets. *)
Lemma generate_until_spec policy (filter_index : Z) :
  forall fuel b,
    size (filter_offsets_ b) <= filter_index ->
    filter_index - size (filter_offsets_ b) <= Z.of_nat fuel ->
    let b' := generate_until fuel policy filter_index b in
    size (filter_offsets_ b') = filter_index
    /\ start_ b' = (if filter_index >? size (filter_offsets_ b)
                    then [] else start_ b).
Proof.
  induction fuel as [|fuel IH]; intros b Hle Hfuel; cbn [generate_until].
  - assert (filter_index = size (filter_offsets_ b)) as -> by lia.
    rewrite Z.gtb_ltb, Z.ltb_irrefl. split; reflexivity.
  - destruct (Z.gtb_spec filter_index (size (filter_offsets_ b))) as [Hgt|Hngt].
    + destruct (GenerateFilter_spec policy b) as [Hsz Hst].
      destruct (IH (GenerateFilter policy b)) as [H1 H2]; [lia|lia|].
      split; [exact H1|]. rewrite H2, Hst.
      destruct (filter_index >? _); reflexivity.
    + split; [lia|reflexivity].
Qed.









Lemma run_app policy (calls1 calls2 : list call) (b : Builder) :
  run policy b (calls1 ++ calls2)
  = b1 ← run policy b calls1; run policy b1 calls2.
Proof.
  revert b. induction calls1 as [|[key|off] calls1 IH]; intros b;
    cbn [run app]; [reflexivity|apply IH|].
  destruct (StartBlock policy b off); cbn [mbind option_bind];
    [apply IH|reflexivity].
Qed.






Example filter_segmenting_scenario :
  option_map (fun block => num_ (open block))
    (build LengthFilter [CallStartBlock 0; CallAddKey (str "x");
                         CallStartBlock 4096; CallAddKey (str "y")])
  = Some 3.
Proof. vm_compute. reflexivity. Qed.

(** *** What the reader answers *)

(** An index outside the offset array is answered with a match. *)
Lemma KeyMayMatch_out_of_range policy (r : Reader) (block_offset : Z) key :
  num_ r <= Z.shiftr block_offset (base_lg_ r) ->
  KeyMayMatch policy r block_offset key = Some true.
Proof.
  intros H. unfold KeyMayMatch.
  destruct (Z.ltb_spec (Z.shiftr block_offset (base_lg_ r)) (num_ r)); [lia|].
  reflexivity.
Qed.

(** The three ways the range [start, limit) of an in-range index is
    treated: a range inside the filter data, empty or not, is handed to
    the policy; an empty range outside the data matches nothing; any
    other range is answered with a match. *)
Lemma KeyMayMatch_in_range policy (r : Reader) (block_offset : Z) key
    (start limit : Z) :
  let index := Z.shiftr block_offset (base_lg_ r) in
  index < num_ r ->
  DecodeFixed32 (skipn (Z.to_nat (offset_ r + index * 4)) (data_ r))
    = Some start ->
  DecodeFixed32 (skipn (Z.to_nat (offset_ r + index * 4 + 4)) (data_ r))
    = Some limit ->
  KeyMayMatch policy r block_offset key
  = Some (if (start <=? limit) && (limit <=? offset_ r)
          then FilterPolicy.KeyMayMatch policy key
                 (slice (data_ r) start (limit - start))
          else if start =? limit then false else true).
Proof.
  intros index Hin Hs Hl. unfold KeyMayMatch. fold index.
  destruct (Z.ltb_spec index (num_ r)); [|lia].
  rewrite Hs, Hl. cbn [mbind option_bind].
  destruct ((start <=? limit) && (limit <=? offset_ r)); [reflexivity|].
  destruct (start =? limit); reflexivity.
Qed.

(** C4, the code at the failing input.  The block is the one the builder
    writes for [StartBlock(2048); Finish()]: a single, empty filter for
    window 0.  Its range is empty and lies inside the filter data, so the
    first branch of [KeyMayMatch] hands the empty filter to the policy,
    and a policy that answers [true] makes the reader answer [true]. *)
Theorem KeyMayMatch_empty_filter_asks_policy :
  let block := [x00; x00; x00; x00; x00; x00; x00; x00; x0b] in
  build MatchAll [CallStartBlock 2048] = Some block
  /\ num_ (open block) = 1
  /\ DecodeFixed32 (skipn (Z.to_nat (offset_ (open block))) block) = Some 0
  /\ DecodeFixed32 (skipn (Z.to_nat (offset_ (open block) + 4)) block) = Some 0
  /\ KeyMayMatch MatchAll (open block) 0 (str "foo") = Some true.
Proof. vm_compute. repeat split; reflexivity. Qed.

(** With a policy that rejects every key on an empty filter the same
    block gives [false]. *)
Example KeyMayMatch_empty_filter_length_policy :
  KeyMayMatch LengthFilter
    (open [x00; x00; x00; x00; x00; x00; x00; x00; x0b]) 0 (str "foo")
  = Some false.
Proof. vm_compute. reflexivity. Qed.

(** An empty range that points past the filter data, an inconsistent
    pair of offsets, is the one case the second branch catches: the
    reader answers [false]. *)
Example KeyMayMatch_empty_range_outside_data :
  let block := [x07; x00; x00; x00; x07; x00; x00; x00;
                x00; x00; x00; x00; x0b] in
  num_ (open block) = 2
  /\ KeyMayMatch MatchAll (open block) 0 (str "foo") = Some false.
Proof. vm_compute. split; reflexivity. Qed.

(** *** The reader against the builder *)

(** A block too short to hold the offset of the array and the parameter,
    or whose array offset points outside it, is read as a block without
    filters: every key may match at every offset. *)
Theorem KeyMayMatch_malformed_block policy (contents : bytes)
    (block_offset : Z) (key : bytes) :
  0 <= block_offset ->
  (size contents < 5
   \/ exists last_word,
        DecodeFixed32 (skipn (Z.to_nat (size contents - 5)) contents)
        = Some last_word
        /\ size contents - 5 < last_word) ->
  KeyMayMatch policy (open contents) block_offset key = Some true.
Proof.
  intros Hoff Hbad. apply KeyMayMatch_out_of_range.
  assert (forall lg, 0 <= Z.shiftr block_offset lg) as Hidx.
  { intros lg. by apply Z.shiftr_nonneg. }
  unfold open. destruct Hbad as [Hshort|(w & Hw & Hbig)].
  - destruct (Z.ltb_spec (size contents) 5); [|lia]. cbn. apply Hidx.
  - destruct (Z.ltb_spec (size contents) 5); [cbn; apply Hidx|].
    rewrite Hw. destruct (Z.gtb_spec w (size contents - 5)); [|lia].
    cbn. apply Hidx.
Qed.

Lemma KeyMayMatch_malformed_block_witness :
  KeyMayMatch LengthFilter (open [xff; xff; xff; xff; x0b]) 4096 (str "foo")
  = Some true.
Proof.
  apply KeyMayMatch_malformed_block; [lia|]. right. exists 4294967295.
  split; [reflexivity | vm_compute; reflexivity].
Defined.

(** [StartBlock] refuses a block offset that lies in a window for which
    the filter was generated already. *)
Theorem StartBlock_backwards_aborts policy (b b1 : Builder) (off1 off2 : Z) :
  StartBlock policy b off1 = Some b1 ->
  off2 / kFilterBase < off1 / kFilterBase ->
  StartBlock policy b1 off2 = None.
Proof.
  intros H1 Hlt. unfold StartBlock in H1.
  destruct (Z.geb_spec (off1 / kFilterBase) (size (filter_offsets_ b)))
    as [Hge|]; [|discriminate].
  cbn [assert mbind option_bind] in H1. injection H1 as <-.
  destruct (generate_until_spec policy (off1 / kFilterBase)
              (Z.to_nat (off1 / kFilterBase)) b) as [Hsz _]; [lia| |].
  { pose proof (BlockBuilder.size_nonneg (filter_offsets_ b)). lia. }
  unfold StartBlock. rewrite Hsz.
  destruct (Z.geb_spec (off2 / kFilterBase) (off1 / kFilterBase)); [lia|].
  reflexivity.
Qed.

Lemma StartBlock_backwards_aborts_witness :
  StartBlock LengthFilter
    {| keys_ := []; start_ := []; result_ := [];
       tmp_keys_ := []; filter_offsets_ := [0; 0] |} 2047 = None.
Proof.
  apply (StartBlock_backwards_aborts LengthFilter create _ 4096 2047).
  - reflexivity.
  - vm_compute. reflexivity.
Defined.
(** *** No false negatives through the block *)

(** The positions at which [AddKey] records the keys [ks], the first at
    [acc]. *)
Fixpoint starts_of (acc : Z) (ks : list bytes) : list Z :=
  match ks with
  | [] => []
  | k :: r => acc :: starts_of (acc + size k) r
  end.

(** The size of the first [i] filters. *)
Definition sizes_upto (fs : list bytes) (i : nat) : Z :=
  size (concat (firstn i fs)).

Definition covers (policy : FilterPolicy.t) (ks : list bytes) (f : bytes)
  : Prop :=
  forall key, key ∈ ks -> FilterPolicy.KeyMayMatch policy key f = true.

(** What the builder holds: [fs] are the filters generated so far, [kss]
    the keys each of them was made from, [pend] the keys added since. *)
Record tracks (policy : FilterPolicy.t) (b : Builder) (fs : list bytes)
    (kss : list (list bytes)) (pend : list bytes) : Prop :=
  { tr_result : result_ b = concat fs;
    tr_offsets :
      filter_offsets_ b = map (fun i => u32 (sizes_upto fs i)) (seq 0 (length fs));
    tr_keys : keys_ b = concat pend;
    tr_start : start_ b = starts_of 0 pend;
    tr_covers : Forall2 (covers policy) kss fs;
    tr_fit : Forall (fun k => size k < 2 ^ 64) pend }.

(** The key is, or will be, among the keys of filter number [w]. *)
Definition lands (key : bytes) (w : nat) (kss : list (list bytes))
    (pend : list bytes) : Prop :=
  (length kss = w /\ key ∈ pend)
  \/ exists ks, kss !! w = Some ks /\ key ∈ ks.

Lemma size_concat_app (l1 l2 : list bytes) :
  size (concat (l1 ++ l2)) = size (concat l1) + size (concat l2).
Proof. by rewrite concat_app, BlockBuilder.size_app. Qed.

Lemma starts_of_app acc ks k :
  starts_of acc (ks ++ [k]) = starts_of acc ks ++ [acc + size (concat ks)].
Proof.
  revert acc. induction ks as [|k0 ks IH]; intros acc; cbn [starts_of app concat].
  - unfold size. cbn [length]. by rewrite Z.add_0_r.
  - rewrite IH, BlockBuilder.size_app. do 3 f_equal. lia.
Qed.

Lemma starts_of_length acc ks : length (starts_of acc ks) = length ks.
Proof. revert acc. induction ks; intros acc; cbn; [done|]. by rewrite IHks. Qed.

Lemma slice_middle (pre k post : bytes) :
  slice (pre ++ k ++ post) (size pre) (size k) = k.
Proof.
  unfold slice, size. rewrite !Nat2Z.id.
  rewrite skipn_app, Nat.sub_diag, skipn_all, skipn_O. cbn [app].
  by rewrite firstn_app, Nat.sub_diag, firstn_all, firstn_O, app_nil_r.
Qed.

Lemma key_slices_starts (ks : list bytes) : forall pre,
  Forall (fun k => size k < 2 ^ 64) ks ->
  key_slices (pre ++ concat ks)
    (starts_of (size pre) ks ++ [size pre + size (concat ks)])
  = ks.
Proof.
  induction ks as [|k r IH]; intros pre Hfit; [done|].
  apply Forall_cons in Hfit as [Hk Hfit].
  cbn [starts_of concat app key_slices].
  assert (Hnext : exists rest,
            starts_of (size pre + size k) r
              ++ [size pre + size (k ++ concat r)]
            = (size pre + size k) :: rest).
  { destruct r as [|k2 r]; cbn [starts_of concat app].
    - exists []. rewrite app_nil_r. done.
    - eexists. done. }
  destruct Hnext as (rest & Hrest). rewrite Hrest.
  replace (size pre + size k - size pre) with (size k) by lia.
  pose proof (BlockBuilder.size_nonneg k).
  unfold u64. rewrite Z.mod_small by lia. rewrite slice_middle. f_equal.
  rewrite <- Hrest. specialize (IH (pre ++ k) Hfit).
  rewrite <- app_assoc, !BlockBuilder.size_app in IH.
  rewrite BlockBuilder.size_app, Z.add_assoc. exact IH.
Qed.

Lemma sizes_upto_app_l fs f i :
  (i <= length fs)%nat -> sizes_upto (fs ++ [f]) i = sizes_upto fs i.
Proof.
  intros Hi. unfold sizes_upto. rewrite firstn_app.
  replace (i - length fs)%nat with 0%nat by lia.
  by rewrite firstn_O, app_nil_r.
Qed.

Lemma sizes_upto_all fs : sizes_upto fs (length fs) = size (concat fs).
Proof. unfold sizes_upto. by rewrite firstn_all. Qed.

Lemma sizes_upto_S fs i f :
  fs !! i = Some f -> sizes_upto fs (S i) = sizes_upto fs i + size f.
Proof.
  intros Hf. unfold sizes_upto. rewrite (take_S_r _ _ _ Hf).
  rewrite size_concat_app. cbn [concat]. by rewrite app_nil_r.
Qed.

Lemma sizes_upto_le fs i : 0 <= sizes_upto fs i <= size (concat fs).
Proof.
  unfold sizes_upto. rewrite <- (firstn_skipn i fs) at 3.
  rewrite size_concat_app.
  pose proof (BlockBuilder.size_nonneg (concat (firstn i fs))).
  pose proof (BlockBuilder.size_nonneg (concat (skipn i fs))). lia.
Qed.

Lemma offsets_snoc fs f :
  map (fun i => u32 (sizes_upto (fs ++ [f]) i)) (seq 0 (length (fs ++ [f])))
  = map (fun i => u32 (sizes_upto fs i)) (seq 0 (length fs))
    ++ [u32 (size (concat fs))].
Proof.
  rewrite length_app. cbn [length]. rewrite Nat.add_1_r, seq_S, map_app.
  cbn [map Nat.add]. rewrite sizes_upto_app_l, sizes_upto_all by lia.
  f_equal. apply map_ext_in. intros i Hi%in_seq.
  by rewrite sizes_upto_app_l by lia.
Qed.

Section Tracking.

Variable policy : FilterPolicy.t.

(** The contract of a filter policy: [CreateFilter] appends a filter to
    its destination, and the filter made from a list of keys matches each
    of them. *)
Hypothesis CreateFilter_appends : forall ks dst,
  FilterPolicy.CreateFilter policy ks dst
  = dst ++ FilterPolicy.CreateFilter policy ks [].
Hypothesis CreateFilter_matches : forall ks key,
  key ∈ ks ->
  FilterPolicy.KeyMayMatch policy key (FilterPolicy.CreateFilter policy ks [])
  = true.

Lemma tracks_create : tracks policy create [] [] [].
Proof. by split. Qed.

Lemma tracks_AddKey b fs kss pend key :
  tracks policy b fs kss pend -> size key < 2 ^ 64 ->
  tracks policy (AddKey b key) fs kss (pend ++ [key]).
Proof.
  intros [Hr Ho Hk Hs Hc Hf] Hkey. split; cbn [AddKey result_ filter_offsets_
    keys_ start_]; try done.
  - rewrite Hk, concat_app. cbn [concat]. by rewrite app_nil_r.
  - rewrite Hs, Hk, starts_of_app. by rewrite Z.add_0_l.
  - apply Forall_app. split; [done|]. by constructor.
Qed.

(** [GenerateFilter] turns the pending keys into the next filter; with
    no key pending the next filter is empty. *)
Lemma tracks_GenerateFilter b fs kss pend :
  tracks policy b fs kss pend ->
  exists f, tracks policy (GenerateFilter policy b) (fs ++ [f]) (kss ++ [pend]) [].
Proof.
  intros [Hr Ho Hk Hs Hc Hf]. unfold GenerateFilter.
  destruct (Z.eqb_spec (size (start_ b)) 0) as [Hnone|Hsome].
  - assert (pend = []) as ->.
    { rewrite Hs in Hnone. destruct pend; [done|].
      unfold size in Hnone. cbn in Hnone. lia. }
    exists []. split; cbn [result_ filter_offsets_ keys_ start_]; try done.
    + rewrite Hr, concat_app. cbn. by rewrite app_nil_r.
    + by rewrite offsets_snoc, Ho, Hr.
    + apply Forall2_app; [done|]. constructor; [|constructor].
      intros key Hkey. by apply elem_of_nil in Hkey.
  - exists (FilterPolicy.CreateFilter policy pend []).
    assert (Hslices : key_slices (keys_ b) (start_ b ++ [size (keys_ b)]) = pend).
    { rewrite Hk, Hs. apply (key_slices_starts pend [] Hf). }
    rewrite Hslices.
    split; cbn [result_ filter_offsets_ keys_ start_]; try done.
    + rewrite CreateFilter_appends, Hr, concat_app. cbn [concat].
      by rewrite app_nil_r.
    + by rewrite offsets_snoc, Ho, Hr.
    + apply Forall2_app; [done|]. constructor; [|constructor].
      intros key Hkey. by apply CreateFilter_matches.
Qed.

Lemma lands_AddKey key w kss pend key' :
  lands key w kss pend -> lands key w kss (pend ++ [key']).
Proof.
  intros [[Hlen Hin]|Hdone]; [left | by right].
  split; [done|]. apply elem_of_app. by left.
Qed.

Lemma lands_GenerateFilter key w kss pend :
  lands key w kss pend -> lands key w (kss ++ [pend]) [].
Proof.
  intros [[Hlen Hin]|(ks & Hks & Hin)]; right.
  - exists pend. split; [|done]. subst w. by apply list_lookup_middle.
  - exists ks. split; [|done]. by apply lookup_app_l_Some.
Qed.

Lemma tracks_length b fs kss pend :
  tracks policy b fs kss pend ->
  length kss = length fs /\ size (filter_offsets_ b) = Z.of_nat (length fs).
Proof.
  intros [Hr Ho Hk Hs Hc Hf]. split; [by eapply Forall2_length|].
  rewrite Ho. unfold size. by rewrite length_map, length_seq.
Qed.

Lemma tracks_generate_until key w filter_index fuel : forall b fs kss pend,
  tracks policy b fs kss pend -> lands key w kss pend ->
  exists fs' kss' pend',
    tracks policy (generate_until fuel policy filter_index b) fs' kss' pend'
    /\ lands key w kss' pend'.
Proof.
  induction fuel as [|fuel IH]; intros b fs kss pend Ht Hl;
    cbn [generate_until]; [by eauto|].
  destruct (filter_index >? size (filter_offsets_ b)); [|by eauto].
  destruct (tracks_GenerateFilter b fs kss pend Ht) as (f & Ht').
  eapply IH; [done|]. by apply lands_GenerateFilter.
Qed.

(** A run of calls keeps the builder tracked and the key where it
    lands. *)
Lemma tracks_run key w calls : forall b b' fs kss pend,
  Forall (fun c => match c with
                   | CallAddKey k => size k < 2 ^ 64
                   | CallStartBlock _ => True
                   end) calls ->
  tracks policy b fs kss pend -> lands key w kss pend ->
  run policy b calls = Some b' ->
  exists fs' kss' pend',
    tracks policy b' fs' kss' pend' /\ lands key w kss' pend'.
Proof.
  induction calls as [|[k|off] calls IH]; intros b b' fs kss pend Hfit Ht Hl;
    cbn [run].
  - intros [= <-]. by eauto.
  - apply Forall_cons in Hfit as [Hk Hfit]. intros Hrun.
    apply (IH (AddKey b k) b' fs kss (pend ++ [k]));
      [done | by apply tracks_AddKey | by apply lands_AddKey | done].
  - apply Forall_cons in Hfit as [_ Hfit]. unfold StartBlock.
    destruct (_ >=? _); [|discriminate]. cbn [assert mbind option_bind].
    intros Hrun.
    destruct (tracks_generate_until key w (off / kFilterBase)
                (Z.to_nat (off / kFilterBase)) b fs kss pend Ht Hl)
      as (fs1 & kss1 & pend1 & Ht1 & Hl1).
    by eapply IH.
Qed.

End Tracking.

(** The bytes of a list of 32-bit words. *)
Definition words (vs : list Z) : bytes :=
  concat (map (fun v => EncodeFixed32 (u32 v)) vs).

Lemma fold_left_words (vs : list Z) (buf : bytes) :
  fold_left PutFixed32 vs buf = buf ++ words vs.
Proof.
  revert buf. induction vs as [|v vs IH]; intros buf; cbn [fold_left].
  - by rewrite app_nil_r.
  - rewrite IH. unfold PutFixed32, words. cbn [map concat].
    by rewrite <- app_assoc.
Qed.

Lemma words_length (vs : list Z) : length (words vs) = (4 * length vs)%nat.
Proof.
  unfold words. induction vs as [|v vs IH]; [done|].
  cbn [map concat]. rewrite length_app, IH. cbn [length EncodeFixed32]. lia.
Qed.

Lemma DecodeFixed32_words (vs : list Z) : forall (i : nat) v rest,
  vs !! i = Some v ->
  DecodeFixed32 (skipn (4 * i) (words vs ++ rest)) = Some (u32 v).
Proof.
  induction vs as [|v0 vs IH]; intros i v rest Hv; [done|].
  unfold words. cbn [map concat]. fold (words vs). rewrite <- app_assoc.
  destruct i as [|i].
  - injection Hv as ->. cbn [Nat.mul skipn].
    apply DecodeFixed32_EncodeFixed32. apply Z.mod_pos_bound. lia.
  - replace (4 * S i)%nat with (4 * i + 4)%nat by lia.
    rewrite <- skipn_skipn.
    change (skipn 4 (EncodeFixed32 (u32 v0) ++ words vs ++ rest))
      with (words vs ++ rest).
    by apply IH.
Qed.

Lemma char_kFilterBaseLg : char_to_size_t (byte_of_Z kFilterBaseLg) = 11.
Proof. reflexivity. Qed.

(** The reader of a block laid out as [Finish] does: the filters, the
    words of the offset array, the word that locates the array, and the
    parameter. *)
Lemma open_layout (filters : bytes) (offsets : list Z) (lg : byte) :
  let block :=
    filters ++ words (offsets ++ [size filters]) ++ [lg] in
  size block < 2 ^ 32 ->
  open block
  = {| data_ := block; offset_ := size filters; num_ := size offsets;
       base_lg_ := char_to_size_t lg |}.
Proof.
  intros block Hsmall.
  pose proof (BlockBuilder.size_nonneg filters) as Hf.
  pose proof (BlockBuilder.size_nonneg offsets) as Ho.
  assert (Hn : size block = size filters + 4 * size offsets + 5).
  { subst block. unfold size in *. rewrite !length_app, words_length, length_app.
    cbn [length]. lia. }
  unfold open. rewrite Hn.
  destruct (Z.ltb_spec (size filters + 4 * size offsets + 5) 5); [lia|].
  assert (Hlast : nth (Z.to_nat (size filters + 4 * size offsets + 5 - 1))
                    block x00 = lg).
  { subst block. rewrite app_assoc.
    rewrite app_nth2; rewrite length_app, words_length, length_app;
      unfold size; cbn [length]; [|lia].
    replace (_ - _)%nat with 0%nat by lia. done. }
  rewrite Hlast.
  assert (Hword : DecodeFixed32
                    (skipn (Z.to_nat (size filters + 4 * size offsets + 5 - 5))
                       block) = Some (size filters)).
  { subst block.
    replace (Z.to_nat (size filters + 4 * size offsets + 5 - 5))
      with (4 * length offsets + length filters)%nat by (unfold size; lia).
    rewrite <- skipn_skipn.
    rewrite skipn_app, Nat.sub_diag, skipn_all, skipn_O. cbn [app].
    rewrite (DecodeFixed32_words _ (length offsets) (size filters)).
    - f_equal. unfold u32. apply Z.mod_small. lia.
    - by apply list_lookup_middle. }
  rewrite Hword.
  destruct (Z.gtb_spec (size filters) (size filters + 4 * size offsets + 5 - 5));
    [lia|].
  f_equal.
  replace (size filters + 4 * size offsets + 5 - 5 - size filters)
    with (size offsets * 4) by lia.
  apply Z.div_mul. lia.
Qed.

(** The keys of the calls fit a [size_t]. *)
Definition keys_fit (calls : list call) : Prop :=
  Forall (fun c => match c with
                   | CallAddKey k => size k < 2 ^ 64
                   | CallStartBlock _ => True
                   end) calls.

Section Reading.

Variable policy : FilterPolicy.t.

Hypothesis CreateFilter_appends : forall ks dst,
  FilterPolicy.CreateFilter policy ks dst
  = dst ++ FilterPolicy.CreateFilter policy ks [].
Hypothesis CreateFilter_matches : forall ks key,
  key ∈ ks ->
  FilterPolicy.KeyMayMatch policy key (FilterPolicy.CreateFilter policy ks [])
  = true.

Lemma tracks_run_only calls : forall b b' fs kss pend,
  keys_fit calls -> tracks policy b fs kss pend ->
  run policy b calls = Some b' ->
  exists fs' kss' pend', tracks policy b' fs' kss' pend'.
Proof.
  induction calls as [|[k|off] calls IH]; intros b b' fs kss pend Hfit Ht;
    cbn [run].
  - intros [= <-]. by eauto.
  - apply Forall_cons in Hfit as [Hk Hfit]. intros Hrun.
    apply (IH (AddKey b k) b' fs kss (pend ++ [k]));
      [done | by apply tracks_AddKey | done].
  - apply Forall_cons in Hfit as [_ Hfit]. unfold StartBlock.
    destruct (_ >=? _); [|discriminate]. cbn [assert mbind option_bind].
    intros Hrun.
    assert (Hgen : forall fuel b fs kss pend,
              tracks policy b fs kss pend ->
              exists fs' kss' pend',
                tracks policy
                  (generate_until fuel policy (off / kFilterBase) b)
                  fs' kss' pend').
    { clear -CreateFilter_appends CreateFilter_matches.
      induction fuel as [|fuel IHf]; intros b fs kss pend Ht;
        cbn [generate_until]; [by eauto|].
      destruct (_ >? _); [|by eauto].
      destruct (tracks_GenerateFilter policy CreateFilter_appends
                  CreateFilter_matches b fs kss pend Ht) as (f & Ht').
      by eapply IHf. }
    destruct (Hgen (Z.to_nat (off / kFilterBase)) b fs kss pend Ht)
      as (fs1 & kss1 & pend1 & Ht1).
    by eapply IH.
Qed.

Lemma run_AddKeys keys : forall b calls,
  run policy b (map CallAddKey keys ++ calls)
  = run policy (fold_left AddKey keys b) calls.
Proof.
  induction keys as [|k keys IH]; intros b calls; [done|].
  cbn [map app run fold_left]. apply IH.
Qed.

Lemma tracks_AddKeys keys : forall b fs kss pend,
  tracks policy b fs kss pend -> Forall (fun k => size k < 2 ^ 64) keys ->
  tracks policy (fold_left AddKey keys b) fs kss (pend ++ keys).
Proof.
  induction keys as [|k keys IH]; intros b fs kss pend Ht Hfit;
    cbn [fold_left].
  - by rewrite app_nil_r.
  - apply Forall_cons in Hfit as [Hk Hfit].
    replace (pend ++ k :: keys) with ((pend ++ [k]) ++ keys)
      by (by rewrite <- app_assoc).
    apply IH; [|done]. by apply tracks_AddKey.
Qed.

(** The block [Finish] returns for a tracked builder, and the filter the
    key has landed in. *)
Lemma Finish_tracked b fs kss pend key w :
  tracks policy b fs kss pend -> lands key w kss pend ->
  exists fs1 f,
    fst (Finish policy b)
    = concat fs1
      ++ words (map (fun i => u32 (sizes_upto fs1 i)) (seq 0 (length fs1))
                ++ [size (concat fs1)])
      ++ [byte_of_Z kFilterBaseLg]
    /\ fs1 !! w = Some f
    /\ FilterPolicy.KeyMayMatch policy key f = true.
Proof.
  intros Ht Hl.
  assert (Hb1 : exists fs1 kss1,
            tracks policy
              (match start_ b with [] => b | _ :: _ => GenerateFilter policy b end)
              fs1 kss1 []
            /\ exists ks, kss1 !! w = Some ks /\ key ∈ ks).
  { destruct (start_ b) eqn:Hs.
    - assert (pend = []) as ->.
      { rewrite (tr_start _ _ _ _ _ Ht) in Hs. by destruct pend. }
      exists fs, kss. split; [done|].
      destruct Hl as [[_ Hin]|Hdone]; [by apply elem_of_nil in Hin | done].
    - destruct (tracks_GenerateFilter policy CreateFilter_appends
                  CreateFilter_matches b fs kss pend Ht) as (f & Ht').
      exists (fs ++ [f]), (kss ++ [pend]). split; [done|].
      apply lands_GenerateFilter in Hl as [[_ Hin]|Hdone];
        [by apply elem_of_nil in Hin | done]. }
  destruct Hb1 as (fs1 & kss1 & Ht1 & ks & Hks & Hin).
  unfold Finish. cbn [fst].
  set (b1 := match start_ b with [] => b | _ :: _ => GenerateFilter policy b end)
    in *.
  destruct Ht1 as [Hr Ho _ _ Hc _].
  destruct (Forall2_lookup_l _ _ _ _ _ Hc Hks) as (f & Hf & Hcov).
  exists fs1, f. split; [|split; [done | by apply Hcov]].
  rewrite fold_left_words. unfold PutFixed32. rewrite Hr, Ho.
  rewrite <- !app_assoc. do 1 f_equal. rewrite app_assoc. f_equal.
  unfold words. rewrite map_app, concat_app. cbn [map concat].
  rewrite app_nil_r. do 2 f_equal. unfold u32. by rewrite !Z.mod_mod by lia.
Qed.

(** The reader's answer on such a block. *)
Lemma KeyMayMatch_layout (fs : list bytes) (w : nat) (f : bytes)
    (off : Z) (key : bytes) :
  let block :=
    concat fs
    ++ words (map (fun i => u32 (sizes_upto fs i)) (seq 0 (length fs))
              ++ [size (concat fs)])
    ++ [byte_of_Z kFilterBaseLg] in
  size block < 2 ^ 32 -> fs !! w = Some f ->
  0 <= off -> Z.to_nat (off / kFilterBase) = w ->
  KeyMayMatch policy (open block) off key
  = Some (FilterPolicy.KeyMayMatch policy key f).
Proof.
  intros block Hsmall Hf Hoff Hw.
  pose proof (open_layout (concat fs)
                (map (fun i => u32 (sizes_upto fs i)) (seq 0 (length fs)))
                (byte_of_Z kFilterBaseLg) Hsmall) as Hopen.
  fold block in Hopen.
  assert (Hlt : (w < length fs)%nat) by (by eapply lookup_lt_Some).
  assert (Hsize : size (concat fs) < 2 ^ 32).
  { subst block. rewrite BlockBuilder.size_app in Hsmall.
    pose proof (BlockBuilder.size_nonneg
                  (words (map (fun i => u32 (sizes_upto fs i))
                            (seq 0 (length fs)) ++ [size (concat fs)])
                   ++ [byte_of_Z kFilterBaseLg])). lia. }
  assert (Hidx : Z.shiftr off (base_lg_ (open block)) = Z.of_nat w).
  { rewrite Hopen. cbn [base_lg_]. rewrite char_kFilterBaseLg.
    rewrite Z.shiftr_div_pow2 by lia. change (2 ^ 11) with kFilterBase.
    rewrite <- Hw. rewrite Z2Nat.id; [done|].
    apply Z.div_pos; [done | reflexivity]. }
  assert (Hword : forall i, (i <= length fs)%nat ->
            DecodeFixed32
              (skipn (Z.to_nat (size (concat fs) + Z.of_nat i * 4)) block)
            = Some (sizes_upto fs i)).
  { intros i Hi. subst block.
    replace (Z.to_nat (size (concat fs) + Z.of_nat i * 4))
      with (4 * i + length (concat fs))%nat by (unfold size; lia).
    rewrite <- skipn_skipn.
    rewrite skipn_app, Nat.sub_diag, skipn_all, skipn_O. cbn [app].
    pose proof (sizes_upto_le fs i) as Hle.
    rewrite (DecodeFixed32_words _ i (u32 (sizes_upto fs i))).
    - f_equal. unfold u32. rewrite Z.mod_mod by lia. apply Z.mod_small. lia.
    - destruct (decide (i = length fs)) as [->|Hne].
      + rewrite sizes_upto_all.
        assert (u32 (size (concat fs)) = size (concat fs)) as ->.
        { unfold u32. apply Z.mod_small.
          pose proof (BlockBuilder.size_nonneg (concat fs)). lia. }
        apply list_lookup_middle. by rewrite length_map, length_seq.
      + apply lookup_app_l_Some. rewrite list_lookup_fmap.
        rewrite lookup_seq_lt by lia. done. }
  rewrite (KeyMayMatch_in_range policy (open block) off key
             (sizes_upto fs w) (sizes_upto fs (S w))).
  - pose proof (sizes_upto_le fs (S w)) as Hle.
    rewrite (sizes_upto_S fs w f Hf) in *.
    pose proof (BlockBuilder.size_nonneg f) as Hf0.
    rewrite Hopen. cbn [offset_ data_].
    destruct (Z.leb_spec (sizes_upto fs w) (sizes_upto fs w + size f)); [|lia].
    destruct (Z.leb_spec (sizes_upto fs w + size f) (size (concat fs)));
      [|lia].
    cbn [andb]. do 2 f_equal.
    replace (sizes_upto fs w + size f - sizes_upto fs w) with (size f) by lia.
    subst block. rewrite <- (take_drop_middle fs w f Hf) at 1.
    rewrite concat_app. cbn [concat]. rewrite <- !app_assoc.
    apply slice_middle.
  - rewrite Hidx, Hopen. cbn [num_]. unfold size.
    rewrite length_map, length_seq. lia.
  - rewrite Hidx, Hopen. cbn [offset_ data_]. apply Hword. lia.
  - rewrite Hidx, Hopen. cbn [offset_ data_].
    replace (size (concat fs) + Z.of_nat w * 4 + 4)
      with (size (concat fs) + Z.of_nat (S w) * 4) by lia.
    apply Hword. lia.
Qed.

(** A key added for a block is never excluded at that block's offset:
    with a policy that keeps its contract, [KeyMayMatch] on the finished
    filter block answers true for the offset given to the last
    [StartBlock] before the key was added. *)
Theorem added_key_may_match calls1 off keys key calls2 block :
  0 <= off ->
  keys_fit (calls1 ++ CallStartBlock off
              :: map CallAddKey keys ++ CallAddKey key :: calls2) ->
  build policy (calls1 ++ CallStartBlock off
                  :: map CallAddKey keys ++ CallAddKey key :: calls2)
  = Some block ->
  size block < 2 ^ 32 ->
  KeyMayMatch policy (open block) off key = Some true.
Proof.
  intros Hoff Hfit Hbuild Hsmall. unfold build in Hbuild.
  rewrite run_app in Hbuild.
  destruct (run policy create calls1) as [b1|] eqn:Hrun1; [|discriminate].
  cbn [mbind option_bind run] in Hbuild.
  destruct (StartBlock policy b1 off) as [b2|] eqn:Hsb; [|discriminate].
  cbn [mbind option_bind] in Hbuild. rewrite run_AddKeys in Hbuild.
  cbn [run] in Hbuild.
  destruct (run policy _ calls2) as [b4|] eqn:Hrun2; [|discriminate].
  cbn [mbind option_bind] in Hbuild. injection Hbuild as <-.
  apply Forall_app in Hfit as [Hfit1 Hfit].
  apply Forall_cons in Hfit as [_ Hfit].
  apply Forall_app in Hfit as [Hfitk Hfit].
  apply Forall_cons in Hfit as [Hfitkey Hfit2].
  destruct (tracks_run_only calls1 create b1 [] [] [] Hfit1
              (tracks_create policy) Hrun1) as (fs1 & kss1 & pend1 & Ht1).
  destruct (tracks_run_only [CallStartBlock off] b1 b2 fs1 kss1 pend1)
    as (fs2 & kss2 & pend2 & Ht2); [by repeat constructor | done | |].
  { cbn [run]. by rewrite Hsb. }
  assert (Hw : length kss2 = Z.to_nat (off / kFilterBase)).
  { destruct (tracks_length policy _ _ _ _ Ht2) as [-> Hsz].
    unfold StartBlock in Hsb.
    destruct (Z.geb_spec (off / kFilterBase) (size (filter_offsets_ b1)))
      as [Hge|]; [|discriminate].
    cbn [assert mbind option_bind] in Hsb. injection Hsb as <-.
    destruct (generate_until_spec policy (off / kFilterBase)
                (Z.to_nat (off / kFilterBase)) b1) as [Hsz' _]; [lia| |].
    { pose proof (BlockBuilder.size_nonneg (filter_offsets_ b1)). lia. }
    rewrite Hsz' in Hsz. lia. }
  assert (Hfitk' : Forall (fun k => size k < 2 ^ 64) keys).
  { clear -Hfitk. induction keys as [|k keys IH]; [constructor|].
    cbn [map] in Hfitk. apply Forall_cons in Hfitk as [Hk Hfitk].
    constructor; [done | by apply IH]. }
  pose proof (tracks_AddKey policy _ _ _ _ key
                (tracks_AddKeys keys b2 fs2 kss2 pend2 Ht2 Hfitk') Hfitkey)
    as Ht3.
  destruct (tracks_run policy CreateFilter_appends CreateFilter_matches
              key (Z.to_nat (off / kFilterBase)) calls2 _ b4 _ _ _
              Hfit2 Ht3) as (fs4 & kss4 & pend4 & Ht4 & Hl4); [|done|].
  { left. split; [done|]. rewrite elem_of_app, elem_of_cons. auto. }
  destruct (Finish_tracked b4 fs4 kss4 pend4 key _ Ht4 Hl4)
    as (fs & f & Hblock & Hf & Hmatch).
  change (size (fst (Finish policy b4)) < 2 ^ 32) in Hsmall.
  change (KeyMayMatch policy (open (fst (Finish policy b4))) off key
          = Some true).
  rewrite Hblock in Hsmall |- *.
  rewrite (KeyMayMatch_layout fs (Z.to_nat (off / kFilterBase)) f);
    try done.
  by rewrite Hmatch.
Qed.

End Reading.

Lemma LengthFilter_appends ks dst :
  FilterPolicy.CreateFilter LengthFilter ks dst
  = dst ++ FilterPolicy.CreateFilter LengthFilter ks [].
Proof. reflexivity. Qed.

Lemma LengthFilter_matches ks key :
  key ∈ ks ->
  FilterPolicy.KeyMayMatch LengthFilter key
    (FilterPolicy.CreateFilter LengthFilter ks []) = true.
Proof.
  intros Hin. cbn. apply existsb_exists. exists (byte_of_Z (size key)).
  split.
  - apply in_map_iff. exists key. split; [done|]. by apply list_elem_of_In.
  - by apply Byte.byte_dec_lb.
Qed.

Definition two_window_block : bytes :=
  Eval vm_compute in
    default [] (build LengthFilter
                  [CallStartBlock 0; CallAddKey (str "x");
                   CallStartBlock 4096; CallAddKey (str "yy")]).

Lemma added_key_may_match_witness :
  KeyMayMatch LengthFilter (open two_window_block) 4096 (str "yy")
  = Some true.
Proof.
  apply (added_key_may_match LengthFilter LengthFilter_appends
           LengthFilter_matches [CallStartBlock 0; CallAddKey (str "x")]
           4096 [] (str "yy") []).
  - lia.
  - repeat constructor; vm_compute; reflexivity.
  - reflexivity.
  - vm_compute. reflexivity.
Defined.

End FilterBlock.

(** ** table/table_builder.cc *)

Module TableBuilder.

Import Coding.

(** Modelled from the spec: table/format.h and table/format.cc are not
    among the sources.  A block handle is an offset and a size, encoded as
    two varints; every block is followed by a trailer of 5 bytes; the
    footer is the two handles, zero padding up to 40 bytes and the magic
    number in 8 little-endian bytes. *)
Definition kBlockTrailerSize : Z := 5.
Definition kTableMagicNumber : Z := 0xdb4775248b80fb57.

Record BlockHandle := mkHandle { handle_offset : Z; handle_size : Z }.

(** [BlockHandle::BlockHandle()]: until they are set, both fields hold
    [~static_cast<uint64_t>(0)]. *)
Definition BlockHandle_init : BlockHandle :=
  mkHandle (2 ^ 64 - 1) (2 ^ 64 - 1).

Definition EncodeTo (dst : bytes) (h : BlockHandle) : bytes :=
  PutVarint64 (PutVarint64 dst (handle_offset h)) (handle_size h).

Definition Footer_EncodeTo (metaindex_handle index_handle : BlockHandle)
  : bytes :=
  let dst := EncodeTo (EncodeTo [] metaindex_handle) index_handle in
  let dst := BlockBuilder.resize dst 40 in
  let dst := PutFixed32 dst (Z.land kTableMagicNumber 0xffffffff) in
  PutFixed32 dst (Z.shiftr kTableMagicNumber 32).

(** Modelled from the spec: reading a table back is not among the
    sources.  The footer is the last 48 bytes of the file and starts with
    the two encoded handles, the meta-index block's first; a handle
    locates a block by offset and size. *)
Definition DecodeFrom (p : bytes) : option (BlockHandle * bytes) :=
  '(o, p1) ← GetVarint64 p;
  '(s, p2) ← GetVarint64 p1;
  Some (mkHandle o s, p2).

Definition ReadFooter (contents : bytes)
  : option (BlockHandle * BlockHandle) :=
  if size contents <? 48 then None
  else
    let footer := skipn (length contents - 48) contents in
    '(metaindex_handle, p1) ← DecodeFrom footer;
    '(index_handle, _) ← DecodeFrom p1;
    Some (metaindex_handle, index_handle).

Definition ReadBlock (contents : bytes) (h : BlockHandle) : bytes :=
  firstn (Z.to_nat (handle_size h))
    (skipn (Z.to_nat (handle_offset h)) contents).

Definition metaindex_block_of (contents : bytes) : option bytes :=
  '(metaindex_handle, _) ← ReadFooter contents;
  Some (ReadBlock contents metaindex_handle).

Definition index_block_of (contents : bytes) : option bytes :=
  '(_, index_handle) ← ReadFooter contents;
  Some (ReadBlock contents index_handle).


(** Modelled from the spec: leveldb/env.h is not among the sources.  The
    builder uses two operations of its writable file, each returning a
    status. *)
Class WritableFile (F : Type) := mkWritableFile
  { Append : F -> bytes -> F * Status;
    Flush_file : F -> F * Status }.

(** A file that keeps what is appended and never fails. *)
#[export] Instance StringSink : WritableFile bytes :=
  {| Append f data := (f ++ data, OK);
     Flush_file f := (f, OK) |}.

(** A file that accepts a given number of appends and then fails every
    operation with an I/O error. *)
Record FaultyFile := mkFaulty { written : bytes; good_appends : nat }.

#[export] Instance FaultySink : WritableFile FaultyFile :=
  {| Append f data :=
       match good_appends f with
       | O => (f, IOError "append")
       | S n => (mkFaulty (written f ++ data) n, OK)
       end;
     Flush_file f :=
       match good_appends f with
       | O => (f, IOError "flush")
       | S _ => (f, OK)
       end |}.

(** The port's Snappy binding ([None]: not supported) and the CRC32C
    functions, none of them among the sources. *)
Class Port := mkPort
  { Snappy_Compress : bytes -> option bytes;
    crc32c_Value : bytes -> Z;
    crc32c_Extend : Z -> bytes -> Z;
    crc32c_Mask : Z -> Z }.

Section Builder.

Context {F : Type} {file_ops : WritableFile F} {port : Port}.

Record Rep := mkRep
  { options : Options;
    index_block_options : Options;
    file : F;
    offset : Z;
    status : Status;
    data_block : BlockBuilder.t;
    index_block : BlockBuilder.t;
    last_key : bytes;
    num_entries : Z;
    closed : bool;
    filter_block : option (FilterPolicy.t * FilterBlock.Builder);
    pending_index_entry : bool;
    pending_handle : BlockHandle;
    compressed_output : bytes }.

Definition set_file (r : Rep) (x : F) : Rep :=
  mkRep (options r) (index_block_options r) x (offset r) (status r)
    (data_block r) (index_block r) (last_key r) (num_entries r) (closed r)
    (filter_block r) (pending_index_entry r) (pending_handle r)
    (compressed_output r).
Definition set_offset (r : Rep) (x : Z) : Rep :=
  mkRep (options r) (index_block_options r) (file r) x (status r)
    (data_block r) (index_block r) (last_key r) (num_entries r) (closed r)
    (filter_block r) (pending_index_entry r) (pending_handle r)
    (compressed_output r).
Definition set_status (r : Rep) (x : Status) : Rep :=
  mkRep (options r) (index_block_options r) (file r) (offset r) x
    (data_block r) (index_block r) (last_key r) (num_entries r) (closed r)
    (filter_block r) (pending_index_entry r) (pending_handle r)
    (compressed_output r).
Definition set_data_block (r : Rep) (x : BlockBuilder.t) : Rep :=
  mkRep (options r) (index_block_options r) (file r) (offset r) (status r)
    x (index_block r) (last_key r) (num_entries r) (closed r)
    (filter_block r) (pending_index_entry r) (pending_handle r)
    (compressed_output r).
Definition set_index_block (r : Rep) (x : BlockBuilder.t) : Rep :=
  mkRep (options r) (index_block_options r) (file r) (offset r) (status r)
    (data_block r) x (last_key r) (num_entries r) (closed r)
    (filter_block r) (pending_index_entry r) (pending_handle r)
    (compressed_output r).
Definition set_last_key (r : Rep) (x : bytes) : Rep :=
  mkRep (options r) (index_block_options r) (file r) (offset r) (status r)
    (data_block r) (index_block r) x (num_entries r) (closed r)
    (filter_block r) (pending_index_entry r) (pending_handle r)
    (compressed_output r).
Definition set_num_entries (r : Rep) (x : Z) : Rep :=
  mkRep (options r) (index_block_options r) (file r) (offset r) (status r)
    (data_block r) (index_block r) (last_key r) x (closed r)
    (filter_block r) (pending_index_entry r) (pending_handle r)
    (compressed_output r).
Definition set_closed (r : Rep) (x : bool) : Rep :=
  mkRep (options r) (index_block_options r) (file r) (offset r) (status r)
    (data_block r) (index_block r) (last_key r) (num_entries r) x
    (filter_block r) (pending_index_entry r) (pending_handle r)
    (compressed_output r).
Definition set_filter_block (r : Rep)
    (x : option (FilterPolicy.t * FilterBlock.Builder)) : Rep :=
  mkRep (options r) (index_block_options r) (file r) (offset r) (status r)
    (data_block r) (index_block r) (last_key r) (num_entries r) (closed r)
    x (pending_index_entry r) (pending_handle r) (compressed_output r).
Definition set_pending_index_entry (r : Rep) (x : bool) : Rep :=
  mkRep (options r) (index_block_options r) (file r) (offset r) (status r)
    (data_block r) (index_block r) (last_key r) (num_entries r) (closed r)
    (filter_block r) x (pending_handle r) (compressed_output r).
Definition set_pending_handle (r : Rep) (x : BlockHandle) : Rep :=
  mkRep (options r) (index_block_options r) (file r) (offset r) (status r)
    (data_block r) (index_block r) (last_key r) (num_entries r) (closed r)
    (filter_block r) (pending_index_entry r) x (compressed_output r).
Definition set_compressed_output (r : Rep) (x : bytes) : Rep :=
  mkRep (options r) (index_block_options r) (file r) (offset r) (status r)
    (data_block r) (index_block r) (last_key r) (num_entries r) (closed r)
    (filter_block r) (pending_index_entry r) (pending_handle r) x.

(** [FilterBlockBuilder::StartBlock] on the builder's filter block, if it
    has one. *)
Definition filter_StartBlock (r : Rep) (block_offset : Z) : option Rep :=
  match filter_block r with
  | None => Some r
  | Some (policy, fb) =>
      fb' ← FilterBlock.StartBlock policy fb block_offset;
      Some (set_filter_block r (Some (policy, fb')))
  end.

(** [Rep::Rep] and [TableBuilder::TableBuilder].  Both block builders are
    constructed while [index_block_options] still equals the caller's
    options; its restart interval is set to 1 afterwards. *)
Definition create (opt : Options) (f : F) : option Rep :=
  data_block ← BlockBuilder.create opt;
  index_block ← BlockBuilder.create opt;
  let r :=
    {| options := opt;
       index_block_options :=
         mkOptions (comparator opt) (block_size opt) 1 (compression opt)
           (filter_policy opt);
       file := f; offset := 0; status := OK;
       data_block := data_block; index_block := index_block;
       last_key := []; num_entries := 0; closed := false;
       filter_block :=
         match filter_policy opt with
         | None => None
         | Some policy => Some (policy, FilterBlock.create)
         end;
       pending_index_entry := false;
       pending_handle := BlockHandle_init;
       compressed_output := [] |} in
  filter_StartBlock r 0.

(** The [trailer] array of [WriteRawBlock]: the type byte, then the
    masked CRC of the contents extended by the type byte. *)
Definition block_trailer (block_contents : bytes) (type : CompressionType)
  : bytes :=
  let type_byte := [byte_of_Z (CompressionType_value type)] in
  let crc := crc32c_Value block_contents in
  let crc := crc32c_Extend crc type_byte in
  type_byte ++ EncodeFixed32 (u32 (crc32c_Mask crc)).

(** [TableBuilder::WriteRawBlock]; the handle the caller passed is
    returned. *)
Definition WriteRawBlock (r : Rep) (block_contents : bytes)
    (type : CompressionType) : Rep * BlockHandle :=
  let handle := mkHandle (offset r) (size block_contents) in
  let '(f1, s1) := Append (file r) block_contents in
  let r := set_status (set_file r f1) s1 in
  if ok (status r) then
    let trailer := block_trailer block_contents type in
    let '(f2, s2) := Append (file r) trailer in
    let r := set_status (set_file r f2) s2 in
    if ok (status r) then
      (set_offset r (u64 (offset r + u64 (size block_contents
                                          + kBlockTrailerSize))),
       handle)
    else (r, handle)
  else (r, handle).

(** The [switch] of [WriteBlock]: what is written for the raw block, its
    type, and the scratch buffer afterwards. *)
Definition block_contents_for (type : CompressionType) (raw scratch : bytes)
  : bytes * CompressionType * bytes :=
  match type with
  | kNoCompression => (raw, kNoCompression, scratch)
  | kSnappyCompression =>
      match Snappy_Compress raw with
      | Some compressed =>
          if size compressed <? size raw - size raw / 8
          then (compressed, kSnappyCompression, compressed)
          else
            (* Snappy not supported, or compressed less than 12.5%, so just
               store uncompressed form *)
            (raw, kNoCompression, compressed)
      | None => (raw, kNoCompression, scratch)
      end
  end.

(** [TableBuilder::WriteBlock]; the block and the handle the caller
    passed are returned with the builder. *)
Definition WriteBlock (r : Rep) (block : BlockBuilder.t)
  : option (Rep * BlockBuilder.t * BlockHandle) :=
  _ ← assert (ok (status r));
  let '(raw, block) := BlockBuilder.Finish block in
  let '(block_contents, type, scratch) :=
    block_contents_for (compression (options r)) raw (compressed_output r) in
  let r := set_compressed_output r scratch in
  let '(r, handle) := WriteRawBlock r block_contents type in
  let r := set_compressed_output r [] in
  Some (r, BlockBuilder.Reset block, handle).

(** [TableBuilder::Flush] *)
Definition Flush (r : Rep) : option Rep :=
  _ ← assert (negb (closed r));
  if negb (ok (status r)) then Some r
  else if BlockBuilder.empty (data_block r) then Some r
  else
    _ ← assert (negb (pending_index_entry r));
    '(r, block, handle) ← WriteBlock r (data_block r);
    let r := set_pending_handle (set_data_block r block) handle in
    let r :=
      if ok (status r) then
        let r := set_pending_index_entry r true in
        let '(f1, s1) := Flush_file (file r) in
        set_status (set_file r f1) s1
      else r in
    filter_StartBlock r (offset r).

(** [TableBuilder::Add] *)
Definition Add (r : Rep) (key value : bytes) : option Rep :=
  _ ← assert (negb (closed r));
  if negb (ok (status r)) then Some r
  else
    _ ← assert (if num_entries r >? 0
                then Compare (comparator (options r)) key (last_key r) >? 0
                else true);
    r ← (if pending_index_entry r then
           _ ← assert (BlockBuilder.empty (data_block r));
           let r := set_last_key r
                      (FindShortestSeparator (comparator (options r))
                         (last_key r) key) in
           let handle_encoding := EncodeTo [] (pending_handle r) in
           ib ← BlockBuilder.Add (index_block_options r) (index_block r)
                  (last_key r) handle_encoding;
           Some (set_pending_index_entry (set_index_block r ib) false)
         else Some r);
    let r :=
      match filter_block r with
      | None => r
      | Some (policy, fb) =>
          set_filter_block r (Some (policy, FilterBlock.AddKey fb key))
      end in
    let r := set_last_key r key in
    let r := set_num_entries r (num_entries r + 1) in
    db ← BlockBuilder.Add (options r) (data_block r) key value;
    let r := set_data_block r db in
    let estimated_block_size := BlockBuilder.CurrentSizeEstimate (data_block r) in
    if estimated_block_size >=? block_size (options r) then Flush r
    else Some r.

(** The four writing steps of [TableBuilder::Finish], each the body of
    one of its [if (ok())] statements. *)

(* Write filter block *)
Definition write_filter_block (r : Rep) : Rep * BlockHandle :=
  match filter_block r with
  | Some (policy, fb) =>
      if ok (status r) then
        let '(contents, fb) := FilterBlock.Finish policy fb in
        WriteRawBlock (set_filter_block r (Some (policy, fb))) contents
          kNoCompression
      else (r, BlockHandle_init)
  | None => (r, BlockHandle_init)
  end.

(* Write metaindex block *)
Definition write_metaindex_block (r : Rep) (filter_block_handle : BlockHandle)
  : option (Rep * BlockHandle) :=
  if ok (status r) then
    meta_index_block ← BlockBuilder.create (options r);
    meta_index_block ←
      match filter_block r with
      | Some _ =>
          (* Add mapping from "filter.Name" to location of filter data *)
          match filter_policy (options r) with
          | Some policy =>
              let key := str "filter." ++ FilterPolicy.Name policy in
              let handle_encoding := EncodeTo [] filter_block_handle in
              BlockBuilder.Add (options r) meta_index_block key
                handle_encoding
          | None => None
          end
      | None => Some meta_index_block
      end;
    '(r, _, handle) ← WriteBlock r meta_index_block;
    Some (r, handle)
  else Some (r, BlockHandle_init).

(* Write index block *)
Definition write_index_block (r : Rep) : option (Rep * BlockHandle) :=
  if ok (status r) then
    r ← (if pending_index_entry r then
           let r := set_last_key r
                      (FindShortSuccessor (comparator (options r))
                         (last_key r)) in
           let handle_encoding := EncodeTo [] (pending_handle r) in
           ib ← BlockBuilder.Add (index_block_options r) (index_block r)
                  (last_key r) handle_encoding;
           Some (set_pending_index_entry (set_index_block r ib) false)
         else Some r);
    '(r, block, handle) ← WriteBlock r (index_block r);
    Some (set_index_block r block, handle)
  else Some (r, BlockHandle_init).

(* Write footer *)
Definition write_footer (r : Rep)
    (metaindex_block_handle index_block_handle : BlockHandle) : Rep :=
  if ok (status r) then
    let footer_encoding :=
      Footer_EncodeTo metaindex_block_handle index_block_handle in
    let '(f1, s1) := Append (file r) footer_encoding in
    let r := set_status (set_file r f1) s1 in
    if ok (status r)
    then set_offset r (u64 (offset r + size footer_encoding))
    else r
  else r.

(** [TableBuilder::Finish]; the status it returns is the builder's. *)
Definition Finish (r : Rep) : option Rep :=
  r ← Flush r;
  _ ← assert (negb (closed r));
  let r := set_closed r true in
  let '(r, filter_block_handle) := write_filter_block r in
  '(r, metaindex_block_handle) ← write_metaindex_block r filter_block_handle;
  '(r, index_block_handle) ← write_index_block r;
  Some (write_footer r metaindex_block_handle index_block_handle).

(** [TableBuilder::Abandon] *)
Definition Abandon (r : Rep) : option Rep :=
  _ ← assert (negb (closed r));
  Some (set_closed r true).

Definition NumEntries (r : Rep) : Z := u64 (num_entries r).
Definition FileSize (r : Rep) : Z := offset r.

(** Calls on a table builder. *)
Inductive call :=
| CallAdd (key value : bytes)
| CallFlush
| CallFinish.

Definition step (r : Rep) (c : call) : option Rep :=
  match c with
  | CallAdd key value => Add r key value
  | CallFlush => Flush r
  | CallFinish => Finish r
  end.

Fixpoint run (r : Rep) (calls : list call) : option Rep :=
  match calls with
  | [] => Some r
  | c :: calls' => r' ← step r c; run r' calls'
  end.

(** *** Frame properties of the writing steps *)

(** What a step leaves alone: the data block and the two flags. *)
Definition same_blocks (r r' : Rep) : Prop :=
  data_block r' = data_block r
  /\ pending_index_entry r' = pending_index_entry r
  /\ closed r' = closed r.

Lemma same_blocks_refl r : same_blocks r r.
Proof. repeat split. Qed.

Lemma same_blocks_trans r1 r2 r3 :
  same_blocks r1 r2 -> same_blocks r2 r3 -> same_blocks r1 r3.
Proof. unfold same_blocks. intuition congruence. Qed.

Lemma WriteRawBlock_frame r contents type :
  same_blocks r (fst (WriteRawBlock r contents type)).
Proof.
  unfold WriteRawBlock, same_blocks.
  destruct (Append (file r) contents) as [f1 s1]. cbn.
  destruct (ok s1); cbn; [|auto].
  destruct (Append f1 _) as [f2 s2]. cbn.
  destruct (ok s2); cbn; auto.
Qed.

Lemma WriteBlock_frame r block r' block' handle :
  WriteBlock r block = Some (r', block', handle) ->
  same_blocks r r' /\ BlockBuilder.empty block' = true.
Proof.
  unfold WriteBlock. destruct (ok (status r)); [|cbn; discriminate].
  cbn [assert mbind option_bind].
  destruct (BlockBuilder.Finish block) as [raw b1].
  destruct (block_contents_for _ raw _) as [[contents type] scratch].
  pose proof (WriteRawBlock_frame (set_compressed_output r scratch)
                contents type) as Hf.
  destruct (WriteRawBlock _ contents type) as [r1 h1].
  intros [= <- <- <-]. split; [exact Hf|reflexivity].
Qed.

Lemma filter_StartBlock_frame r block_offset r' :
  filter_StartBlock r block_offset = Some r' -> same_blocks r r'.
Proof.
  unfold filter_StartBlock. destruct (filter_block r) as [[policy fb]|].
  - destruct (FilterBlock.StartBlock policy fb block_offset);
      [|cbn; discriminate].
    intros [= <-]. repeat split.
  - intros [= <-]. apply same_blocks_refl.
Qed.

(** *** The invariant on [pending_index_entry] *)

Definition pending_only_if_empty (r : Rep) : Prop :=
  pending_index_entry r = true -> BlockBuilder.empty (data_block r) = true.

Lemma create_invariant opt f r :
  create opt f = Some r -> pending_only_if_empty r /\ closed r = false.
Proof.
  unfold create.
  destruct (BlockBuilder.create opt) as [db|]; [|cbn; discriminate].
  cbn [mbind option_bind]. intros Hs.
  apply filter_StartBlock_frame in Hs. destruct Hs as (Hd & Hp & Hc).
  cbn in Hp, Hc. split; [|exact Hc].
  intros Hpend. congruence.
Qed.

Lemma Flush_invariant r r' :
  Flush r = Some r' ->
  pending_only_if_empty r ->
  pending_only_if_empty r' /\ closed r' = closed r.
Proof.
  unfold Flush. destruct (closed r) eqn:Hc; [discriminate|].
  cbn [negb assert mbind option_bind].
  destruct (ok (status r)); cbn [negb]; [|intros [= <-]; auto].
  destruct (BlockBuilder.empty (data_block r)); [intros [= <-]; auto|].
  destruct (pending_index_entry r) eqn:Hp; [discriminate|].
  cbn [negb assert mbind option_bind].
  destruct (WriteBlock r (data_block r)) as [[[r1 block] handle]|] eqn:Hw;
    [|cbn; discriminate].
  cbn [mbind option_bind].
  apply WriteBlock_frame in Hw. destruct Hw as [(_ & _ & Hc1) Hempty].
  intros Hs _. apply filter_StartBlock_frame in Hs.
  destruct Hs as (Hd & _ & Hc2). split.
  - intros _. rewrite Hd.
    destruct (ok (status (set_pending_handle (set_data_block r1 block) handle)));
      [destruct (Flush_file _)|]; exact Hempty.
  - rewrite Hc2.
    destruct (ok (status (set_pending_handle (set_data_block r1 block) handle)));
      [destruct (Flush_file _)|]; cbn; congruence.
Qed.

Lemma Add_invariant r key value r' :
  Add r key value = Some r' ->
  pending_only_if_empty r ->
  pending_only_if_empty r' /\ closed r' = closed r.
Proof.
  unfold Add. destruct (closed r) eqn:Hc; [discriminate|].
  cbn [negb assert mbind option_bind].
  destruct (ok (status r)); cbn [negb]; [|intros [= <-]; auto].
  destruct (assert (if num_entries r >? 0 then _ else true)) as [[]|];
    [|cbn; discriminate].
  cbn [mbind option_bind].
  set (r1 := if pending_index_entry r then _ else Some r).
  assert (H1 : forall x, r1 = Some x ->
                 pending_index_entry x = false /\ closed x = false
                 /\ data_block x = data_block r).
  { subst r1. intros x. destruct (pending_index_entry r) eqn:Hp.
    - destruct (assert _) as [[]|]; [|cbn; discriminate].
      cbn [mbind option_bind].
      destruct (BlockBuilder.Add _ _ _ _); [|cbn; discriminate].
      intros [= <-]. cbn. auto.
    - intros [= <-]. auto. }
  destruct r1 as [x|]; [|cbn; discriminate]. cbn [mbind option_bind].
  destruct (H1 x eq_refl) as (Hp & Hcx & Hdx). clear H1.
  set (r2 := set_num_entries _ _).
  assert (H2 : pending_index_entry r2 = false /\ closed r2 = false).
  { subst r2. destruct (filter_block x) as [[policy fb]|]; cbn; auto. }
  destruct (BlockBuilder.Add _ (data_block r2) key value) as [db|];
    [|cbn; discriminate].
  cbn [mbind option_bind].
  destruct (_ >=? _).
  - intros Hf _. apply Flush_invariant in Hf.
    + cbn in Hf. destruct Hf as [Hi Hcl]. split; [exact Hi|].
      rewrite Hcl. apply H2.
    + intros Hpend. change (pending_index_entry r2 = true) in Hpend.
      destruct H2. congruence.
  - intros [= <-] _. split.
    + intros Hpend. change (pending_index_entry r2 = true) in Hpend.
      destruct H2. congruence.
    + apply H2.
Qed.

(** The steps of [Finish] after the flush never touch the data block and
    can only clear [pending_index_entry]. *)
Definition blocks_kept (r r' : Rep) : Prop :=
  data_block r' = data_block r
  /\ (pending_index_entry r' = true -> pending_index_entry r = true).

Lemma same_blocks_kept r r' : same_blocks r r' -> blocks_kept r r'.
Proof. unfold same_blocks, blocks_kept. intuition congruence. Qed.

Lemma blocks_kept_trans r1 r2 r3 :
  blocks_kept r1 r2 -> blocks_kept r2 r3 -> blocks_kept r1 r3.
Proof. unfold blocks_kept. intuition congruence. Qed.

Lemma write_filter_block_kept r :
  blocks_kept r (fst (write_filter_block r)).
Proof.
  unfold write_filter_block.
  destruct (filter_block r) as [[policy fb]|]; [|split; auto].
  destruct (ok (status r)); [|split; auto].
  destruct (FilterBlock.Finish policy fb) as [contents fb'].
  apply same_blocks_kept.
  apply (same_blocks_trans r (set_filter_block r (Some (policy, fb')))).
  - repeat split.
  - apply WriteRawBlock_frame.
Qed.

Lemma write_metaindex_block_kept r h r' h' :
  write_metaindex_block r h = Some (r', h') -> blocks_kept r r'.
Proof.
  unfold write_metaindex_block.
  destruct (ok (status r)); [|intros [= <- <-]; split; auto].
  destruct (BlockBuilder.create (options r)) as [mb|]; [|cbn; discriminate].
  cbn [mbind option_bind].
  destruct (match filter_block r with Some _ => _ | None => _ end) as [mb'|];
    [|cbn; discriminate].
  cbn [mbind option_bind].
  destruct (WriteBlock r mb') as [[[r1 b1] h1]|] eqn:Hw; [|cbn; discriminate].
  cbn [mbind option_bind]. intros [= <- <-].
  apply same_blocks_kept. apply WriteBlock_frame in Hw. apply Hw.
Qed.

Lemma write_index_block_kept r r' h' :
  write_index_block r = Some (r', h') -> blocks_kept r r'.
Proof.
  unfold write_index_block.
  destruct (ok (status r)); [|intros [= <- <-]; split; auto].
  set (r1 := if pending_index_entry r then _ else Some r).
  assert (H1 : forall x, r1 = Some x -> blocks_kept r x).
  { subst r1. intros x. destruct (pending_index_entry r) eqn:Hp.
    - destruct (BlockBuilder.Add _ _ _ _); [|cbn; discriminate].
      intros [= <-]. split; cbn; auto.
    - intros [= <-]. split; auto. }
  destruct r1 as [x|]; [|cbn; discriminate]. cbn [mbind option_bind].
  specialize (H1 x eq_refl).
  destruct (WriteBlock x (index_block x)) as [[[r2 b2] h2]|] eqn:Hw;
    [|cbn; discriminate].
  cbn [mbind option_bind]. intros [= <- <-].
  apply WriteBlock_frame in Hw. destruct Hw as [Hs _].
  apply (blocks_kept_trans r x); [exact H1|].
  apply same_blocks_kept.
  apply (same_blocks_trans x r2); [exact Hs|repeat split].
Qed.

Lemma write_footer_kept r h1 h2 : blocks_kept r (write_footer r h1 h2).
Proof.
  unfold write_footer. destruct (ok (status r)); [|split; auto].
  destruct (Append _ _) as [f1 s1]. cbn.
  destruct (ok s1); split; auto.
Qed.

Lemma Finish_invariant r r' :
  Finish r = Some r' -> pending_only_if_empty r -> pending_only_if_empty r'.
Proof.
  unfold Finish.
  destruct (Flush r) as [r1|] eqn:Hf; [|cbn; discriminate].
  cbn [mbind option_bind].
  destruct (closed r1); [discriminate|]. cbn [negb assert mbind option_bind].
  pose proof (write_filter_block_kept (set_closed r1 true)) as Hk1.
  destruct (write_filter_block (set_closed r1 true)) as [r2 fh].
  cbn [fst] in Hk1.
  destruct (write_metaindex_block r2 fh) as [[r3 mh]|] eqn:Hm; [|cbn; discriminate].
  cbn [mbind option_bind].
  destruct (write_index_block r3) as [[r4 ih]|] eqn:Hi; [|cbn; discriminate].
  cbn [mbind option_bind]. intros [= <-] Hinv.
  apply Flush_invariant in Hf; [|exact Hinv]. destruct Hf as [Hinv1 _].
  apply write_metaindex_block_kept in Hm.
  apply write_index_block_kept in Hi.
  pose proof (write_footer_kept r4 mh ih) as Hk4.
  assert (Hk : blocks_kept r1 (write_footer r4 mh ih)).
  { apply (blocks_kept_trans r1 (set_closed r1 true)); [split; auto|].
    eauto using blocks_kept_trans. }
  destruct Hk as [Hd Hp]. intros Hpend. rewrite Hd. auto.
Qed.

Lemma step_invariant r c r' :
  step r c = Some r' -> pending_only_if_empty r -> pending_only_if_empty r'.
Proof.
  destruct c as [key value| |]; cbn [step]; intros Hs Hinv.
  - eapply Add_invariant; eauto.
  - eapply Flush_invariant; eauto.
  - eapply Finish_invariant; eauto.
Qed.

Lemma run_invariant calls : forall r r',
  run r calls = Some r' -> pending_only_if_empty r -> pending_only_if_empty r'.
Proof.
  induction calls as [|c calls IH]; intros r r'; cbn [run].
  - intros [= <-]. auto.
  - destruct (step r c) as [r1|] eqn:Hs; [|cbn; discriminate].
    cbn [mbind option_bind]. intros Hr Hinv.
    eapply IH; [exact Hr|]. eapply step_invariant; eauto.
Qed.

(** C8.  In every state a table builder reaches from its construction by
    calls of [Add], [Flush] and [Finish], [pending_index_entry] is set
    only if the data block holds no entry. *)
Theorem pending_index_entry_invariant (opt : Options) (f : F)
    (calls : list call) (r0 r : Rep) :
  create opt f = Some r0 ->
  run r0 calls = Some r ->
  pending_index_entry r = true -> BlockBuilder.empty (data_block r) = true.
Proof.
  intros Hc Hr. apply create_invariant in Hc.
  exact (run_invariant calls r0 r Hr (proj1 Hc)).
Qed.

(** *** A latched error *)






(** *** Compression *)

(** The test of [WriteBlock], [compressed->size() < raw.size() -
    (raw.size() / 8u)], holds exactly when the compressed form is smaller
    than seven eighths of the raw one. *)
Lemma smaller_than_seven_eighths (c raw : Z) :
  0 <= raw -> (c <? raw - raw / 8) = (8 * c <? 7 * raw).
Proof.
  intros Hraw.
  pose proof (Z.div_mod raw 8 ltac:(lia)) as Hdm.
  pose proof (Z.mod_pos_bound raw 8 ltac:(lia)) as Hm.
  destruct (Z.ltb_spec c (raw - raw / 8)), (Z.ltb_spec (8 * c) (7 * raw));
    try reflexivity; lia.
Qed.

Lemma block_contents_for_snappy (raw scratch : bytes) :
  fst (block_contents_for kSnappyCompression raw scratch)
  = match Snappy_Compress raw with
    | Some compressed =>
        if 8 * size compressed <? 7 * size raw
        then (compressed, kSnappyCompression)
        else (raw, kNoCompression)
    | None => (raw, kNoCompression)
    end.
Proof.
  unfold block_contents_for.
  destruct (Snappy_Compress raw) as [c|]; [|reflexivity].
  rewrite smaller_than_seven_eighths by (unfold size; lia).
  destruct (8 * size c <? 7 * size raw); reflexivity.
Qed.

End Builder.

(** *** A failing file operation

    To see which file operations a call performs and what they return,
    the builder is given a file that records the status of every operation
    made on the file behind it. *)
Record Recorded (F : Type) := mkRecorded { inner : F; returned : list Status }.
Arguments mkRecorded {F} _ _.
Arguments inner {F} _.
Arguments returned {F} _.


(** What the file operations of some calls returned, [new], against the
    builder's status before and after the calls: either no operation was
    performed and the status is unchanged; or the status was OK before,
    every operation but the last returned OK, and the status afterwards is
    what the last operation returned. *)
Definition performed (before : Status) (new : list Status) (after : Status)
  : Prop :=
  (new = [] /\ after = before)
  \/ (ok before = true
      /\ exists oks,
           new = oks ++ [after] /\ Forall (fun s => ok s = true) oks).




Lemma performed_latched before new after :
  ok before = false -> performed before new after ->
  new = [] /\ after = before.
Proof. intros Hs [H|(Hok & _)]; [done | congruence]. Qed.

Section Latch.

Context {F : Type} {file_ops : WritableFile F} {port : Port}.













End Latch.


(** *** Ports and files for the examples

    Stand-ins for the platform: a checksum that adds the bytes up, masked
    by a rotation and a constant, and two Snappy bindings, one that is not
    supported and one that drops the last byte of its input. *)
Definition byte_sum (b : bytes) : Z :=
  fold_right (fun x acc => Z_of_byte x + acc) 0 b.

Definition rotate_mask (crc : Z) : Z :=
  u32 (Z.lor (Z.shiftr crc 15) (u32 (Z.shiftl crc 17)) + 0xa282ead8).

Definition PlainPort : Port :=
  {| Snappy_Compress raw := None;
     crc32c_Value := byte_sum;
     crc32c_Extend crc b := u32 (crc + byte_sum b);
     crc32c_Mask := rotate_mask |}.

Definition ShrinkPort : Port :=
  {| Snappy_Compress raw := Some (removelast raw);
     crc32c_Value := byte_sum;
     crc32c_Extend crc b := u32 (crc + byte_sum b);
     crc32c_Mask := rotate_mask |}.

Section Sink.

Context {port : Port}.

(** On a file that never fails, [WriteRawBlock] appends the contents and
    the trailer and moves the offset past them. *)
Lemma WriteRawBlock_sink (r : @Rep bytes) contents type :
  WriteRawBlock r contents type
  = (set_offset
       (set_status
          (set_file r ((file r ++ contents) ++ block_trailer contents type))
          OK)
       (u64 (offset r + u64 (size contents + kBlockTrailerSize))),
     mkHandle (offset r) (size contents)).
Proof. reflexivity. Qed.

Lemma WriteBlock_sink (r : @Rep bytes) (block : BlockBuilder.t) :
  ok (status r) = true ->
  let raw := fst (BlockBuilder.Finish block) in
  let stored := fst (block_contents_for (compression (options r)) raw
                       (compressed_output r)) in
  WriteBlock r block
  = Some (set_compressed_output
            (set_offset
               (set_status
                  (set_file r ((file r ++ fst stored)
                               ++ block_trailer (fst stored) (snd stored)))
                  OK)
               (u64 (offset r + u64 (size (fst stored) + kBlockTrailerSize))))
            [],
          BlockBuilder.Reset (snd (BlockBuilder.Finish block)),
          mkHandle (offset r) (size (fst stored))).
Proof.
  intros Hok. unfold WriteBlock. rewrite Hok.
  cbn [assert mbind option_bind].
  destruct (BlockBuilder.Finish block) as [raw b1]. cbn [fst snd].
  destruct (block_contents_for _ raw _) as [[contents type] scratch].
  rewrite WriteRawBlock_sink. reflexivity.
Qed.

(** *** A table on a file that never fails *)

(** A block builder as its constructor and [Reset] leave it. *)
Definition fresh_block : BlockBuilder.t :=
  {| BlockBuilder.buffer_ := []; BlockBuilder.restarts_ := [0];
     BlockBuilder.counter_ := 0; BlockBuilder.finished_ := false;
     BlockBuilder.last_key_ := [] |}.

(** A block followed by its trailer, as stored without compression. *)
Definition with_trailer (contents : bytes) : bytes :=
  contents ++ block_trailer contents kNoCompression.

(** The offset after a block of the given size and its trailer. *)
Definition past (offset block_size : Z) : Z :=
  u64 (offset + u64 (block_size + kBlockTrailerSize)).

(** What the writing steps leave alone. *)
Definition setup_kept (r r' : @Rep bytes) : Prop :=
  options r' = options r
  /\ index_block_options r' = index_block_options r
  /\ filter_block r' = filter_block r
  /\ last_key r' = last_key r
  /\ index_block r' = index_block r.

Ltac fields :=
  cbn [options index_block_options file offset status data_block index_block
       last_key num_entries closed filter_block pending_index_entry
       pending_handle compressed_output
       set_file set_offset set_status set_data_block set_index_block
       set_last_key set_num_entries set_closed set_filter_block
       set_pending_index_entry set_pending_handle set_compressed_output].

Ltac fields_all :=
  cbn [options index_block_options file offset status data_block index_block
       last_key num_entries closed filter_block pending_index_entry
       pending_handle compressed_output
       set_file set_offset set_status set_data_block set_index_block
       set_last_key set_num_entries set_closed set_filter_block
       set_pending_index_entry set_pending_handle set_compressed_output] in *.

Lemma Flush_sink (r : @Rep bytes) :
  closed r = false -> status r = OK -> filter_block r = None ->
  pending_index_entry r = false ->
  BlockBuilder.empty (data_block r) = false ->
  compression (options r) = kNoCompression ->
  let D := fst (BlockBuilder.Finish (data_block r)) in
  exists r',
    Flush r = Some r'
    /\ file r' = file r ++ with_trailer D
    /\ offset r' = past (offset r) (size D)
    /\ status r' = OK /\ closed r' = false
    /\ pending_index_entry r' = true
    /\ pending_handle r' = mkHandle (offset r) (size D)
    /\ setup_kept r r'.
Proof.
  intros Hc Hs Hf Hp He Hcomp D.
  unfold Flush.
  rewrite Hc, Hs, He, Hp. cbn [negb ok assert mbind option_bind].
  rewrite WriteBlock_sink by (rewrite Hs; reflexivity).
  rewrite Hcomp. cbn [block_contents_for fst snd mbind option_bind].
  fold D. fields. cbn [ok Flush_file StringSink].
  unfold filter_StartBlock. fields. rewrite Hf.
  eexists. split; [reflexivity|]. fields. unfold with_trailer, setup_kept. fields.
  rewrite <- app_assoc. repeat split; assumption.
Qed.

Lemma write_metaindex_block_sink (r : @Rep bytes) (h : BlockHandle) :
  status r = OK -> filter_block r = None ->
  compression (options r) = kNoCompression ->
  1 <= block_restart_interval (options r) ->
  let M := fst (BlockBuilder.Finish fresh_block) in
  exists r',
    write_metaindex_block r h = Some (r', mkHandle (offset r) (size M))
    /\ file r' = file r ++ with_trailer M
    /\ offset r' = past (offset r) (size M)
    /\ status r' = OK /\ closed r' = closed r
    /\ pending_index_entry r' = pending_index_entry r
    /\ pending_handle r' = pending_handle r
    /\ setup_kept r r'.
Proof.
  intros Hs Hf Hcomp Hint M.
  unfold write_metaindex_block, BlockBuilder.create.
  rewrite Hs, Hf. cbn [ok].
  replace (block_restart_interval (options r) >=? 1) with true
    by (symmetry; apply Z.geb_le; lia).
  cbn [assert mbind option_bind]. fold fresh_block.
  rewrite WriteBlock_sink by (rewrite Hs; reflexivity).
  rewrite Hcomp. cbn [block_contents_for fst snd mbind option_bind].
  fold M.
  eexists. split; [reflexivity|]. fields. unfold with_trailer, setup_kept. fields.
  rewrite <- app_assoc. repeat split; assumption.
Qed.

Lemma write_index_block_sink (r : @Rep bytes) (ib : BlockBuilder.t) :
  status r = OK -> pending_index_entry r = true ->
  compression (options r) = kNoCompression ->
  BlockBuilder.Add (index_block_options r) (index_block r)
    (FindShortSuccessor (comparator (options r)) (last_key r))
    (EncodeTo [] (pending_handle r)) = Some ib ->
  let I := fst (BlockBuilder.Finish ib) in
  exists r',
    write_index_block r = Some (r', mkHandle (offset r) (size I))
    /\ file r' = file r ++ with_trailer I
    /\ offset r' = past (offset r) (size I)
    /\ status r' = OK /\ closed r' = closed r.
Proof.
  intros Hs Hp Hcomp Hib I.
  unfold write_index_block.
  rewrite Hs, Hp. cbn [ok]. fields. rewrite Hib.
  cbn [mbind option_bind]. fields.
  rewrite WriteBlock_sink by (fields; rewrite Hs; reflexivity).
  fields. rewrite Hcomp. cbn [block_contents_for fst snd mbind option_bind].
  fold I.
  eexists. split; [reflexivity|]. fields. unfold with_trailer.
  rewrite <- app_assoc. repeat split.
Qed.

Lemma write_footer_sink (r : @Rep bytes) (h1 h2 : BlockHandle) :
  status r = OK ->
  let r' := write_footer r h1 h2 in
  file r' = file r ++ Footer_EncodeTo h1 h2
  /\ offset r' = u64 (offset r + size (Footer_EncodeTo h1 h2))
  /\ status r' = OK /\ closed r' = closed r.
Proof.
  intros Hs. unfold write_footer. rewrite Hs. cbn [ok Append StringSink].
  fields. cbn [ok]. fields. repeat split.
Qed.

Lemma Finish_sink (r : @Rep bytes) (ib : BlockBuilder.t) :
  closed r = false -> status r = OK -> filter_block r = None ->
  pending_index_entry r = false ->
  BlockBuilder.empty (data_block r) = false ->
  compression (options r) = kNoCompression ->
  1 <= block_restart_interval (options r) ->
  let D := fst (BlockBuilder.Finish (data_block r)) in
  let M := fst (BlockBuilder.Finish fresh_block) in
  let I := fst (BlockBuilder.Finish ib) in
  let metaindex_handle := mkHandle (past (offset r) (size D)) (size M) in
  let index_handle :=
    mkHandle (past (past (offset r) (size D)) (size M)) (size I) in
  BlockBuilder.Add (index_block_options r) (index_block r)
    (FindShortSuccessor (comparator (options r)) (last_key r))
    (EncodeTo [] (mkHandle (offset r) (size D))) = Some ib ->
  exists r',
    Finish r = Some r'
    /\ status r' = OK /\ closed r' = true
    /\ file r' = file r ++ with_trailer D ++ with_trailer M ++ with_trailer I
                 ++ Footer_EncodeTo metaindex_handle index_handle.
Proof.
  intros Hc Hs Hf Hp He Hcomp Hint. cbv zeta. intros Hib.
  destruct (Flush_sink r Hc Hs Hf Hp He Hcomp)
    as (r1 & HF & Hfile1 & Hoff1 & Hs1 & Hc1 & Hp1 & Hh1 & Hk1).
  destruct Hk1 as (Ho1 & Hio1 & Hf1 & Hl1 & Hi1).
  unfold Finish. rewrite HF. cbn [mbind option_bind].
  rewrite Hc1. cbn [negb assert mbind option_bind].
  unfold write_filter_block. fields. rewrite Hf1, Hf.
  destruct (write_metaindex_block_sink (set_closed r1 true) BlockHandle_init)
    as (r2 & HM & Hfile2 & Hoff2 & Hs2 & Hc2 & Hp2 & Hh2 & Hk2).
  { exact Hs1. } { fields. congruence. } { fields. congruence. }
  { fields. rewrite Ho1. exact Hint. }
  destruct Hk2 as (Ho2 & Hio2 & Hf2 & Hl2 & Hi2).
  fields_all.
  rewrite HM. cbn [mbind option_bind].
  destruct (write_index_block_sink r2 ib)
    as (r3 & HI & Hfile3 & Hoff3 & Hs3 & Hc3).
  { exact Hs2. } { congruence. } { congruence. }
  { rewrite Hio2, Hio1, Hi2, Hi1, Ho2, Ho1, Hl2, Hl1, Hh2, Hh1. exact Hib. }
  rewrite HI. cbn [mbind option_bind].
  destruct (write_footer_sink r3
              (mkHandle (offset r1) (size (fst (BlockBuilder.Finish fresh_block))))
              (mkHandle (offset r2) (size (fst (BlockBuilder.Finish ib)))) Hs3)
    as (Hfile4 & Hoff4 & Hs4 & Hc4).
  eexists. split; [reflexivity|].
  split; [exact Hs4|]. split; [congruence|].
  rewrite Hfile4, Hfile3, Hfile2, Hfile1, Hoff2, Hoff1.
  rewrite <- !app_assoc. reflexivity.
Qed.

Lemma u64_small (x : Z) : 0 <= x < 2 ^ 64 -> u64 x = x.
Proof. intros Hx. unfold u64. apply Z.mod_small. exact Hx. Qed.

Lemma Add_no_flush (r : @Rep bytes) (key value : bytes) (db : BlockBuilder.t) :
  closed r = false -> status r = OK -> pending_index_entry r = false ->
  filter_block r = None ->
  (num_entries r = 0
   \/ Compare (comparator (options r)) key (last_key r) > 0) ->
  BlockBuilder.Add (options r) (data_block r) key value = Some db ->
  BlockBuilder.CurrentSizeEstimate db < block_size (options r) ->
  Add r key value
  = Some (set_data_block
            (set_num_entries (set_last_key r key) (num_entries r + 1)) db).
Proof.
  intros Hc Hs Hp Hf Hord Hadd Hest. unfold Add.
  rewrite Hc, Hs, Hp. cbn [negb ok].
  assert (Ha : (if num_entries r >? 0
                then Compare (comparator (options r)) key (last_key r) >? 0
                else true) = true).
  { destruct Hord as [->|Hgt]; [reflexivity|].
    destruct (num_entries r >? 0); [|reflexivity]. apply Z.gtb_lt. lia. }
  rewrite Ha. cbn [assert mbind option_bind]. rewrite Hf. fields.
  rewrite Hadd. cbn [mbind option_bind]. fields.
  destruct (Z.geb_spec (BlockBuilder.CurrentSizeEstimate db)
              (block_size (options r))); [lia|reflexivity].
Qed.

(** The builder [create] returns for the default options on an empty
    file. *)
Definition index_options : Options :=
  mkOptions BytewiseComparator 4096 1 kNoCompression None.

Definition fresh_builder : @Rep bytes :=
  mkRep default_options index_options [] 0 OK fresh_block fresh_block []
    0 false None false BlockHandle_init [].

Lemma create_default : create default_options ([] : bytes) = Some fresh_builder.
Proof. reflexivity. Qed.

Definition apple : bytes := str "apple".
Definition banana : bytes := str "banana".

(** The table of the two keys, on an empty file. *)
Definition build_table (v1 v2 : bytes) : option (@Rep bytes) :=
  r0 ← create default_options ([] : bytes);
  run r0 [CallAdd apple v1; CallAdd banana v2; CallFinish].

Lemma two_key_data_block (v1 v2 : bytes) :
  size v1 + size v2 <= 4000 ->
  let db1 := BlockBuilder.Build (BlockBuilder.Entry 0 apple v1) [0] 1 false apple in
  let db2 := BlockBuilder.Build
               (BlockBuilder.Entry 0 apple v1 ++ BlockBuilder.Entry 0 banana v2)
               [0] 2 false banana in
  BlockBuilder.Add default_options fresh_block apple v1 = Some db1
  /\ BlockBuilder.Add default_options db1 banana v2 = Some db2
  /\ BlockBuilder.CurrentSizeEstimate db1 < 4096
  /\ BlockBuilder.CurrentSizeEstimate db2 < 4096
  /\ BlockBuilder.empty db2 = false.
Proof.
  intros Hv db1 db2.
  pose proof (Zle_0_nat (length v1)) as H1. fold (size v1) in H1.
  pose proof (Zle_0_nat (length v2)) as H2. fold (size v2) in H2.
  pose proof (BlockBuilder.Entry_size_bound 0 apple v1 ltac:(vm_compute; split; discriminate)) as He1.
  pose proof (BlockBuilder.Entry_size_bound 0 banana v2 ltac:(vm_compute; split; discriminate)) as He2.
  change (size apple) with 5 in He1. change (size banana) with 6 in He2.
  pose proof (Zle_0_nat (length (BlockBuilder.Entry 0 apple v1))) as H3.
  fold (size (BlockBuilder.Entry 0 apple v1)) in H3.
  pose proof (Zle_0_nat (length (BlockBuilder.Entry 0 banana v2))) as H4.
  fold (size (BlockBuilder.Entry 0 banana v2)) in H4.
  assert (2 ^ 64 = 18446744073709551616) as Hpow by reflexivity.
  split; [|split; [|split; [|split]]].
  - rewrite BlockBuilder.Add_eq; try reflexivity.
    + cbn. lia.
    + left. reflexivity.
  - rewrite BlockBuilder.Add_eq; try reflexivity.
    + cbn. lia.
    + right. vm_compute. reflexivity.
  - unfold BlockBuilder.CurrentSizeEstimate, db1.
    cbn [BlockBuilder.buffer_ BlockBuilder.restarts_].
    change (u64 (size [0] * 4)) with 4.
    rewrite (u64_small (size _ + 4)) by lia. rewrite u64_small by lia. lia.
  - unfold BlockBuilder.CurrentSizeEstimate, db2.
    cbn [BlockBuilder.buffer_ BlockBuilder.restarts_].
    change (u64 (size [0] * 4)) with 4. rewrite BlockBuilder.size_app.
    rewrite (u64_small (_ + _ + 4)) by lia. rewrite u64_small by lia. lia.
  - apply (BlockBuilder.empty_after_Entry db2 (BlockBuilder.Entry 0 apple v1) 0 banana v2).
    reflexivity.
Qed.

(** *** The footer *)

Definition handle_ok (h : BlockHandle) : Prop :=
  0 <= handle_offset h < 2 ^ 64 /\ 0 <= handle_size h < 2 ^ 64.

Lemma resize_length (s : bytes) (n : Z) :
  length (BlockBuilder.resize s n) = Z.to_nat n.
Proof.
  unfold BlockBuilder.resize. rewrite length_app, length_firstn, repeat_length.
  lia.
Qed.

Lemma EncodeTo_handle (dst : bytes) (h : BlockHandle) :
  EncodeTo dst h
  = dst ++ EncodeVarint 9 (u64 (handle_offset h))
        ++ EncodeVarint 9 (u64 (handle_size h)).
Proof. unfold EncodeTo, PutVarint64. rewrite <- app_assoc. reflexivity. Qed.

Lemma EncodeTo_length (h : BlockHandle) :
  (length (EncodeVarint 9 (u64 (handle_offset h))
           ++ EncodeVarint 9 (u64 (handle_size h))) <= 20)%nat.
Proof.
  rewrite length_app.
  pose proof (EncodeVarint_length 9 (u64 (handle_offset h))).
  pose proof (EncodeVarint_length 9 (u64 (handle_size h))).
  lia.
Qed.

Lemma DecodeFrom_EncodeTo (h : BlockHandle) (rest : bytes) :
  handle_ok h ->
  DecodeFrom ((EncodeVarint 9 (u64 (handle_offset h))
               ++ EncodeVarint 9 (u64 (handle_size h))) ++ rest)
  = Some (h, rest).
Proof.
  intros [Ho Hs]. unfold DecodeFrom. rewrite <- !app_assoc.
  rewrite GetVarint64_PutVarint64 by exact Ho. cbn [mbind option_bind].
  rewrite GetVarint64_PutVarint64 by exact Hs. cbn [mbind option_bind].
  destruct h. reflexivity.
Qed.

(** The footer is 48 bytes long, ends in the magic number and gives the
    two handles back. *)
Lemma Footer_spec (h1 h2 : BlockHandle) :
  handle_ok h1 -> handle_ok h2 ->
  let footer := Footer_EncodeTo h1 h2 in
  length footer = 48%nat
  /\ skipn 40 footer = [x57; xfb; x80; x8b; x24; x75; x47; xdb]
  /\ exists rest1 rest2,
       DecodeFrom footer = Some (h1, rest1)
       /\ DecodeFrom rest1 = Some (h2, rest2).
Proof.
  intros H1 H2. unfold Footer_EncodeTo, PutFixed32.
  rewrite !EncodeTo_handle. cbn [app].
  set (e1 := EncodeVarint 9 (u64 (handle_offset h1))
             ++ EncodeVarint 9 (u64 (handle_size h1))).
  set (e2 := EncodeVarint 9 (u64 (handle_offset h2))
             ++ EncodeVarint 9 (u64 (handle_size h2))).
  pose proof (EncodeTo_length h1) as L1. fold e1 in L1.
  pose proof (EncodeTo_length h2) as L2. fold e2 in L2.
  set (magic := EncodeFixed32 (u32 (Z.land kTableMagicNumber 4294967295))
                ++ EncodeFixed32 (u32 (Z.shiftr kTableMagicNumber 32))).
  rewrite <- app_assoc. fold magic.
  pose proof (resize_length (e1 ++ e2) 40) as Hr.
  split; [|split].
  - rewrite length_app, Hr. reflexivity.
  - rewrite skipn_app, Hr. change (Z.to_nat 40) with 40%nat.
    rewrite skipn_all2 by lia. reflexivity.
  - unfold BlockBuilder.resize.
    rewrite firstn_all2 by (rewrite length_app; change (Z.to_nat 40) with 40%nat; lia).
    rewrite <- !app_assoc.
    eexists. eexists. split.
    + subst e1. apply DecodeFrom_EncodeTo. exact H1.
    + subst e2. apply DecodeFrom_EncodeTo. exact H2.
Qed.

Lemma ReadFooter_Footer (pre : bytes) (h1 h2 : BlockHandle) :
  handle_ok h1 -> handle_ok h2 ->
  ReadFooter (pre ++ Footer_EncodeTo h1 h2) = Some (h1, h2).
Proof.
  intros H1 H2.
  destruct (Footer_spec h1 h2 H1 H2) as (Hlen & _ & rest1 & rest2 & Hd1 & Hd2).
  unfold ReadFooter. unfold size. rewrite length_app, Hlen.
  destruct (Z.ltb_spec (Z.of_nat (length pre + 48)) 48); [lia|].
  replace (length pre + 48 - 48)%nat with (length pre) by lia.
  rewrite skipn_app, Nat.sub_diag, skipn_all, skipn_O. cbn [app].
  rewrite Hd1. cbn [mbind option_bind]. rewrite Hd2. reflexivity.
Qed.

Lemma with_trailer_length (contents : bytes) :
  length (with_trailer contents) = (length contents + 5)%nat.
Proof. unfold with_trailer, block_trailer. rewrite length_app. reflexivity. Qed.

Lemma Finish_size (b : BlockBuilder.t) :
  BlockBuilder.restarts_ b = [0] ->
  size (fst (BlockBuilder.Finish b)) = size (BlockBuilder.buffer_ b) + 8.
Proof.
  intros Hr. unfold BlockBuilder.Finish. rewrite Hr. cbn [fst fold_left].
  unfold PutFixed32. rewrite !BlockBuilder.size_app.
  unfold EncodeFixed32, size. cbn [length]. lia.
Qed.

Lemma ReadBlock_middle (pre block post : bytes) :
  ReadBlock (pre ++ block ++ post) (mkHandle (size pre) (size block)) = block.
Proof.
  unfold ReadBlock, size. cbn [handle_offset handle_size].
  rewrite !Nat2Z.id.
  rewrite skipn_app, Nat.sub_diag, skipn_all, skipn_O. cbn [app].
  rewrite firstn_app, Nat.sub_diag, firstn_all, firstn_O, app_nil_r.
  reflexivity.
Qed.

Lemma EncodeTo_size (h : BlockHandle) : size (EncodeTo [] h) <= 20.
Proof.
  rewrite EncodeTo_handle. cbn [app]. pose proof (EncodeTo_length h) as H.
  unfold size. apply Nat2Z.inj_le in H. exact H.
Qed.

(** The data block of the two keys and the index block with its one
    entry, as the block builders hold them before [Finish]. *)
Definition two_key_data (v1 v2 : bytes) : BlockBuilder.t :=
  BlockBuilder.Build
    (BlockBuilder.Entry 0 apple v1 ++ BlockBuilder.Entry 0 banana v2)
    [0] 2 false banana.

Definition one_entry_index (key value : bytes) : BlockBuilder.t :=
  BlockBuilder.Build (BlockBuilder.Entry 0 key value) [0] 1 false key.

Lemma two_key_data_size (v1 v2 : bytes) :
  size v1 + size v2 <= 4000 ->
  8 <= size (fst (BlockBuilder.Finish (two_key_data v1 v2))) <= 4096.
Proof.
  intros Hv. rewrite Finish_size by reflexivity.
  cbn [BlockBuilder.buffer_ two_key_data].
  pose proof (Zle_0_nat (length v1)) as Hv1. fold (size v1) in Hv1.
  pose proof (Zle_0_nat (length v2)) as Hv2. fold (size v2) in Hv2.
  pose proof (Zle_0_nat (length (BlockBuilder.Entry 0 apple v1
                                 ++ BlockBuilder.Entry 0 banana v2))) as Hb.
  fold (size (BlockBuilder.Entry 0 apple v1
              ++ BlockBuilder.Entry 0 banana v2)) in Hb.
  assert (Ha : 0 <= 0 <= size apple) by (split; discriminate).
  assert (Hbn : 0 <= 0 <= size banana) by (split; discriminate).
  pose proof (BlockBuilder.Entry_size_bound 0 apple v1 Ha) as Hb1.
  pose proof (BlockBuilder.Entry_size_bound 0 banana v2 Hbn) as Hb2.
  change (size apple) with 5 in Hb1. change (size banana) with 6 in Hb2.
  rewrite BlockBuilder.size_app in *. lia.
Qed.

Lemma one_entry_index_size (key value : bytes) :
  size key <= 20 -> size value <= 20 ->
  0 <= size (fst (BlockBuilder.Finish (one_entry_index key value))) <= 100.
Proof.
  intros Hk Hv. rewrite Finish_size by reflexivity.
  cbn [BlockBuilder.buffer_ one_entry_index].
  pose proof (Zle_0_nat (length key)) as Hk0. fold (size key) in Hk0.
  pose proof (BlockBuilder.Entry_size_bound 0 key value ltac:(lia)) as Hb.
  pose proof (Zle_0_nat (length (BlockBuilder.Entry 0 key value))) as Hb0.
  fold (size (BlockBuilder.Entry 0 key value)) in Hb0.
  lia.
Qed.

Definition short_successor_of_banana : bytes :=
  FindShortSuccessor BytewiseComparator banana.

(** The data block, the meta-index block and the index block of the
    two-key table, as written to the file. *)
Definition data_block_bytes (v1 v2 : bytes) : bytes :=
  fst (BlockBuilder.Finish (two_key_data v1 v2)).

Definition metaindex_block_bytes : bytes :=
  [x00; x00; x00; x00; x01; x00; x00; x00].

Definition index_block_bytes (v1 v2 : bytes) : bytes :=
  fst (BlockBuilder.Finish
         (one_entry_index short_successor_of_banana
            (EncodeTo [] (mkHandle 0 (size (data_block_bytes v1 v2)))))).

(** The builder after the first and after the second [Add]. *)
Definition after_apple (v1 : bytes) : @Rep bytes :=
  mkRep default_options index_options [] 0 OK
    (BlockBuilder.Build (BlockBuilder.Entry 0 apple v1) [0] 1 false apple)
    fresh_block apple 1 false None false BlockHandle_init [].

Definition after_banana (v1 v2 : bytes) : @Rep bytes :=
  mkRep default_options index_options [] 0 OK (two_key_data v1 v2)
    fresh_block banana 2 false None false BlockHandle_init [].

Lemma Add_apple (v1 v2 : bytes) :
  size v1 + size v2 <= 4000 ->
  Add fresh_builder apple v1 = Some (after_apple v1).
Proof.
  intros Hv.
  destruct (two_key_data_block v1 v2 Hv) as (Ha1 & Ha2 & He1 & He2 & Hne).
  rewrite (Add_no_flush fresh_builder apple v1 _ eq_refl eq_refl eq_refl
             eq_refl (or_introl eq_refl) Ha1 He1).
  reflexivity.
Qed.

Lemma Add_banana (v1 v2 : bytes) :
  size v1 + size v2 <= 4000 ->
  Add (after_apple v1) banana v2 = Some (after_banana v1 v2).
Proof.
  intros Hv.
  destruct (two_key_data_block v1 v2 Hv) as (Ha1 & Ha2 & He1 & He2 & Hne).
  assert (Hord : num_entries (after_apple v1) = 0
                 \/ Compare (comparator (options (after_apple v1))) banana
                      (last_key (after_apple v1)) > 0).
  { right. vm_compute. reflexivity. }
  rewrite (Add_no_flush (after_apple v1) banana v2 _ eq_refl eq_refl eq_refl
             eq_refl Hord Ha2 He2).
  reflexivity.
Qed.

Lemma Add_index_entry (key value : bytes) :
  size key < 2 ^ 32 ->
  BlockBuilder.Add index_options fresh_block key value
  = Some (one_entry_index key value).
Proof.
  intros Hk. rewrite BlockBuilder.Add_eq.
  - reflexivity.
  - reflexivity.
  - cbn. lia.
  - left. reflexivity.
  - exact Hk.
Qed.

Lemma Finish_two_keys (v1 v2 : bytes) :
  size v1 + size v2 <= 4000 ->
  exists r,
    Finish (after_banana v1 v2) = Some r
    /\ status r = OK
    /\ file r
       = with_trailer (data_block_bytes v1 v2)
         ++ with_trailer metaindex_block_bytes
         ++ with_trailer (index_block_bytes v1 v2)
         ++ Footer_EncodeTo
              (mkHandle (past 0 (size (data_block_bytes v1 v2)))
                 (size metaindex_block_bytes))
              (mkHandle
                 (past (past 0 (size (data_block_bytes v1 v2)))
                    (size metaindex_block_bytes))
                 (size (index_block_bytes v1 v2))).
Proof.
  intros Hv.
  destruct (two_key_data_block v1 v2 Hv) as (_ & _ & _ & _ & Hne).
  assert (Hint : 1 <= block_restart_interval (options (after_banana v1 v2)))
    by (cbn; lia).
  assert (Hk : size short_successor_of_banana < 2 ^ 32)
    by (vm_compute; reflexivity).
  pose proof (Add_index_entry short_successor_of_banana
                (EncodeTo [] (mkHandle 0 (size (data_block_bytes v1 v2)))) Hk)
    as Hib.
  destruct (Finish_sink (after_banana v1 v2) _ eq_refl eq_refl eq_refl eq_refl
              Hne eq_refl Hint Hib)
    as (r & HF & Hst & _ & Hfile).
  exists r. split; [exact HF|]. split; [exact Hst|]. exact Hfile.
Qed.

(** A file made of three blocks with their trailers and a footer that
    points at the second and the third gives them back. *)
Lemma three_block_file (D M I : bytes) :
  size D + size M + size I + 15 < 2 ^ 64 ->
  let mh := mkHandle (size D + 5) (size M) in
  let ih := mkHandle (size D + 5 + size M + 5) (size I) in
  let contents :=
    with_trailer D ++ with_trailer M ++ with_trailer I
    ++ Footer_EncodeTo mh ih in
  ReadBlock contents (mkHandle 0 (size D)) = D
  /\ metaindex_block_of contents = Some M
  /\ index_block_of contents = Some I
  /\ length (Footer_EncodeTo mh ih) = 48%nat
  /\ skipn 40 (Footer_EncodeTo mh ih)
     = [x57; xfb; x80; x8b; x24; x75; x47; xdb].
Proof.
  intros Hsz mh ih contents.
  pose proof (Zle_0_nat (length D)) as HD. fold (size D) in HD.
  pose proof (Zle_0_nat (length M)) as HM. fold (size M) in HM.
  pose proof (Zle_0_nat (length I)) as HI. fold (size I) in HI.
  assert (Hmh : handle_ok mh).
  { split; unfold mh; cbn [handle_offset handle_size]; lia. }
  assert (Hih : handle_ok ih).
  { split; unfold ih; cbn [handle_offset handle_size]; lia. }
  destruct (Footer_spec mh ih Hmh Hih) as (Hflen & Hmagic & _).
  assert (Hfoot : ReadFooter contents = Some (mh, ih)).
  { unfold contents. rewrite !app_assoc. apply ReadFooter_Footer; assumption. }
  split; [|split; [|split; [|split]]].
  - unfold contents. unfold with_trailer at 1. rewrite <- app_assoc.
    apply (ReadBlock_middle [] D).
  - unfold metaindex_block_of. rewrite Hfoot. cbn [mbind option_bind].
    f_equal. unfold contents. unfold with_trailer at 2. rewrite <- !app_assoc.
    replace mh with (mkHandle (size (with_trailer D)) (size M)).
    + apply (ReadBlock_middle (with_trailer D) M).
    + unfold mh, size. rewrite with_trailer_length. f_equal. lia.
  - unfold index_block_of. rewrite Hfoot. cbn [mbind option_bind].
    f_equal. unfold contents. unfold with_trailer at 3. rewrite <- !app_assoc.
    replace ih
      with (mkHandle (size (with_trailer D ++ with_trailer M)) (size I)).
    + rewrite (app_assoc (with_trailer D)).
      apply (ReadBlock_middle (with_trailer D ++ with_trailer M) I).
    + unfold ih, size. rewrite length_app, !with_trailer_length. f_equal. lia.
  - exact Hflen.
  - exact Hmagic.
Qed.

Lemma BuildBlock_two_keys (v1 v2 : bytes) :
  size v1 + size v2 <= 4000 ->
  BlockBuilder.BuildBlock default_options [(apple, v1); (banana, v2)]
  = Some (data_block_bytes v1 v2).
Proof.
  intros Hv.
  destruct (two_key_data_block v1 v2 Hv) as (Ha1 & Ha2 & _).
  unfold BlockBuilder.BuildBlock.
  change (BlockBuilder.create default_options) with (Some fresh_block).
  cbn [mbind option_bind BlockBuilder.AddAll].
  rewrite Ha1. cbn [mbind option_bind]. rewrite Ha2. reflexivity.
Qed.

Lemma BuildBlock_index_entry (key value : bytes) :
  size key < 2 ^ 32 ->
  BlockBuilder.BuildBlock index_options [(key, value)]
  = Some (fst (BlockBuilder.Finish (one_entry_index key value))).
Proof.
  intros Hk. unfold BlockBuilder.BuildBlock.
  change (BlockBuilder.create index_options) with (Some fresh_block).
  cbn [mbind option_bind BlockBuilder.AddAll].
  rewrite Add_index_entry by exact Hk. reflexivity.
Qed.

Lemma DecodeBlock_two_keys (v1 v2 : bytes) :
  size v1 + size v2 <= 4000 ->
  BlockBuilder.DecodeBlock (data_block_bytes v1 v2)
  = Some [(apple, v1); (banana, v2)].
Proof.
  intros Hv.
  pose proof (Zle_0_nat (length v1)) as Hv1. fold (size v1) in Hv1.
  pose proof (Zle_0_nat (length v2)) as Hv2. fold (size v2) in Hv2.
  assert (2 ^ 32 = 4294967296) as Hp32 by reflexivity.
  destruct (BlockBuilder.BuildBlock_DecodeBlock default_options
              [(apple, v1); (banana, v2)]) as (blk & Hb & Hd).
  - cbn. lia.
  - cbn. split; [|constructor]. vm_compute. reflexivity.
  - constructor; [|constructor; [|constructor]]; cbn [fst snd];
      (split; [vm_compute; reflexivity|lia]).
  - intros block. rewrite BuildBlock_two_keys by exact Hv. intros Heq.
    assert (block = data_block_bytes v1 v2) as -> by congruence.
    pose proof (two_key_data_size v1 v2 Hv) as Hsize.
    unfold data_block_bytes. lia.
  - rewrite BuildBlock_two_keys in Hb by exact Hv. injection Hb as <-. exact Hd.
Qed.

Lemma DecodeBlock_index_entry (key value : bytes) :
  size key <= 20 -> size value <= 20 ->
  BlockBuilder.DecodeBlock
    (fst (BlockBuilder.Finish (one_entry_index key value)))
  = Some [(key, value)].
Proof.
  intros Hk Hv.
  assert (2 ^ 32 = 4294967296) as Hp32 by reflexivity.
  destruct (BlockBuilder.BuildBlock_DecodeBlock index_options [(key, value)])
    as (blk & Hb & Hd).
  - cbn. lia.
  - constructor.
  - constructor; [|constructor]. cbn [fst snd]. lia.
  - intros block. rewrite BuildBlock_index_entry by lia. intros Heq.
    assert (block = fst (BlockBuilder.Finish (one_entry_index key value)))
      as -> by congruence.
    pose proof (one_entry_index_size key value Hk Hv) as Hsize. lia.
  - rewrite BuildBlock_index_entry in Hb by lia. injection Hb as <-. exact Hd.
Qed.

Lemma run3 (r0 r1 r2 r3 : @Rep bytes) (c1 c2 c3 : call) :
  step r0 c1 = Some r1 -> step r1 c2 = Some r2 -> step r2 c3 = Some r3 ->
  run r0 [c1; c2; c3] = Some r3.
Proof.
  intros H1 H2 H3. cbn [run]. rewrite H1. cbn [mbind option_bind].
  rewrite H2. cbn [mbind option_bind]. rewrite H3. reflexivity.
Qed.

Lemma build_table_run (v1 v2 : bytes) :
  build_table v1 v2
  = run fresh_builder [CallAdd apple v1; CallAdd banana v2; CallFinish].
Proof. unfold build_table. rewrite create_default. reflexivity. Qed.

(** C5, amended.  The table built from the keys [apple] and [banana]
    (any two values that fit one data block) with the default options, no
    filter policy and no compression is exactly: the data block and its
    5-byte trailer; a meta-index block with no entry at all (the 8 bytes
    of an empty block) and its trailer; an index block with one entry,
    whose key is the comparator's short successor of [banana] and whose
    value is the encoded handle of the data block, and its trailer; and a
    footer of 48 bytes that ends in the magic number [0xdb4775248b80fb57],
    little-endian, and locates the meta-index and the index block. *)
Theorem two_key_table_shape (v1 v2 : bytes) :
  size v1 + size v2 <= 4000 ->
  exists r,
    build_table v1 v2 = Some r
    /\ status r = OK
    /\ let D := data_block_bytes v1 v2 in
       let M := metaindex_block_bytes in
       let Ix := index_block_bytes v1 v2 in
       let footer :=
         Footer_EncodeTo (mkHandle (size D + 5) (size M))
           (mkHandle (size D + 5 + size M + 5) (size Ix)) in
       file r = with_trailer D ++ with_trailer M ++ with_trailer Ix ++ footer
       /\ length (block_trailer D kNoCompression) = 5%nat
       /\ BlockBuilder.DecodeBlock D = Some [(apple, v1); (banana, v2)]
       /\ BlockBuilder.DecodeBlock M = Some []
       /\ BlockBuilder.DecodeBlock Ix
          = Some [(short_successor_of_banana,
                   EncodeTo [] (mkHandle 0 (size D)))]
       /\ length footer = 48%nat
       /\ skipn 40 footer = [x57; xfb; x80; x8b; x24; x75; x47; xdb]
       /\ ReadBlock (file r) (mkHandle 0 (size D)) = D
       /\ metaindex_block_of (file r) = Some M
       /\ index_block_of (file r) = Some Ix.
Proof.
  intros Hv.
  destruct (Finish_two_keys v1 v2 Hv) as (r & HF & Hst & Hfile).
  pose proof (two_key_data_size v1 v2 Hv) as HD.
  fold (data_block_bytes v1 v2) in HD.
  pose proof (EncodeTo_size (mkHandle 0 (size (data_block_bytes v1 v2))))
    as Henc.
  assert (Hk : size short_successor_of_banana <= 20) by discriminate.
  pose proof (one_entry_index_size _ _ Hk Henc) as HI.
  fold (index_block_bytes v1 v2) in HI.
  assert (2 ^ 64 = 18446744073709551616) as Hpow by reflexivity.
  assert (HM : size metaindex_block_bytes = 8) by reflexivity.
  assert (Hp1 : past 0 (size (data_block_bytes v1 v2))
                = size (data_block_bytes v1 v2) + 5).
  { unfold past, kBlockTrailerSize.
    rewrite (u64_small (_ + 5)) by lia. rewrite u64_small by lia. lia. }
  assert (Hp2 : past (size (data_block_bytes v1 v2) + 5)
                  (size metaindex_block_bytes)
                = size (data_block_bytes v1 v2) + 5
                  + size metaindex_block_bytes + 5).
  { unfold past, kBlockTrailerSize. rewrite HM.
    rewrite (u64_small (8 + 5)) by lia. rewrite u64_small by lia. lia. }
  rewrite Hp1, Hp2 in Hfile.
  destruct (three_block_file (data_block_bytes v1 v2) metaindex_block_bytes
              (index_block_bytes v1 v2))
    as (Hr1 & Hr2 & Hr3 & Hflen & Hmagic); [lia|].
  exists r. split.
  { rewrite build_table_run.
    apply (run3 fresh_builder (after_apple v1) (after_banana v1 v2) r).
    - exact (Add_apple v1 v2 Hv).
    - exact (Add_banana v1 v2 Hv).
    - exact HF. }
  split; [exact Hst|]. cbv zeta.
  rewrite Hfile.
  split; [reflexivity|]. split; [reflexivity|].
  split; [apply DecodeBlock_two_keys; exact Hv|].
  split; [reflexivity|].
  split; [apply DecodeBlock_index_entry; assumption|].
  split; [exact Hflen|]. split; [exact Hmagic|].
  split; [exact Hr1|]. split; [exact Hr2|exact Hr3].
Qed.

(** *** Compression on a file that never fails *)

Lemma block_trailer_type (contents : bytes) (type : CompressionType) :
  hd_error (block_trailer contents type)
  = Some (byte_of_Z (CompressionType_value type)).
Proof. reflexivity. Qed.

(** With Snappy compression selected, [WriteBlock] stores the compressed
    form, under the type byte of Snappy, exactly when Snappy produced one
    and the test of the code holds for it, [compressed < raw - raw / 8],
    that is [8 * compressed < 7 * raw].  In every other case the raw bytes
    are stored and the trailer carries the type byte of
    [kNoCompression]. *)
Lemma WriteBlock_snappy
    (r : @Rep bytes) (block : BlockBuilder.t) :
  compression (options r) = kSnappyCompression ->
  ok (status r) = true ->
  let raw := fst (BlockBuilder.Finish block) in
  exists r' block' handle,
    WriteBlock r block = Some (r', block', handle)
    /\ match Snappy_Compress raw with
       | Some compressed =>
           if 8 * size compressed <? 7 * size raw
           then file r' = file r ++ compressed
                          ++ block_trailer compressed kSnappyCompression
                /\ handle_size handle = size compressed
           else file r' = file r ++ raw ++ block_trailer raw kNoCompression
                /\ handle_size handle = size raw
       | None =>
           file r' = file r ++ raw ++ block_trailer raw kNoCompression
           /\ handle_size handle = size raw
       end.
Proof.
  intros Hc Hok raw.
  rewrite (WriteBlock_sink r block Hok). rewrite Hc. fold raw.
  pose proof (block_contents_for_snappy raw (compressed_output r)) as Hs.
  eexists. eexists. eexists. split; [reflexivity|]. fields.
  cbn [handle_size].
  destruct (Snappy_Compress raw) as [compressed|].
  - destruct (8 * size compressed <? 7 * size raw);
      rewrite Hs; cbn [fst snd]; rewrite <- app_assoc; split; reflexivity.
  - rewrite Hs. cbn [fst snd]. rewrite <- app_assoc. split; reflexivity.
Qed.

(** C6, the code at the failing input: a compressed form that is
    exactly 12.5% smaller than the raw block, [8 * compressed = 7 * raw].
    It is at least 12.5% smaller, and it is not "compressed less than
    12.5%", the case for which the comment in [WriteBlock] says the
    uncompressed form is stored; yet [WriteBlock] stores the raw bytes,
    under the type byte of [kNoCompression], whatever the Snappy binding
    and the checksum are. *)
Theorem exactly_eighth_smaller_stored_raw
    (r : @Rep bytes) (block : BlockBuilder.t) (compressed : bytes) :
  compression (options r) = kSnappyCompression ->
  ok (status r) = true ->
  let raw := fst (BlockBuilder.Finish block) in
  Snappy_Compress raw = Some compressed ->
  8 * size compressed = 7 * size raw ->
  exists r' block' handle,
    WriteBlock r block = Some (r', block', handle)
    /\ file r' = file r ++ raw ++ block_trailer raw kNoCompression
    /\ hd_error (block_trailer raw kNoCompression)
       = Some (byte_of_Z (CompressionType_value kNoCompression))
    /\ handle_size handle = size raw.
Proof.
  intros Hc Hok raw Hsnappy Hsize.
  destruct (WriteBlock_snappy r block Hc Hok)
    as (r' & block' & handle & Hw & Hstored).
  fold raw in Hstored. rewrite Hsnappy in Hstored.
  destruct (Z.ltb_spec (8 * size compressed) (7 * size raw)); [lia|].
  destruct Hstored as [Hfile Hhandle].
  exists r', block', handle. by rewrite block_trailer_type.
Qed.

End Sink.


(** *** The theorems at concrete inputs *)

(** A Snappy binding that keeps the first half of its input. *)
Definition HalfPort : Port :=
  {| Snappy_Compress raw := Some (firstn (length raw / 2) raw);
     crc32c_Value := byte_sum;
     crc32c_Extend crc b := u32 (crc + byte_sum b);
     crc32c_Mask := rotate_mask |}.

(** The table of [apple -> red] and [banana -> yellow]. *)
Lemma two_key_table_shape_witness :
  exists r,
    build_table (port := PlainPort) (str "red") (str "yellow") = Some r
    /\ status r = OK
    /\ let D := data_block_bytes (str "red") (str "yellow") in
       let M := metaindex_block_bytes in
       let Ix := index_block_bytes (str "red") (str "yellow") in
       let footer :=
         Footer_EncodeTo (mkHandle (size D + 5) (size M))
           (mkHandle (size D + 5 + size M + 5) (size Ix)) in
       file r = with_trailer (port := PlainPort) D
                ++ with_trailer (port := PlainPort) M
                ++ with_trailer (port := PlainPort) Ix ++ footer
       /\ length (block_trailer (port := PlainPort) D kNoCompression) = 5%nat
       /\ BlockBuilder.DecodeBlock D
          = Some [(apple, str "red"); (banana, str "yellow")]
       /\ BlockBuilder.DecodeBlock M = Some []
       /\ BlockBuilder.DecodeBlock Ix
          = Some [(short_successor_of_banana,
                   EncodeTo [] (mkHandle 0 (size D)))]
       /\ length footer = 48%nat
       /\ skipn 40 footer = [x57; xfb; x80; x8b; x24; x75; x47; xdb]
       /\ ReadBlock (file r) (mkHandle 0 (size D)) = D
       /\ metaindex_block_of (file r) = Some M
       /\ index_block_of (file r) = Some Ix.
Proof.
  apply (two_key_table_shape (port := PlainPort) (str "red") (str "yellow")).
  vm_compute. discriminate.
Defined.

(** The statement of the spec: the meta-index block of the file, found
    through the footer, holds one entry. *)
Definition one_entry_metaindex (contents : bytes) : Prop :=
  exists M entry,
    metaindex_block_of contents = Some M
    /\ BlockBuilder.DecodeBlock M = Some [entry].

(** C5, as the spec states it, fails: without a filter policy the
    meta-index block of the two-key table has no entry. *)
Lemma two_key_table_counterexample :
  exists r,
    build_table (port := PlainPort) (str "red") (str "yellow") = Some r
    /\ filter_policy (options r) = None
    /\ compression (options r) = kNoCompression
    /\ ~ one_entry_metaindex (file r).
Proof.
  eexists. split; [vm_compute; reflexivity|].
  split; [reflexivity|]. split; [reflexivity|].
  intros (M & entry & HM & Hd).
  vm_compute in HM. injection HM as <-.
  vm_compute in Hd. discriminate.
Qed.

(** A builder with Snappy selected, on an empty file. *)
Definition snappy_options : Options :=
  mkOptions BytewiseComparator 4096 16 kSnappyCompression None.

Definition snappy_builder : @Rep bytes :=
  mkRep snappy_options
    (mkOptions BytewiseComparator 4096 1 kSnappyCompression None)
    [] 0 OK fresh_block fresh_block [] 0 false None false BlockHandle_init [].

Example create_snappy :
  create snappy_options ([] : bytes) = Some snappy_builder.
Proof. reflexivity. Qed.

(** A block of two entries that the halving port compresses. *)
Example WriteBlock_snappy_halved :
  let block := two_key_data (str "red") (str "yellow") in
  let raw := fst (BlockBuilder.Finish block) in
  exists r' block' handle compressed,
    WriteBlock (port := HalfPort) snappy_builder block
    = Some (r', block', handle)
    /\ Snappy_Compress (Port := HalfPort) raw = Some compressed
    /\ (8 * size compressed <? 7 * size raw) = true
    /\ file r' = file snappy_builder ++ compressed
                 ++ block_trailer (port := HalfPort) compressed
                      kSnappyCompression.
Proof. do 4 eexists. repeat split; reflexivity. Qed.

(** The raw form of an empty block has 8 bytes; a Snappy binding that
    returns 7 of them has made it exactly 12.5% smaller, and the 8 raw
    bytes are stored. *)
Lemma exactly_eighth_smaller_stored_raw_witness :
  let raw := fst (BlockBuilder.Finish fresh_block) in
  size raw = 8
  /\ option_map size (Snappy_Compress (Port := ShrinkPort) raw) = Some 7
  /\ exists r' block' handle,
       WriteBlock (port := ShrinkPort) snappy_builder fresh_block
       = Some (r', block', handle)
       /\ file r' = file snappy_builder ++ raw
                    ++ block_trailer (port := ShrinkPort) raw kNoCompression
       /\ hd_error (block_trailer (port := ShrinkPort) raw kNoCompression)
          = Some (byte_of_Z (CompressionType_value kNoCompression))
       /\ handle_size handle = size raw.
Proof.
  split; [reflexivity|]. split; [reflexivity|].
  apply (exactly_eighth_smaller_stored_raw (port := ShrinkPort)
           snappy_builder fresh_block
           (removelast (fst (BlockBuilder.Finish fresh_block))));
    reflexivity.
Defined.

(** A builder whose file refuses every append, after [Add] and a [Flush]
    that failed. *)
Definition failed_builder : @Rep FaultyFile :=
  mkRep default_options index_options (mkFaulty [] 0) 0 (IOError "append")
    fresh_block fresh_block apple 1 false None false
    (mkHandle 0 (size (fst (BlockBuilder.Finish
                              (BlockBuilder.Build
                                 (BlockBuilder.Entry 0 apple (str "red"))
                                 [0] 1 false apple)))))
    [].

Example failed_builder_reached :
  (r0 ← create default_options (mkFaulty [] 0);
   run (port := PlainPort) r0 [CallAdd apple (str "red"); CallFlush])
  = Some failed_builder.
Proof. vm_compute. reflexivity. Qed.

(** A builder on a recorded file that takes two appends and then fails
    every operation. *)
Definition recorded_builder : @Rep (Recorded FaultyFile) :=
  mkRep default_options index_options (mkRecorded (mkFaulty [] 2) []) 0 OK
    fresh_block fresh_block [] 0 false None false BlockHandle_init [].

Example create_recorded :
  create default_options (mkRecorded (mkFaulty [] 2) [])
  = Some recorded_builder.
Proof. reflexivity. Qed.




(** The builder after two [Add] calls and a [Flush]: the index entry is
    pending and the data block is empty again. *)
Lemma pending_index_entry_invariant_witness :
  exists r,
    run (port := PlainPort) fresh_builder
      [CallAdd apple (str "red"); CallAdd banana (str "yellow"); CallFlush]
    = Some r
    /\ pending_index_entry r = true
    /\ BlockBuilder.empty (data_block r) = true.
Proof.
  eexists. split; [vm_compute; reflexivity|]. split; [reflexivity|].
  eapply (pending_index_entry_invariant (port := PlainPort) default_options
            ([] : bytes)
            [CallAdd apple (str "red"); CallAdd banana (str "yellow");
             CallFlush] fresh_builder).
  - reflexivity.
  - vm_compute. reflexivity.
  - reflexivity.
Defined.

(** *** After [Finish] or [Abandon] *)

Section Closed.

Context {F : Type} {file_ops : WritableFile F} {port : Port}.

Lemma WriteRawBlock_closed (r : @Rep F) contents type :
  closed (fst (WriteRawBlock r contents type)) = closed r.
Proof. apply (WriteRawBlock_frame r contents type). Qed.

Lemma WriteBlock_closed (r : @Rep F) block r' block' handle :
  WriteBlock r block = Some (r', block', handle) -> closed r' = closed r.
Proof. intros H. apply (WriteBlock_frame _ _ _ _ _ H). Qed.

Lemma Finish_closes (r r' : @Rep F) : Finish r = Some r' -> closed r' = true.
Proof.
  unfold Finish. destruct (Flush r) as [r1|]; [|discriminate].
  cbn [mbind option_bind].
  destruct (negb (closed r1)); [|discriminate]. cbn [assert mbind option_bind].
  assert (H2 : closed (fst (write_filter_block (set_closed r1 true))) = true).
  { unfold write_filter_block.
    destruct (filter_block (set_closed r1 true)) as [[policy fb]|]; [|done].
    destruct (ok _); [|done].
    destruct (FilterBlock.Finish policy fb) as [contents fb'].
    by rewrite WriteRawBlock_closed. }
  destruct (write_filter_block (set_closed r1 true)) as [r2 h2].
  cbn [fst] in H2.
  unfold write_metaindex_block.
  assert (H3 : forall r3 h3,
            (if ok (status r2)
             then meta_index_block ← BlockBuilder.create (options r2);
                  meta_index_block ←
                    match filter_block r2 with
                    | Some _ =>
                        match filter_policy (options r2) with
                        | Some policy =>
                            BlockBuilder.Add (options r2) meta_index_block
                              (str "filter." ++ FilterPolicy.Name policy)
                              (EncodeTo [] h2)
                        | None => None
                        end
                    | None => Some meta_index_block
                    end;
                  '(r, _, handle) ← WriteBlock r2 meta_index_block;
                  Some (r, handle)
             else Some (r2, BlockHandle_init)) = Some (r3, h3) ->
            closed r3 = true).
  { intros r3 h3. destruct (ok (status r2)); [|by intros [= <- _]].
    destruct (BlockBuilder.create _) as [mb|]; [|discriminate].
    cbn [mbind option_bind].
    destruct (match filter_block r2 with Some _ => _ | None => _ end)
      as [mb'|]; [|discriminate].
    cbn [mbind option_bind].
    destruct (WriteBlock r2 mb') as [[[r4 b4] h4]|] eqn:Hw; [|discriminate].
    cbn [mbind option_bind]. intros [= <- _].
    by rewrite (WriteBlock_closed _ _ _ _ _ Hw). }
  destruct (if ok (status r2) then _ else _) as [[r3 h3]|] eqn:H3e;
    [|discriminate].
  specialize (H3 r3 h3 eq_refl). cbn [mbind option_bind].
  assert (H4 : forall r4 h4,
            write_index_block r3 = Some (r4, h4) -> closed r4 = true).
  { intros r4 h4. unfold write_index_block.
    destruct (ok (status r3)); [|by intros [= <- _]].
    destruct (if pending_index_entry r3 then _ else _) as [r5|] eqn:H5;
      [|discriminate].
    assert (closed r5 = true) as Hc5.
    { destruct (pending_index_entry r3); [|by injection H5 as <-].
      destruct (BlockBuilder.Add _ _ _ _); [|discriminate].
      by injection H5 as <-. }
    cbn [mbind option_bind].
    destruct (WriteBlock r5 (index_block r5)) as [[[r6 b6] h6]|] eqn:Hw;
      [|discriminate].
    cbn [mbind option_bind]. intros [= <- _]. cbn.
    by rewrite (WriteBlock_closed _ _ _ _ _ Hw). }
  destruct (write_index_block r3) as [[r4 h4]|] eqn:H4e; [|discriminate].
  specialize (H4 r4 h4 eq_refl). cbn [mbind option_bind].
  intros [= <-]. unfold write_footer.
  destruct (ok (status r4)); [|done].
  destruct (Append (file r4) _) as [f1 s1]. cbn.
  by destruct (ok s1).
Qed.

(** Once [Finish] or [Abandon] has returned, every further call of
    [Add], [Flush], [Finish] or [Abandon] fails its assertion. *)
Theorem closed_builder_rejects_calls (r r' : @Rep F) (c : call) :
  Finish r = Some r' \/ Abandon r = Some r' ->
  step r' c = None /\ Abandon r' = None.
Proof.
  intros Hdone.
  assert (Hc : closed r' = true).
  { destruct Hdone as [H|H]; [by eapply Finish_closes|].
    unfold Abandon in H. destruct (negb (closed r)); [|discriminate].
    by injection H as <-. }
  split.
  - destruct c as [key value| |]; cbn [step]; unfold Finish, Flush, Add;
      by rewrite Hc.
  - unfold Abandon. by rewrite Hc.
Qed.

End Closed.

(** *** Accounting on a file that never fails *)

Section Accounting.

Context {port : Port}.

(** The builder has seen no error, and [offset] counts the bytes it
    appended to the file it was given. *)
Definition bytes_accounted (f0 : bytes) (r : @Rep bytes) : Prop :=
  status r = OK
  /\ exists w, file r = f0 ++ w /\ offset r = u64 (size w).

(** What the writing steps leave alone. *)
Definition counts_kept (r r' : @Rep bytes) : Prop :=
  num_entries r' = num_entries r /\ last_key r' = last_key r.

Lemma block_trailer_size contents type :
  size (block_trailer contents type) = kBlockTrailerSize.
Proof. reflexivity. Qed.

Lemma u64_add_size (w extra : bytes) :
  u64 (u64 (size w) + size extra) = u64 (size (w ++ extra)).
Proof.
  rewrite BlockBuilder.size_app. unfold u64.
  by rewrite Z.add_mod_idemp_l by lia.
Qed.

Lemma WriteRawBlock_written f0 (r : @Rep bytes) contents type :
  bytes_accounted f0 r ->
  bytes_accounted f0 (fst (WriteRawBlock r contents type))
  /\ counts_kept r (fst (WriteRawBlock r contents type)).
Proof.
  intros (Hs & w & Hfile & Hoff). rewrite WriteRawBlock_sink. cbn.
  split; [|done]. split; [done|].
  exists (w ++ contents ++ block_trailer contents type). split.
  - rewrite Hfile. by rewrite <- !app_assoc.
  - rewrite Hoff. rewrite <- u64_add_size.
    rewrite BlockBuilder.size_app, block_trailer_size. unfold u64.
    by rewrite Z.add_mod_idemp_r by lia.
Qed.

Lemma WriteBlock_written f0 (r : @Rep bytes) block r' block' handle :
  bytes_accounted f0 r -> WriteBlock r block = Some (r', block', handle) ->
  bytes_accounted f0 r' /\ counts_kept r r'.
Proof.
  intros Hw. unfold WriteBlock.
  destruct (ok (status r)); [|cbn; discriminate]. cbn [assert mbind option_bind].
  destruct (BlockBuilder.Finish block) as [raw b1].
  destruct (block_contents_for _ raw _) as [[contents type] scratch].
  pose proof (WriteRawBlock_written f0 (set_compressed_output r scratch)
                contents type Hw) as [Hw1 Hk1].
  destruct (WriteRawBlock _ contents type) as [r1 h1]. cbn [fst] in *.
  intros [= <- _ _]. done.
Qed.

Lemma filter_StartBlock_written f0 (r r' : @Rep bytes) block_offset :
  bytes_accounted f0 r -> filter_StartBlock r block_offset = Some r' ->
  bytes_accounted f0 r' /\ counts_kept r r'.
Proof.
  intros Hw. unfold filter_StartBlock.
  destruct (filter_block r) as [[policy fb]|]; [|by intros [= <-]].
  destruct (FilterBlock.StartBlock policy fb block_offset); [|cbn; discriminate].
  by intros [= <-].
Qed.

Lemma counts_kept_trans (r1 r2 r3 : @Rep bytes) :
  counts_kept r1 r2 -> counts_kept r2 r3 -> counts_kept r1 r3.
Proof. unfold counts_kept. intuition congruence. Qed.

Lemma Flush_written f0 (r r' : @Rep bytes) :
  bytes_accounted f0 r -> Flush r = Some r' -> bytes_accounted f0 r' /\ counts_kept r r'.
Proof.
  intros Hw. unfold Flush.
  destruct (negb (closed r)); [|cbn; discriminate]. cbn [assert mbind option_bind].
  destruct Hw as (Hs & Hw). rewrite Hs. cbn [ok negb].
  destruct (BlockBuilder.empty (data_block r)).
  { intros [= <-]. by repeat split. }
  destruct (negb (pending_index_entry r)); [|cbn; discriminate].
  cbn [assert mbind option_bind].
  destruct (WriteBlock r (data_block r)) as [[[r1 b1] h1]|] eqn:HW;
    [|cbn; discriminate].
  destruct (WriteBlock_written f0 r _ _ _ _ (conj Hs Hw) HW)
    as ((Hs1 & Hw1) & Hk1).
  cbn [mbind option_bind]. cbn [status set_pending_handle set_data_block].
  rewrite Hs1. cbn [ok Flush_file StringSink].
  intros Hf. eapply filter_StartBlock_written in Hf as [Hw2 Hk2].
  - split; [exact Hw2|]. eapply counts_kept_trans; [|exact Hk2]. exact Hk1.
  - by split.
Qed.

Lemma Add_written f0 (r r' : @Rep bytes) key value :
  bytes_accounted f0 r -> Add r key value = Some r' ->
  bytes_accounted f0 r' /\ num_entries r' = num_entries r + 1 /\ last_key r' = key.
Proof.
  intros Hw. unfold Add.
  destruct (negb (closed r)); [|cbn; discriminate]. cbn [assert mbind option_bind].
  destruct Hw as (Hs & Hw). rewrite Hs. cbn [ok negb].
  destruct (assert (if num_entries r >? 0 then _ else true)) as [[]|];
    [|cbn; discriminate].
  cbn [mbind option_bind].
  destruct (if pending_index_entry r then _ else _) as [r1|] eqn:H1;
    [|cbn; discriminate].
  assert (Hr1 : bytes_accounted f0 r1 /\ num_entries r1 = num_entries r).
  { destruct (pending_index_entry r); [|by injection H1 as <-].
    destruct (assert (BlockBuilder.empty (data_block r))) as [[]|];
      [|cbn in H1; discriminate].
    cbn [mbind option_bind] in H1.
    destruct (BlockBuilder.Add _ _ _ _); [|cbn; discriminate].
    by injection H1 as <-. }
  destruct Hr1 as (Hw1 & Hn1). cbn [mbind option_bind].
  set (r2 := match filter_block r1 with
             | Some (policy, fb) =>
                 set_filter_block r1 (Some (policy, FilterBlock.AddKey fb key))
             | None => r1
             end).
  assert (Hr2 : bytes_accounted f0 r2 /\ num_entries r2 = num_entries r).
  { subst r2. by destruct (filter_block r1) as [[policy fb]|]. }
  destruct Hr2 as (Hw2 & Hn2).
  cbn [options data_block set_num_entries set_last_key].
  destruct (BlockBuilder.Add (options r2) (data_block r2) key value)
    as [db|]; [|cbn; discriminate].
  cbn [mbind option_bind].
  set (r3 := set_data_block _ db).
  assert (Hr3 : bytes_accounted f0 r3 /\ num_entries r3 = num_entries r + 1
                /\ last_key r3 = key).
  { subst r3. cbn. by rewrite Hn2. }
  destruct Hr3 as (Hw3 & Hn3 & Hl3).
  destruct (_ >=? _); [|by intros [= <-]].
  intros Hf. destruct (Flush_written f0 r3 r' Hw3 Hf) as (Hw4 & Hn4 & Hl4).
  split; [done|]. split; congruence.
Qed.

Lemma write_footer_written f0 (r : @Rep bytes) h1 h2 :
  bytes_accounted f0 r ->
  bytes_accounted f0 (write_footer r h1 h2) /\ counts_kept r (write_footer r h1 h2).
Proof.
  intros (Hs & w & Hfile & Hoff). unfold write_footer. rewrite Hs.
  cbn [ok Append StringSink]. cbn. split; [|done]. split; [done|].
  exists (w ++ Footer_EncodeTo h1 h2). split.
  - rewrite Hfile. by rewrite <- app_assoc.
  - by rewrite Hoff, u64_add_size.
Qed.

Lemma Finish_written f0 (r r' : @Rep bytes) :
  bytes_accounted f0 r -> Finish r = Some r' ->
  bytes_accounted f0 r' /\ num_entries r' = num_entries r.
Proof.
  intros Hw. unfold Finish.
  destruct (Flush r) as [r1|] eqn:HF; [|cbn; discriminate].
  destruct (Flush_written f0 r r1 Hw HF) as (Hw1 & Hk1).
  cbn [mbind option_bind].
  destruct (negb (closed r1)); [|cbn; discriminate]. cbn [assert mbind option_bind].
  assert (H2 : bytes_accounted f0 (fst (write_filter_block (set_closed r1 true)))
               /\ counts_kept r1 (fst (write_filter_block (set_closed r1 true)))).
  { unfold write_filter_block.
    destruct (filter_block (set_closed r1 true)) as [[policy fb]|]; [|done].
    destruct (ok _); [|done].
    destruct (FilterBlock.Finish policy fb) as [contents fb'].
    apply (WriteRawBlock_written f0
             (set_filter_block (set_closed r1 true) (Some (policy, fb')))).
    exact Hw1. }
  destruct (write_filter_block (set_closed r1 true)) as [r2 h2].
  cbn [fst] in H2. destruct H2 as (Hw2 & Hk2).
  destruct (write_metaindex_block r2 h2) as [[r3 h3]|] eqn:H3; [|cbn; discriminate].
  assert (Hr3 : bytes_accounted f0 r3 /\ counts_kept r2 r3).
  { unfold write_metaindex_block in H3.
    destruct (ok (status r2)); [|by injection H3 as <- _].
    destruct (BlockBuilder.create _) as [mb|]; [|cbn; discriminate].
    cbn [mbind option_bind] in H3.
    destruct (match filter_block r2 with Some _ => _ | None => _ end)
      as [mb'|]; [|cbn; discriminate].
    cbn [mbind option_bind] in H3.
    destruct (WriteBlock r2 mb') as [[[r4 b4] h4]|] eqn:HW; [|cbn; discriminate].
    cbn [mbind option_bind] in H3. injection H3 as <- _.
    by eapply WriteBlock_written. }
  destruct Hr3 as (Hw3 & Hk3). cbn [mbind option_bind].
  destruct (write_index_block r3) as [[r4 h4]|] eqn:H4; [|cbn; discriminate].
  assert (Hr4 : bytes_accounted f0 r4 /\ num_entries r4 = num_entries r3).
  { unfold write_index_block in H4.
    destruct (ok (status r3)); [|by injection H4 as <- _].
    destruct (if pending_index_entry r3 then _ else _) as [r5|] eqn:H5;
      [|cbn; discriminate].
    assert (bytes_accounted f0 r5 /\ num_entries r5 = num_entries r3) as (Hw5 & Hn5).
    { destruct (pending_index_entry r3); [|by injection H5 as <-].
      destruct (BlockBuilder.Add _ _ _ _); [|cbn; discriminate].
      by injection H5 as <-. }
    cbn [mbind option_bind] in H4.
    destruct (WriteBlock r5 (index_block r5)) as [[[r6 b6] h6]|] eqn:HW;
      [|cbn; discriminate].
    cbn [mbind option_bind] in H4. injection H4 as <- _.
    destruct (WriteBlock_written f0 r5 _ _ _ _ Hw5 HW) as (Hw6 & Hn6 & _).
    split; [exact Hw6 | cbn; congruence]. }
  destruct Hr4 as (Hw4 & Hn4). cbn [mbind option_bind]. intros [= <-].
  destruct (write_footer_written f0 r4 h3 h4 Hw4) as (Hw5 & Hn5 & _).
  split; [done|].
  destruct Hk1 as [Hk1 _], Hk2 as [Hk2 _], Hk3 as [Hk3 _].
  cbn in Hk2. congruence.
Qed.

(** The number of [Add] calls among the calls. *)
Fixpoint count_adds (calls : list call) : Z :=
  match calls with
  | [] => 0
  | CallAdd _ _ :: calls' => 1 + count_adds calls'
  | _ :: calls' => count_adds calls'
  end.

Lemma count_adds_nonneg calls : 0 <= count_adds calls.
Proof. induction calls as [|[k v| |] calls IH]; cbn [count_adds]; lia. Qed.

Lemma create_written opt f0 (r0 : @Rep bytes) :
  create opt f0 = Some r0 -> bytes_accounted f0 r0 /\ num_entries r0 = 0.
Proof.
  unfold create. destruct (BlockBuilder.create opt) as [b|];
    [|cbn; discriminate].
  cbn [mbind option_bind]. intros Hf.
  eapply filter_StartBlock_written in Hf as [Hw [Hn _]].
  - split; [exact Hw|]. by rewrite Hn.
  - split; [done|]. exists []. by rewrite app_nil_r.
Qed.

Lemma run_written f0 calls : forall (r r' : @Rep bytes),
  bytes_accounted f0 r -> run r calls = Some r' ->
  bytes_accounted f0 r' /\ num_entries r' = num_entries r + count_adds calls.
Proof.
  induction calls as [|c calls IH]; intros r r' Hw; cbn [run count_adds].
  - intros [= <-]. split; [done | lia].
  - destruct (step r c) as [r1|] eqn:Hstep; [|cbn; discriminate].
    cbn [mbind option_bind]. intros Hrun.
    assert (H1 : bytes_accounted f0 r1
                 /\ num_entries r1
                    = num_entries r
                      + match c with CallAdd _ _ => 1 | _ => 0 end).
    { destruct c as [k v| |]; cbn [step] in Hstep.
      - destruct (Add_written f0 r r1 k v Hw Hstep) as (H & Hn & _). done.
      - destruct (Flush_written f0 r r1 Hw Hstep) as (H & Hn & _).
        split; [done | lia].
      - destruct (Finish_written f0 r r1 Hw Hstep) as (H & Hn).
        split; [done | lia]. }
    destruct H1 as (Hw1 & Hn1).
    destruct (IH r1 r' Hw1 Hrun) as (Hw' & Hn'). split; [done|].
    rewrite Hn', Hn1. destruct c; lia.
Qed.

Lemma run_snoc (r : @Rep bytes) calls c :
  run r (calls ++ [c]) = r1 ← run r calls; step r1 c.
Proof.
  revert r. induction calls as [|c0 calls IH]; intros r; cbn [app run].
  - cbn [mbind option_bind]. by destruct (step r c).
  - destruct (step r c0); cbn [mbind option_bind]; [apply IH | done].
Qed.

(** On a file that never fails the builder never sees an error, and
    [FileSize] is the number of bytes appended to the file since the
    builder was made, after any calls of [Add], [Flush] and [Finish]. *)
Theorem FileSize_counts_appended_bytes opt f0 calls (r0 r : @Rep bytes) :
  create opt f0 = Some r0 -> run r0 calls = Some r ->
  status r = OK
  /\ exists w, file r = f0 ++ w /\ FileSize r = u64 (size w).
Proof.
  intros Hc Hrun. destruct (create_written _ _ _ Hc) as [Hw0 _].
  by destruct (run_written f0 calls r0 r Hw0 Hrun) as [Hw _].
Qed.

(** [NumEntries] is the number of [Add] calls made so far. *)
Theorem NumEntries_counts_adds opt f0 calls (r0 r : @Rep bytes) :
  create opt f0 = Some r0 -> run r0 calls = Some r ->
  NumEntries r = u64 (count_adds calls).
Proof.
  intros Hc Hrun. destruct (create_written _ _ _ Hc) as [Hw0 Hn0].
  destruct (run_written f0 calls r0 r Hw0 Hrun) as [_ Hn].
  unfold NumEntries. rewrite Hn, Hn0. by rewrite Z.add_0_l.
Qed.

(** [Add] refuses a key that does not sort after the key of the [Add]
    before it. *)
Theorem Add_unordered_key_aborts opt f0 calls k1 v1 k2 v2
    (r0 r : @Rep bytes) :
  create opt f0 = Some r0 ->
  run r0 (calls ++ [CallAdd k1 v1]) = Some r ->
  Compare (comparator (options r)) k2 k1 <= 0 ->
  Add r k2 v2 = None.
Proof.
  intros Hc Hrun Hcmp. destruct (create_written _ _ _ Hc) as [Hw0 Hn0].
  rewrite run_snoc in Hrun.
  destruct (run r0 calls) as [ra|] eqn:Hra; [|discriminate].
  cbn [mbind option_bind step] in Hrun.
  destruct (run_written f0 calls r0 ra Hw0 Hra) as [Hwa Hna].
  destruct (Add_written f0 ra r k1 v1 Hwa Hrun) as ((Hs & _) & Hn & Hl).
  pose proof (count_adds_nonneg calls).
  unfold Add. destruct (negb (closed r)); [|done].
  cbn [assert mbind option_bind]. rewrite Hs. cbn [ok negb].
  destruct (Z.gtb_spec (num_entries r) 0); [|lia].
  rewrite Hl.
  destruct (Z.gtb_spec (Compare (comparator (options r)) k2 k1) 0); [lia|].
  done.
Qed.

End Accounting.

Lemma closed_builder_rejects_calls_witness :
  exists r,
    Finish (port := PlainPort) fresh_builder = Some r
    /\ step (port := PlainPort) r (CallAdd apple (str "red")) = None
    /\ Abandon r = None.
Proof.
  eexists. split; [vm_compute; reflexivity|].
  eapply (closed_builder_rejects_calls (port := PlainPort) fresh_builder).
  left. vm_compute. reflexivity.
Defined.

Lemma FileSize_counts_appended_bytes_witness :
  exists r,
    run (port := PlainPort) fresh_builder
      [CallAdd apple (str "red"); CallAdd banana (str "yellow"); CallFinish]
    = Some r
    /\ status r = OK
    /\ exists w, file r = [] ++ w /\ FileSize r = u64 (size w).
Proof.
  eexists. split; [vm_compute; reflexivity|].
  eapply (FileSize_counts_appended_bytes (port := PlainPort) default_options
            ([] : bytes)
            [CallAdd apple (str "red"); CallAdd banana (str "yellow");
             CallFinish] fresh_builder).
  - reflexivity.
  - vm_compute. reflexivity.
Defined.

Lemma NumEntries_counts_adds_witness :
  exists r,
    run (port := PlainPort) fresh_builder
      [CallAdd apple (str "red"); CallFlush; CallAdd banana (str "yellow")]
    = Some r
    /\ NumEntries r
       = u64 (count_adds [CallAdd apple (str "red"); CallFlush;
                          CallAdd banana (str "yellow")]).
Proof.
  eexists. split; [vm_compute; reflexivity|].
  eapply (NumEntries_counts_adds (port := PlainPort) default_options
            ([] : bytes) _ fresh_builder).
  - reflexivity.
  - vm_compute. reflexivity.
Defined.

Lemma Add_unordered_key_aborts_witness :
  exists r,
    run (port := PlainPort) fresh_builder [CallAdd banana (str "yellow")]
    = Some r
    /\ Add (port := PlainPort) r apple (str "red") = None.
Proof.
  eexists. split; [vm_compute; reflexivity|].
  eapply (Add_unordered_key_aborts (port := PlainPort) default_options
            ([] : bytes) [] banana (str "yellow") apple (str "red")
            fresh_builder).
  - reflexivity.
  - vm_compute. reflexivity.
  - vm_compute. discriminate.
Defined.

(** *** [Finish] after an error *)

Section FinishAfterError.

Context {F : Type} {file_ops : WritableFile F} {port : Port}.

(** Once the status is not OK, [Finish] appends nothing: no block, no
    footer.  It only marks the builder closed, and the status it reports
    is the error that was latched. *)
Theorem Finish_after_error_writes_nothing (r : @Rep F) :
  ok (status r) = false -> closed r = false ->
  Finish r = Some (set_closed r true).
Proof.
  intros Hs Hc. unfold Finish, Flush. rewrite Hc, Hs.
  cbn [negb assert mbind option_bind]. rewrite Hc.
  cbn [negb assert mbind option_bind].
  unfold write_filter_block.
  cbn [filter_block status set_closed]. rewrite Hs.
  assert (Hpair : (match filter_block r with
                   | Some (_, _) => (set_closed r true, BlockHandle_init)
                   | None => (set_closed r true, BlockHandle_init)
                   end) = (set_closed r true, BlockHandle_init)).
  { by destruct (filter_block r) as [[? ?]|]. }
  rewrite Hpair. unfold write_metaindex_block.
  cbn [status set_closed]. rewrite Hs. cbn [mbind option_bind].
  unfold write_index_block. cbn [status set_closed]. rewrite Hs.
  cbn [mbind option_bind]. unfold write_footer.
  cbn [status set_closed]. by rewrite Hs.
Qed.

End FinishAfterError.

Lemma Finish_after_error_writes_nothing_witness :
  Finish (port := PlainPort) failed_builder
  = Some (set_closed failed_builder true).
Proof.
  apply (Finish_after_error_writes_nothing (port := PlainPort) failed_builder);
    reflexivity.
Defined.

End TableBuilder.

(** ** db/skiplist.h *)

Module SkipList.

Local Open Scope nat_scope.

(** The array [prev] of [Insert]: [kMaxHeight] slots, [None] in a slot
    that was not written yet.  [FindGreaterOrEqual] is also called with a
    null [prev]. *)
Abbreviation prev_array := (list (option nat)).

Section WithKey.

(** The template parameters, the key the head node is built from
    ([Key(0)] in the constructor) and the random source of util/random.h,
    which is not among the sources: its state, its constructor from a seed
    and [Next], which returns a value and the new state. *)
Context {Key Random : Type}.
Variable compare_ : Key -> Key -> Z.
Variable key0 : Key.
Variable Random_new : Z -> Random.
Variable Random_Next : Random -> Z * Random.

Definition kMaxHeight : nat := 12.

(** A node: its key and the array [next_] of its links, as long as the
    node is high.  A pointer to a node is its index in the arena memory
    [nodes]; [nullptr] is [None]. *)
Record Node := mkNode { key : Key; next_ : list (option nat) }.

Record t := mkList
  { nodes : list Node;
    max_height_ : nat;
    rnd_ : Random }.

Definition head_ : nat := 0.

Definition GetMaxHeight (s : t) : nat := max_height_ s.

Definition Equal (a b : Key) : bool := (compare_ a b =? 0)%Z.

(** [Node::Next] and [Node::NoBarrier_Next]: [None] is a read outside
    the node's link array or through a dangling pointer. *)
Definition Next (s : t) (x n : nat) : option (option nat) :=
  node ← nodes s !! x; next_ node !! n.

(** [Node::SetNext] and [Node::NoBarrier_SetNext] *)
Definition SetNext (s : t) (x n : nat) (v : option nat) : option t :=
  node ← nodes s !! x;
  if decide (n < length (next_ node)) then
    Some (mkList (<[x := mkNode (key node) (<[n := v]> (next_ node))]> (nodes s))
            (max_height_ s) (rnd_ s))
  else None.

(** [NewNode]: the node is placed behind the nodes allocated so far; its
    links are not initialised, which [None] stands for until they are
    set. *)
Definition NewNode (s : t) (k : Key) (height : nat) : nat * t :=
  (length (nodes s),
   mkList (nodes s ++ [mkNode k (replicate height None)])
     (max_height_ s) (rnd_ s)).

(** The loop [for (i = from; i < from + count; i++) x->SetNext(i, v)]. *)
Fixpoint SetNext_range (s : t) (x from count : nat) (v : option nat)
  : option t :=
  match count with
  | O => Some s
  | S count' => s' ← SetNext s x from v; SetNext_range s' x (S from) count' v
  end.

(** [SkipList::SkipList] *)
Definition create : option t :=
  let '(head, s) := NewNode (mkList [] 1 (Random_new 0xdeadbeef)) key0
                      kMaxHeight in
  SetNext_range s head 0 kMaxHeight None.

(** The loop of [RandomHeight]; [Next] is drawn only while the height is
    below [kMaxHeight], so [kMaxHeight] rounds are enough. *)
Fixpoint RandomHeight_loop (fuel : nat) (height : nat) (rnd : Random)
  : nat * Random :=
  match fuel with
  | O => (height, rnd)
  | S fuel' =>
      if decide (height < kMaxHeight) then
        let '(v, rnd') := Random_Next rnd in
        if (v mod 4 =? 0)%Z then RandomHeight_loop fuel' (S height) rnd'
        else (height, rnd')
      else (height, rnd)
  end.

(** [RandomHeight], with its two assertions. *)
Definition RandomHeight (s : t) : option (nat * t) :=
  let '(height, rnd) := RandomHeight_loop kMaxHeight 1 (rnd_ s) in
  _ ← assert (0 <? height);
  _ ← assert (height <=? kMaxHeight);
  Some (height, mkList (nodes s) (max_height_ s) rnd).

(** [KeyIsAfterNode]: null n is considered infinite *)
Definition KeyIsAfterNode (s : t) (k : Key) (n : option nat) : option bool :=
  match n with
  | None => Some false
  | Some i => node ← nodes s !! i; Some (compare_ (key node) k <? 0)%Z
  end.

Definition set_prev (prev : option prev_array) (level x : nat)
  : option prev_array :=
  match prev with
  | None => None
  | Some p => Some (<[level := Some x]> p)
  end.

(** The loop of [FindGreaterOrEqual].  [fuel] bounds the number of
    rounds; [None] is a faulting read or the end of the fuel. *)
Fixpoint FindGreaterOrEqual_loop (fuel : nat) (s : t) (k : Key)
    (x level : nat) (prev : option prev_array)
  : option (option nat * option prev_array) :=
  match fuel with
  | O => None
  | S fuel' =>
      next ← Next s x level;
      after ← KeyIsAfterNode s k next;
      if (after : bool) then
        (* Keep searching in this list *)
        match next with
        | Some x' => FindGreaterOrEqual_loop fuel' s k x' level prev
        | None => None
        end
      else
        let prev := set_prev prev level x in
        match level with
        | O => Some (next, prev)
        | S level' =>
            (* Switch to next list *)
            FindGreaterOrEqual_loop fuel' s k x level' prev
        end
  end.

(** [FindGreaterOrEqual].  Every round either moves to a node not visited
    before or goes down a level, so the number of nodes plus the height is
    fuel enough. *)
Definition FindGreaterOrEqual (s : t) (k : Key) (prev : option prev_array)
  : option (option nat * option prev_array) :=
  match GetMaxHeight s with
  | O => None
  | S level =>
      FindGreaterOrEqual_loop (length (nodes s) + GetMaxHeight s) s k head_
        level prev
  end.

(** The loop [for (i = from; i < from + count; i++) prev[i] = head_]. *)
Fixpoint fill_prev (prev : prev_array) (from count : nat) : prev_array :=
  match count with
  | O => prev
  | S count' => fill_prev (<[from := Some head_]> prev) (S from) count'
  end.

(** The loop of [Insert] that links the new node [x] into the levels
    [from], ..., [from + count - 1]. *)
Fixpoint link_levels (s : t) (x : nat) (prev : prev_array) (from count : nat)
  : option t :=
  match count with
  | O => Some s
  | S count' =>
      p ← mjoin (prev !! from);
      next ← Next s p from;
      s ← SetNext s x from next;
      s ← SetNext s p from (Some x);
      link_levels s x prev (S from) count'
  end.

(** [Insert] *)
Definition Insert (s : t) (k : Key) : option t :=
  '(x, prev) ← FindGreaterOrEqual s k (Some (replicate kMaxHeight None));
  prev ← prev;
  (* Our data structure does not allow duplicate insertion *)
  dup ← match x with
        | None => Some false
        | Some i => node ← nodes s !! i; Some (Equal k (key node))
        end;
  _ ← assert (negb dup);
  '(height, s) ← RandomHeight s;
  let '(prev, s) :=
    if decide (GetMaxHeight s < height) then
      (fill_prev prev (GetMaxHeight s) (height - GetMaxHeight s),
       mkList (nodes s) height (rnd_ s))
    else (prev, s) in
  let '(x, s) := NewNode s k height in
  link_levels s x prev 0 height.

(** [Contains] *)
Definition Contains (s : t) (k : Key) : option bool :=
  '(x, _) ← FindGreaterOrEqual s k None;
  match x with
  | Some i => node ← nodes s !! i; Some (Equal k (key node))
  | None => Some false
  end.

(** The loop of [FindLessThan]; its assertion on [x] is checked in every
    round. *)
Fixpoint FindLessThan_loop (fuel : nat) (s : t) (k : Key) (x level : nat)
  : option nat :=
  match fuel with
  | O => None
  | S fuel' =>
      xnode ← nodes s !! x;
      _ ← assert (bool_decide (x = head_)
                  || (compare_ (key xnode) k <? 0)%Z);
      next ← Next s x level;
      stop ← match next with
             | None => Some true
             | Some i =>
                 node ← nodes s !! i; Some (compare_ (key node) k >=? 0)%Z
             end;
      if (stop : bool) then
        match level with
        | O => Some x
        | S level' => FindLessThan_loop fuel' s k x level'
        end
      else
        match next with
        | Some x' => FindLessThan_loop fuel' s k x' level
        | None => None
        end
  end.

Definition FindLessThan (s : t) (k : Key) : option nat :=
  match GetMaxHeight s with
  | O => None
  | S level =>
      FindLessThan_loop (length (nodes s) + GetMaxHeight s) s k head_ level
  end.

(** The loop of [FindLast] *)
Fixpoint FindLast_loop (fuel : nat) (s : t) (x level : nat) : option nat :=
  match fuel with
  | O => None
  | S fuel' =>
      next ← Next s x level;
      match next with
      | None =>
          match level with
          | O => Some x
          | S level' => FindLast_loop fuel' s x level'
          end
      | Some x' => FindLast_loop fuel' s x' level
      end
  end.

Definition FindLast (s : t) : option nat :=
  match GetMaxHeight s with
  | O => None
  | S level =>
      FindLast_loop (length (nodes s) + GetMaxHeight s) s head_ level
  end.

(** The iterator: its position [node_]; the list [list_] it reads is an
    argument of its operations. *)
Definition Iterator := option nat.

Definition Iterator_new : Iterator := None.

Definition Valid (it : Iterator) : bool :=
  match it with Some _ => true | None => false end.

Definition Iterator_key (s : t) (it : Iterator) : option Key :=
  i ← it; node ← nodes s !! i; Some (key node).

Definition Iterator_Next (s : t) (it : Iterator) : option Iterator :=
  i ← it; Next s i 0.

Definition Iterator_Prev (s : t) (it : Iterator) : option Iterator :=
  i ← it;
  node ← nodes s !! i;
  x ← FindLessThan s (key node);
  Some (if decide (x = head_) then None else Some x).

Definition Seek (s : t) (target : Key) : option Iterator :=
  '(x, _) ← FindGreaterOrEqual s target None; Some x.

Definition SeekToFirst (s : t) : option Iterator := Next s head_ 0.

Definition SeekToLast (s : t) : option Iterator :=
  x ← FindLast s; Some (if decide (x = head_) then None else Some x).

(** Inserting a sequence of keys into a fresh list. *)
Fixpoint InsertAll (s : t) (ks : list Key) : option t :=
  match ks with
  | [] => Some s
  | k :: ks' => s' ← Insert s k; InsertAll s' ks'
  end.

(** Walking the list with the iterator, from a position to the end. *)
Fixpoint walk (fuel : nat) (s : t) (it : Iterator) : option (list Key) :=
  match it with
  | None => Some []
  | Some _ =>
      match fuel with
      | O => None
      | S fuel' =>
          k ← Iterator_key s it;
          it' ← Iterator_Next s it;
          ks ← walk fuel' s it';
          Some (k :: ks)
      end
  end.

(** *** The shape of a well-formed list *)

(** The height of a node is the length of its link array. *)
Definition height (s : t) (x : nat) : nat :=
  match nodes s !! x with Some node => length (next_ node) | None => 0 end.

Definition keyof (s : t) (x : nat) : Key :=
  match nodes s !! x with Some node => key node | None => key0 end.

(** The nodes of [l] that take part in the list of level [L]. *)
Definition above (s : t) (L : nat) (l : list nat) : list nat :=
  filter (λ i, L < height s i) l.

(** The list of level [L] that starts behind node [x] visits exactly the
    nodes [l] and ends in [nullptr]. *)
Inductive path (s : t) (L : nat) : nat -> list nat -> Prop :=
  | path_end x : Next s x L = Some None -> path s L x []
  | path_step x y l :
      Next s x L = Some (Some y) -> path s L y l -> path s L x (y :: l).

Definition lt (a b : Key) : Prop := (compare_ a b < 0)%Z.

Fixpoint increasing (ks : list Key) : Prop :=
  match ks with
  | [] => True
  | a :: r => Forall (lt a) r /\ increasing r
  end.

Definition keys (s : t) (order : list nat) : list Key := keyof s <$> order.

(** What the comparator is required to be. *)
Record total_order : Prop :=
  { compare_eq a b : compare_ a b = 0%Z <-> a = b;
    compare_flip a b : (compare_ a b < 0)%Z <-> (0 < compare_ b a)%Z;
    compare_trans a b c :
      (compare_ a b < 0)%Z -> (compare_ b c < 0)%Z -> (compare_ a c < 0)%Z }.

(** The invariant: [order] lists the nodes other than the head by
    ascending key, and the list of every level links the nodes that are
    high enough in that order. *)
Record Inv (s : t) (order : list nat) : Prop :=
  { inv_head : height s head_ = kMaxHeight;
    inv_max : 1 <= max_height_ s <= kMaxHeight;
    inv_count : S (length order) = length (nodes s);
    inv_range : forall i, i ∈ order ->
      1 <= i < length (nodes s) /\ 1 <= height s i <= max_height_ s;
    inv_sorted : increasing (keys s order);
    inv_path : forall L, L < kMaxHeight -> path s L head_ (above s L order) }.

(** What [SetNext] and [link_levels] leave alone. *)
Definition frame (s s' : t) : Prop :=
  length (nodes s') = length (nodes s) /\
  (forall y, height s' y = height s y) /\
  (forall y, keyof s' y = keyof s y) /\
  max_height_ s' = max_height_ s /\ rnd_ s' = rnd_ s.

Lemma frame_refl s : frame s s.
Proof. by repeat split. Qed.

Lemma frame_trans s1 s2 s3 : frame s1 s2 -> frame s2 s3 -> frame s1 s3.
Proof.
  intros (Ha & Hb & Hc & Hd & He) (Ha' & Hb' & Hc' & Hd' & He').
  repeat split; congruence.
Qed.

Lemma height_lookup s x n :
  n < height s x -> exists node, nodes s !! x = Some node /\ n < length (next_ node).
Proof.
  unfold height. destruct (nodes s !! x) as [node|]; [eauto | lia].
Qed.

Lemma Next_is_Some s x L : L < height s x -> exists v, Next s x L = Some v.
Proof.
  intros (node & Hn & Hl)%height_lookup. unfold Next. rewrite Hn. cbn.
  by apply lookup_lt_is_Some_2 in Hl as [v ->]; exists v.
Qed.

Lemma Next_height s x L v : Next s x L = Some v -> L < height s x.
Proof.
  unfold Next, height. destruct (nodes s !! x) as [node|]; cbn; [|done].
  apply lookup_lt_Some.
Qed.

Lemma SetNext_spec s x n v :
  n < height s x ->
  exists s', SetNext s x n v = Some s' /\ frame s s' /\
    forall y L,
      Next s' y L = if decide (y = x /\ L = n) then Some v else Next s y L.
Proof.
  intros Hh. destruct (height_lookup _ _ _ Hh) as (node & Hn & Hl).
  pose proof (lookup_lt_Some _ _ _ Hn) as Hx.
  unfold SetNext. rewrite Hn. cbn. rewrite decide_True by done.
  eexists; split; [done|]. split.
  - unfold frame, height, keyof; cbn. rewrite length_insert.
    repeat split; intros y.
    + destruct (decide (x = y)) as [<-|].
      * rewrite list_lookup_insert_eq, Hn by done. cbn. by rewrite length_insert.
      * by rewrite list_lookup_insert_ne.
    + destruct (decide (x = y)) as [<-|].
      * by rewrite list_lookup_insert_eq, Hn.
      * by rewrite list_lookup_insert_ne.
  - intros y L. unfold Next; cbn. destruct (decide (x = y)) as [<-|].
    + rewrite list_lookup_insert_eq, Hn by done. cbn.
      destruct (decide (n = L)) as [<-|].
      * rewrite decide_True by done. by rewrite list_lookup_insert_eq.
      * rewrite decide_False by (intros [_ ?]; congruence).
        by rewrite list_lookup_insert_ne.
    + rewrite decide_False by (intros [? _]; congruence).
      by rewrite list_lookup_insert_ne.
Qed.

Lemma path_head s L x l : path s L x l -> Next s x L = Some (head l).
Proof. by destruct 1. Qed.

Lemma default_last_cons (x y : nat) l :
  default x (last (y :: l)) = default y (last l).
Proof. rewrite last_cons. by destruct (last l). Qed.

Lemma path_last s L x l1 l2 :
  path s L x (l1 ++ l2) -> Next s (default x (last l1)) L = Some (head l2).
Proof.
  revert x. induction l1 as [|y l1 IH]; intros x H; cbn in *.
  - by apply path_head.
  - inversion H; subst. rewrite default_last_cons. by apply IH.
Qed.

Lemma path_ext s s' L x l :
  path s L x l -> (forall y, y ∈ x :: l -> Next s' y L = Next s y L) ->
  path s' L x l.
Proof.
  induction 1 as [x H|x y l H Hp IH]; intros He.
  - constructor. rewrite He; [done | left].
  - constructor.
    + rewrite He; [done | left].
    + apply IH. intros z Hz. apply He. by right.
Qed.

(** Linking a new node [n] behind the last node of [l1]. *)
Lemma path_insert s s' L x l1 l2 n :
  path s L x (l1 ++ l2) -> NoDup (x :: l1 ++ l2) -> n ∉ x :: l1 ++ l2 ->
  Next s' (default x (last l1)) L = Some (Some n) ->
  Next s' n L = Some (head l2) ->
  (forall y, y ∈ x :: l1 ++ l2 -> y <> default x (last l1) ->
     Next s' y L = Next s y L) ->
  path s' L x (l1 ++ n :: l2).
Proof.
  revert x. induction l1 as [|y l1 IH]; intros x Hp Hnd Hn Hprev Hnew He;
    cbn in *.
  - apply path_step; [done|].
    destruct l2 as [|z l2]; [by constructor|].
    apply path_step; [done|]. inversion Hp; subst.
    eapply path_ext; [done|]. intros w Hw. apply He; [by right|].
    apply NoDup_cons in Hnd as [Hx _]. intros ->. done.
  - rewrite default_last_cons in *. inversion Hp; subst.
    apply NoDup_cons in Hnd as [Hx Hnd].
    apply path_step.
    + rewrite He; [done | left |]. intros ->. apply Hx.
      destruct (last l1) as [z|] eqn:Hl; cbn; [|left].
      right. apply elem_of_app; left. by apply last_Some_elem_of.
    + apply IH; try done.
      * intros Hin. apply Hn. by right.
      * intros w Hw. apply He. by right.
Qed.

(** The node [Insert] links the new node behind at level [L], when the
    nodes with a smaller key are [B]: the last of them that is high
    enough, or the head. *)
Definition pred_at (s : t) (B : list nat) (L : nat) : nat :=
  default head_ (last (above s L B)).

Lemma filter_head_split {X} (P : X -> Prop) `{forall x, Decision (P x)} l n r :
  filter P l = n :: r ->
  exists m1 m2, l = m1 ++ n :: m2 /\ filter P m1 = [] /\ P n.
Proof.
  induction l as [|a l IH]; [done|]. rewrite filter_cons.
  destruct (decide (P a)) as [Ha|Ha].
  - intros [= -> _]. by exists [], l.
  - intros (m1 & m2 & -> & Hm & Hn)%IH. exists (a :: m1), m2.
    by rewrite filter_cons_False.
Qed.

Lemma above_0 s l : (forall i, i ∈ l -> 1 <= height s i) -> above s 0 l = l.
Proof.
  induction l as [|a l IH]; intros Hl; [done|]. unfold above in *.
  rewrite filter_cons_True by (apply Hl; left).
  rewrite IH; [done|]. intros i Hi. apply Hl. by right.
Qed.

Lemma last_above s L b x :
  x = default head_ (last b) -> (b = [] \/ L < height s x) ->
  default head_ (last (above s L b)) = x.
Proof.
  intros -> [->|Hh]; [done|].
  destruct (last b) as [y|] eqn:Hl; cbn in *.
  - apply last_Some in Hl as [b' ->]. unfold above.
    rewrite filter_app, filter_cons_True by done.
    by rewrite filter_nil, last_snoc.
  - by apply last_None in Hl as ->.
Qed.

Lemma KeyIsAfterNode_node s k i :
  1 <= height s i ->
  KeyIsAfterNode s k (Some i) = Some (compare_ (keyof s i) k <? 0)%Z.
Proof.
  intros (node & Hn & _)%height_lookup. unfold keyof. cbn. by rewrite Hn.
Qed.

Section Search.

Variables (s : t) (B A : list nat) (k : Key).
Hypothesis Hinv : Inv s (B ++ A).
Hypothesis HB : Forall (λ b, lt (keyof s b) k) B.
Hypothesis HA : Forall (λ a, ~ lt (keyof s a) k) A.

Lemma order_height i : i ∈ B ++ A -> 1 <= height s i.
Proof. intros Hi. by apply (inv_range _ _ Hinv) in Hi as [_ [? _]]. Qed.

Lemma FindGreaterOrEqual_loop_spec fuel : forall b1 b2 x level prev,
  B = b1 ++ b2 -> x = default head_ (last b1) ->
  (b1 = [] \/ level < height s x) -> level < kMaxHeight ->
  length b2 + level < fuel ->
  exists prev',
    FindGreaterOrEqual_loop fuel s k x level prev = Some (head A, prev') /\
    match prev with
    | None => prev' = None
    | Some p =>
        exists p', prev' = Some p' /\ length p' = length p /\
          (forall L, L <= level -> L < length p ->
             p' !! L = Some (Some (pred_at s B L))) /\
          (forall L, level < L -> p' !! L = p !! L)
    end.
Proof.
  induction fuel as [|fuel IH]; intros b1 b2 x level prev HBeq Hx Hb1 Hlevel Hfuel;
    [lia|].
  assert (Hnext : Next s x level
                  = Some (head (above s level b2 ++ above s level A))).
  { pose proof (inv_path _ _ Hinv level Hlevel) as Hp.
    rewrite HBeq in Hp. unfold above in Hp.
    rewrite <- app_assoc, !filter_app in Hp. apply path_last in Hp.
    fold (above s level b1) in Hp. by rewrite (last_above _ _ _ x) in Hp. }
  assert (Hpred : above s level b2 = [] -> pred_at s B level = x).
  { intros Hab. unfold pred_at. rewrite HBeq. unfold above in *.
    rewrite filter_app, Hab, app_nil_r. by apply last_above. }
  cbn [FindGreaterOrEqual_loop]. rewrite Hnext. cbn [mbind option_bind].
  destruct (above s level b2) as [|n r] eqn:Hab.
  - (* the next node of this level is not before the key *)
    assert (Hafter : KeyIsAfterNode s k (head ([] ++ above s level A))
                     = Some false).
    { cbn [app]. destruct (above s level A) as [|a r] eqn:HaA; [done|].
      assert (a ∈ A) as Ha.
      { assert (a ∈ above s level A) as Ha by (rewrite HaA; left).
        by apply list_elem_of_filter in Ha as [_ ?]. }
      cbn [head]. rewrite KeyIsAfterNode_node.
      - f_equal. apply Z.ltb_ge.
        rewrite Forall_forall in HA. apply HA in Ha. unfold lt in Ha. lia.
      - apply order_height, elem_of_app. by right. }
    rewrite Hafter. cbn [mbind option_bind].
    destruct level as [|level].
    + assert (b2 = []) as ->.
      { rewrite <- (above_0 s b2); [done|]. intros i Hi.
        apply order_height. rewrite HBeq, !elem_of_app. auto. }
      cbn [app]. rewrite above_0.
      2:{ intros i Hi. apply order_height, elem_of_app. by right. }
      eexists; split; [done|]. destruct prev as [p|]; [|done].
      cbn [set_prev]. eexists; split; [done|]. rewrite length_insert.
      split; [done|]. split.
      * intros L HL HLp. assert (L = 0) as -> by lia.
        rewrite list_lookup_insert_eq by done. by rewrite Hpred.
      * intros L HL. apply list_lookup_insert_ne. lia.
    + destruct (IH b1 b2 x level (set_prev prev (S level) x))
        as (prev' & Hrun & Hprev); try done; try lia.
      { destruct Hb1 as [?|?]; [by left | right; lia]. }
      exists prev'. split; [done|]. destruct prev as [p|]; [|done].
      cbn [set_prev] in Hprev. destruct Hprev as (p' & -> & Hlen & Hlow & Hhigh).
      rewrite length_insert in *. exists p'. repeat split; [done| |].
      * intros L HL HLp. destruct (decide (L = S level)) as [->|].
        -- rewrite Hhigh by lia. rewrite list_lookup_insert_eq by done.
           by rewrite Hpred.
        -- apply Hlow; lia.
      * intros L HL. rewrite Hhigh by lia. apply list_lookup_insert_ne. lia.
  - (* the next node of this level is before the key: move on *)
    apply filter_head_split in Hab as (m1 & m2 & -> & Hm1 & Hn).
    assert (n ∈ B) as HnB by (rewrite HBeq, !elem_of_app, elem_of_cons; auto).
    cbn [app head]. rewrite KeyIsAfterNode_node.
    2:{ apply order_height, elem_of_app. by left. }
    rewrite Forall_forall in HB. pose proof (HB _ HnB) as Hlt. unfold lt in Hlt.
    apply Z.ltb_lt in Hlt. rewrite Hlt. cbn [mbind option_bind].
    apply (IH (b1 ++ m1 ++ [n]) m2); try done.
    + rewrite HBeq. by rewrite <- !app_assoc.
    + by rewrite !app_assoc, last_snoc.
    + by right.
    + rewrite length_app in Hfuel. cbn in Hfuel. lia.
Qed.

End Search.

Lemma increasing_app l1 l2 :
  increasing (l1 ++ l2) <->
  increasing l1 /\ increasing l2 /\ forall a b, a ∈ l1 -> b ∈ l2 -> lt a b.
Proof.
  induction l1 as [|x l1 IH]; cbn.
  - split; [intros ?; repeat split; [done|] | tauto].
    intros a b Ha. by apply elem_of_nil in Ha.
  - rewrite Forall_app, IH, !Forall_forall. split.
    + intros ((H1 & H2) & H3 & H4 & H5). repeat split; try done.
      intros a b [->|Ha]%elem_of_cons Hb; auto.
    + intros ((H1 & H2) & H3 & H4). repeat split; try done.
      * intros b Hb. apply H4; [left | done].
      * intros a b Ha Hb. apply H4; [by right | done].
Qed.

Lemma above_ext s s' L l :
  (forall i, i ∈ l -> height s' i = height s i) -> above s' L l = above s L l.
Proof.
  induction l as [|a l IH]; intros He; [done|]. unfold above in *.
  rewrite !filter_cons, He by left. rewrite IH; [done|].
  intros i Hi. apply He. by right.
Qed.

Lemma keys_ext s s' l :
  (forall i, i ∈ l -> keyof s' i = keyof s i) -> keys s' l = keys s l.
Proof.
  intros He. unfold keys. apply list_fmap_ext. intros i x Hi.
  apply He. by eapply list_elem_of_lookup_2.
Qed.

Lemma RandomHeight_loop_bounds fuel : forall h rnd,
  h <= kMaxHeight ->
  h <= (RandomHeight_loop fuel h rnd).1 <= kMaxHeight.
Proof.
  induction fuel as [|fuel IH]; intros h rnd Hh; cbn [RandomHeight_loop];
    [cbn; lia|].
  destruct (decide (h < kMaxHeight)); [|cbn; lia].
  destruct (Random_Next rnd) as [v rnd'].
  destruct (v mod 4 =? 0)%Z; [|cbn; lia].
  specialize (IH (S h) rnd'). lia.
Qed.

Lemma RandomHeight_spec s :
  exists h rnd,
    RandomHeight s = Some (h, mkList (nodes s) (max_height_ s) rnd) /\
    1 <= h <= kMaxHeight.
Proof.
  unfold RandomHeight.
  pose proof (RandomHeight_loop_bounds kMaxHeight 1 (rnd_ s)) as Hb.
  destruct (RandomHeight_loop kMaxHeight 1 (rnd_ s)) as [h rnd].
  cbn [fst] in Hb. unfold kMaxHeight in Hb at 1.
  exists h, rnd. split; [|lia].
  assert ((0 <? h) = true) as -> by (apply Nat.ltb_lt; lia).
  assert ((h <=? kMaxHeight) = true) as -> by (apply Nat.leb_le; lia).
  done.
Qed.

Lemma fill_prev_spec count : forall (p : prev_array) from,
  length (fill_prev p from count) = length p /\
  forall L, fill_prev p from count !! L
            = if decide (from <= L < from + count /\ L < length p)
              then Some (Some head_) else p !! L.
Proof.
  induction count as [|count IH]; intros p from; cbn [fill_prev].
  - split; [done|]. intros L. rewrite decide_False; [done | lia].
  - destruct (IH (<[from := Some head_]> p) (S from)) as [Hlen Hlook].
    rewrite length_insert in *. split; [done|]. intros L. rewrite Hlook.
    destruct (decide (L = from)) as [->|].
    + rewrite decide_False by lia.
      destruct (decide (from < length p)).
      * rewrite decide_True by lia. by apply list_lookup_insert_eq.
      * rewrite decide_False by lia.
        rewrite !lookup_ge_None_2; [done | lia | rewrite length_insert; lia].
    + rewrite list_lookup_insert_ne by done.
      destruct (decide (S from <= L < S from + count /\ L < length p)).
      * by rewrite decide_True by lia.
      * by rewrite decide_False by lia.
Qed.

(** The links after the loop of [Insert]: at each level of the new node
    [x], the new node takes over the link of [prev] and [prev] points at the
    new node; nothing else changes. *)
Lemma link_levels_spec (prev : prev_array) x count : forall s from,
  (forall L, from <= L < from + count ->
     exists p, prev !! L = Some (Some p) /\ p <> x /\ L < height s p) ->
  from + count <= height s x ->
  exists s', link_levels s x prev from count = Some s' /\ frame s s' /\
    (forall L y, ~ from <= L < from + count -> Next s' y L = Next s y L) /\
    (forall L p, from <= L < from + count -> prev !! L = Some (Some p) ->
       Next s' x L = Next s p L /\ Next s' p L = Some (Some x) /\
       forall y, y <> x -> y <> p -> Next s' y L = Next s y L).
Proof.
  induction count as [|count IH]; intros s from Hprev Hx; cbn [link_levels].
  - exists s. split; [done|]. split; [apply frame_refl|]. split; [done|].
    intros; lia.
  - destruct (Hprev from) as (p & Hp & Hpx & Hph); [lia|].
    rewrite Hp. cbn [mjoin option_join mbind option_bind].
    destruct (Next_is_Some _ _ _ Hph) as [next Hnext]. rewrite Hnext.
    cbn [mbind option_bind].
    destruct (SetNext_spec s x from next) as (s1 & -> & Hf1 & Hn1); [lia|].
    cbn [mbind option_bind].
    destruct (SetNext_spec s1 p from (Some x)) as (s2 & -> & Hf2 & Hn2).
    { destruct Hf1 as (_ & -> & _). done. }
    cbn [mbind option_bind].
    pose proof (frame_trans _ _ _ Hf1 Hf2) as Hf.
    assert (Hlink : forall y L, Next s2 y L =
              if decide (L = from)
              then if decide (y = p) then Some (Some x)
                   else if decide (y = x) then Some next else Next s y L
              else Next s y L).
    { intros y L. rewrite Hn2, Hn1. destruct (decide (L = from)) as [->|].
      - destruct (decide (y = p)) as [->|]; [by rewrite decide_True|].
        rewrite decide_False by (by intros [? _]).
        destruct (decide (y = x)) as [->|]; [by rewrite decide_True|].
        by rewrite decide_False by (by intros [? _]).
      - by rewrite !decide_False by (by intros [_ ?]). }
    destruct (IH s2 (S from)) as (s' & -> & Hf' & Hout & Hin).
    { intros L HL. destruct (Hprev L) as (q & Hq & Hqx & Hqh); [lia|].
      exists q. destruct Hf as (_ & -> & _). done. }
    { destruct Hf as (_ & -> & _). lia. }
    exists s'. split; [done|]. split; [by eapply frame_trans|]. split.
    + intros L y HL. rewrite Hout by lia. rewrite Hlink.
      rewrite decide_False; [done | lia].
    + intros L q HL Hq. destruct (decide (L = from)) as [->|].
      * assert (q = p) as -> by congruence.
        rewrite !Hout by lia. rewrite !Hlink. rewrite !decide_True by done.
        rewrite decide_False by done. rewrite !decide_True by done.
        repeat split; [done|]. intros y Hy1 Hy2. rewrite Hout by lia.
        rewrite Hlink, decide_True by done. by rewrite !decide_False.
      * destruct (Hin L q) as (H1 & H2 & H3); [lia | done |].
        rewrite H1, H2. rewrite Hlink, decide_False by done.
        repeat split. intros y Hy1 Hy2. rewrite H3 by done.
        by rewrite Hlink, decide_False.
Qed.

(** [RandomHeight] always returns, with a height between one and
    [kMaxHeight], whatever the random source gives: its assertions never
    fail.  It changes nothing of the list but the state of the random
    source. *)
Theorem RandomHeight_in_range s :
  exists h s',
    RandomHeight s = Some (h, s') /\ 1 <= h <= kMaxHeight /\
    nodes s' = nodes s /\ max_height_ s' = max_height_ s.
Proof.
  destruct (RandomHeight_spec s) as (h & rnd & Hr & Hh).
  by exists h, (mkList (nodes s) (max_height_ s) rnd).
Qed.

(** The list of a fresh [SkipList]. *)
Definition fresh : t :=
  mkList [mkNode key0 (replicate kMaxHeight None)] 1 (Random_new 0xdeadbeef).

Lemma create_fresh : create = Some fresh.
Proof. reflexivity. Qed.

Lemma Inv_fresh : Inv fresh [].
Proof.
  split; try done.
  - cbn. unfold kMaxHeight. lia.
  - intros i Hi. by apply elem_of_nil in Hi.
  - intros L HL. constructor.
    change (Next fresh head_ L)
      with (replicate kMaxHeight (None : option nat) !! L).
    by rewrite lookup_replicate_2.
Qed.

Section Ordered.

Hypothesis Hord : total_order.

Lemma lt_irrefl a : ~ lt a a.
Proof.
  unfold lt. assert (compare_ a a = 0%Z) by by apply (compare_eq Hord). lia.
Qed.

Lemma lt_trans a b c : lt a b -> lt b c -> lt a c.
Proof. apply (compare_trans Hord). Qed.

Lemma not_lt_gt a b : ~ lt a b -> a <> b -> lt b a.
Proof.
  unfold lt. intros H1 H2. apply (compare_flip Hord).
  assert (compare_ a b <> 0%Z) by (by intros ?%(compare_eq Hord)). lia.
Qed.

Lemma increasing_NoDup {X} (f : X -> Key) l : increasing (f <$> l) -> NoDup l.
Proof.
  induction l as [|a l IH]; [constructor|]. cbn. intros [Ha Hl].
  apply NoDup_cons. split; [|by apply IH]. intros Hin.
  rewrite Forall_forall in Ha. apply (lt_irrefl (f a)), Ha.
  by apply list_elem_of_fmap_2.
Qed.

(** The nodes before a key and the nodes not before it. *)
Lemma split_at s order k :
  increasing (keys s order) ->
  exists B A, order = B ++ A /\
    Forall (λ b, lt (keyof s b) k) B /\ Forall (λ a, ~ lt (keyof s a) k) A.
Proof.
  induction order as [|a l IH]; cbn.
  - exists [], []. by repeat split.
  - intros [Ha Hl]. destruct (decide (compare_ (keyof s a) k < 0)%Z) as [Hlt|Hge].
    + destruct (IH Hl) as (B & A & -> & HB & HA).
      exists (a :: B), A. repeat split; [|done]. by constructor.
    + exists [], (a :: l). repeat split; [constructor|]. constructor; [done|].
      rewrite Forall_fmap in Ha. eapply List.Forall_impl; [|exact Ha].
      intros b Hab Hbk. apply Hge. by eapply lt_trans.
Qed.

Lemma FindGreaterOrEqual_spec s B A k prev :
  Inv s (B ++ A) ->
  Forall (λ b, lt (keyof s b) k) B -> Forall (λ a, ~ lt (keyof s a) k) A ->
  exists prev',
    FindGreaterOrEqual s k prev = Some (head A, prev') /\
    match prev with
    | None => prev' = None
    | Some p =>
        exists p', prev' = Some p' /\ length p' = length p /\
          (forall L, L < max_height_ s -> L < length p ->
             p' !! L = Some (Some (pred_at s B L))) /\
          (forall L, max_height_ s <= L -> p' !! L = p !! L)
    end.
Proof.
  intros Hinv HB HA. unfold FindGreaterOrEqual, GetMaxHeight.
  pose proof (inv_max _ _ Hinv) as Hmax.
  pose proof (inv_count _ _ Hinv) as Hcount. rewrite length_app in Hcount.
  destruct (max_height_ s) as [|level] eqn:Hmh; [lia|].
  destruct (FindGreaterOrEqual_loop_spec s B A k Hinv HB HA
              (length (nodes s) + S level) [] B head_ level prev)
    as (prev' & Hrun & Hprev); try done; [by left | lia | lia |].
  exists prev'. split; [done|]. destruct prev as [p|]; [|done].
  destruct Hprev as (p' & -> & Hlen & Hlow & Hhigh).
  exists p'. repeat split; [done| |].
  - intros L HL HLp. apply Hlow; [lia | done].
  - intros L HL. apply Hhigh. lia.
Qed.

(** [Contains] on a well-formed list answers whether the key is among the
    keys of its nodes. *)
Lemma Contains_spec s order K :
  Inv s order ->
  (K ∈ keys s order /\ Contains s K = Some true) \/
  ((K ∉ keys s order) /\ Contains s K = Some false).
Proof.
  intros Hinv.
  destruct (split_at s order K (inv_sorted _ _ Hinv)) as (B & A & -> & HB & HA).
  destruct (FindGreaterOrEqual_spec s B A K None Hinv HB HA)
    as (prev' & Hfind & _).
  unfold Contains. rewrite Hfind. cbn [mbind option_bind].
  assert (HnotB : K ∉ keys s B).
  { intros (b & -> & Hb)%list_elem_of_fmap. rewrite Forall_forall in HB.
    by apply HB, lt_irrefl in Hb. }
  destruct A as [|a A]; cbn [head].
  - right. split; [|done]. by rewrite app_nil_r.
  - destruct (height_lookup s a 0) as (node & Hn & _).
    { apply (inv_range _ _ Hinv). rewrite elem_of_app, elem_of_cons. auto. }
    assert (keyof s a = key node) as Hkey by (unfold keyof; by rewrite Hn).
    rewrite Hn. cbn [mbind option_bind]. unfold Equal.
    destruct (compare_ K (key node) =? 0)%Z eqn:Heq.
    + left. split; [|done]. apply Z.eqb_eq, (compare_eq Hord) in Heq.
      unfold keys. rewrite fmap_app, elem_of_app, fmap_cons, elem_of_cons.
      right; left. congruence.
    + right. split; [|done]. apply Z.eqb_neq in Heq.
      assert (K <> keyof s a) as Hne.
      { rewrite Hkey. intros HK. by apply Heq, (compare_eq Hord). }
      apply Forall_cons in HA as [Ha HA].
      pose proof (not_lt_gt _ _ Ha (not_eq_sym Hne)) as HKa.
      pose proof (inv_sorted _ _ Hinv) as Hs. unfold keys in Hs.
      rewrite fmap_app, fmap_cons in Hs.
      apply increasing_app in Hs as (_ & [Hs _] & _).
      unfold keys. rewrite fmap_app, fmap_cons, elem_of_app, elem_of_cons.
      intros [?|[?|HinA]]; [done | done |].
      rewrite Forall_forall in Hs. apply Hs in HinA.
      by eapply lt_irrefl, lt_trans.
Qed.

Lemma order_range s order i :
  Inv s order -> i ∈ order ->
  1 <= i < length (nodes s) /\ 1 <= height s i <= max_height_ s.
Proof. intros Hinv. apply (inv_range _ _ Hinv). Qed.

Lemma pred_at_spec s B A L :
  Inv s (B ++ A) -> L < kMaxHeight ->
  pred_at s B L < length (nodes s) /\ L < height s (pred_at s B L) /\
  Next s (pred_at s B L) L = Some (head (above s L A)).
Proof.
  intros Hinv HL. split; [|split].
  - unfold pred_at. destruct (last (above s L B)) as [p|] eqn:Hl; cbn.
    + apply last_Some_elem_of, list_elem_of_filter in Hl as [_ Hp].
      apply (order_range s (B ++ A)); [done|]. apply elem_of_app. by left.
    + pose proof (inv_count _ _ Hinv). unfold head_. lia.
  - unfold pred_at. destruct (last (above s L B)) as [p|] eqn:Hl; cbn.
    + by apply last_Some_elem_of, list_elem_of_filter in Hl as [? _].
    + by rewrite (inv_head _ _ Hinv).
  - pose proof (inv_path _ _ Hinv L HL) as Hp. unfold above in Hp.
    rewrite filter_app in Hp. by apply path_last in Hp.
Qed.

(** Linking a new node with key [k] and height [h] into a well-formed
    list whose nodes [B] are before [k] and whose nodes [A] are behind. *)
Lemma link_new_node s B A k h mh rnd (prev : prev_array) :
  Inv s (B ++ A) ->
  Forall (λ b, lt (keyof s b) k) B -> Forall (λ a, lt k (keyof s a)) A ->
  1 <= h <= mh -> max_height_ s <= mh <= kMaxHeight ->
  (forall L, L < h -> prev !! L = Some (Some (pred_at s B L))) ->
  exists s',
    link_levels (mkList (nodes s ++ [mkNode k (replicate h None)]) mh rnd)
      (length (nodes s)) prev 0 h = Some s' /\
    Inv s' (B ++ length (nodes s) :: A) /\
    keys s' (B ++ length (nodes s) :: A) = keys s B ++ k :: keys s A.
Proof.
  intros Hinv HB HA Hh Hmh Hprev.
  set (n := length (nodes s)).
  set (s3 := mkList (nodes s ++ [mkNode k (replicate h None)]) mh rnd).
  pose proof (inv_count _ _ Hinv) as Hcount. fold n in Hcount.
  assert (Hold : forall y, y < n -> nodes s3 !! y = nodes s !! y).
  { intros y Hy. by apply lookup_app_l. }
  assert (Hnew : nodes s3 !! n = Some (mkNode k (replicate h None))).
  { by apply list_lookup_middle. }
  assert (Hold_h : forall y, y < n -> height s3 y = height s y).
  { intros y Hy. unfold height. by rewrite Hold. }
  assert (Hold_k : forall y, y < n -> keyof s3 y = keyof s y).
  { intros y Hy. unfold keyof. by rewrite Hold. }
  assert (Hold_n : forall y L, y < n -> Next s3 y L = Next s y L).
  { intros y L Hy. unfold Next. by rewrite Hold. }
  assert (Hnew_h : height s3 n = h).
  { unfold height. rewrite Hnew. cbn. apply length_replicate. }
  assert (Hnew_k : keyof s3 n = k).
  { unfold keyof. by rewrite Hnew. }
  assert (Hpred : forall L, L < h ->
            pred_at s B L < n /\ L < height s (pred_at s B L) /\
            Next s (pred_at s B L) L = Some (head (above s L A))).
  { intros L HL. apply pred_at_spec; [done|]. lia. }
  destruct (link_levels_spec prev n h s3 0) as (s' & Hrun & Hf & Hout & Hin).
  { intros L HL. exists (pred_at s B L).
    destruct (Hpred L) as (Hp1 & Hp2 & _); [lia|].
    split; [apply Hprev; lia|]. split; [lia|]. by rewrite Hold_h. }
  { rewrite Hnew_h. lia. }
  exists s'. split; [done|].
  destruct Hf as (Hlen & Hfh & Hfk & Hfm & Hfr).
  assert (Hlen3 : length (nodes s3) = S n).
  { cbn. rewrite length_app. cbn. lia. }
  assert (Hrange : forall i, i ∈ B ++ A ->
            1 <= i < n /\ 1 <= height s i <= max_height_ s).
  { intros i Hi. by apply (order_range s (B ++ A)). }
  assert (Hheights : forall i, i ∈ B ++ A -> height s' i = height s i).
  { intros i Hi. rewrite Hfh. apply Hold_h. by apply Hrange. }
  assert (Hkeys : forall i, i ∈ B ++ A -> keyof s' i = keyof s i).
  { intros i Hi. rewrite Hfk. apply Hold_k. by apply Hrange. }
  assert (HkeysB : keys s' B = keys s B).
  { apply keys_ext. intros i Hi. apply Hkeys, elem_of_app. by left. }
  assert (HkeysA : keys s' A = keys s A).
  { apply keys_ext. intros i Hi. apply Hkeys, elem_of_app. by right. }
  assert (Hkeys' : keys s' (B ++ n :: A) = keys s B ++ k :: keys s A).
  { unfold keys in *. rewrite fmap_app, fmap_cons, HkeysB, HkeysA.
    by rewrite Hfk, Hnew_k. }
  split; [|done]. split.
  - rewrite Hfh, Hold_h by (unfold head_; lia). apply (inv_head _ _ Hinv).
  - rewrite Hfm. cbn. lia.
  - rewrite Hlen, Hlen3. rewrite length_app in *. cbn. lia.
  - intros i Hi. rewrite Hlen, Hlen3, Hfm. cbn [max_height_ s3].
    apply elem_of_app in Hi as [Hi|[->|Hi]%elem_of_cons].
    + rewrite Hheights by (apply elem_of_app; by left).
      destruct (Hrange i) as [? ?]; [apply elem_of_app; by left|]. lia.
    + rewrite Hfh, Hnew_h. lia.
    + rewrite Hheights by (apply elem_of_app; by right).
      destruct (Hrange i) as [? ?]; [apply elem_of_app; by right|]. lia.
  - rewrite Hkeys'. pose proof (inv_sorted _ _ Hinv) as Hs. unfold keys in *.
    rewrite fmap_app in Hs. apply increasing_app in Hs as (HsB & HsA & HBA).
    apply increasing_app. split; [done|]. split.
    + cbn. split; [|done]. by apply Forall_fmap.
    + intros a b Ha [->|Hb]%elem_of_cons; [|by apply HBA].
      apply list_elem_of_fmap in Ha as (i & -> & Hi).
      rewrite Forall_forall in HB. by apply HB.
  - intros L HL.
    assert (HaB : above s' L B = above s L B).
    { apply above_ext. intros i Hi. apply Hheights, elem_of_app. by left. }
    assert (HaA : above s' L A = above s L A).
    { apply above_ext. intros i Hi. apply Hheights, elem_of_app. by right. }
    pose proof (inv_path _ _ Hinv L HL) as Hp.
    unfold above in *. rewrite filter_app in Hp.
    rewrite filter_app, filter_cons, HaB, HaA, Hfh, Hnew_h.
    assert (Hin_old : forall y,
              y ∈ head_ :: filter (λ i, L < height s i) B
                           ++ filter (λ i, L < height s i) A -> y < n).
    { intros y [->|Hy]%elem_of_cons; [unfold head_; lia|].
      rewrite <- filter_app in Hy. apply list_elem_of_filter in Hy as [_ Hy].
      by apply Hrange. }
    destruct (decide (L < h)) as [HLh|HLh].
    + destruct (Hpred L HLh) as (Hp1 & Hp2 & Hp3).
      destruct (Hin L (pred_at s B L)) as (H1 & H2 & H3);
        [lia | by apply Hprev |].
      apply (path_insert s); try done.
      * apply NoDup_cons. split.
        -- intros Hy. rewrite <- filter_app in Hy.
           apply list_elem_of_filter in Hy as [_ Hy].
           apply Hrange in Hy. unfold head_ in Hy. lia.
        -- rewrite <- filter_app. apply NoDup_filter.
           apply (increasing_NoDup (keyof s)), (inv_sorted _ _ Hinv).
      * intros Hy. apply Hin_old in Hy. lia.
      * by rewrite H1, Hold_n.
      * intros y Hy Hne. apply Hin_old in Hy.
        rewrite H3; [by apply Hold_n | lia | done].
    + eapply path_ext; [done|]. intros y Hy. apply Hin_old in Hy.
      rewrite Hout by lia. by apply Hold_n.
Qed.

(** [Insert] of a key that is not in the list succeeds, keeps the list
    well formed and adds the key to its keys. *)
Lemma Insert_spec s order k :
  Inv s order -> k ∉ keys s order ->
  exists s' order', Insert s k = Some s' /\ Inv s' order' /\
    forall K, K ∈ keys s' order' <-> K = k \/ K ∈ keys s order.
Proof.
  intros Hinv Hk.
  destruct (split_at s order k (inv_sorted _ _ Hinv)) as (B & A & -> & HB & HA).
  destruct (FindGreaterOrEqual_spec s B A k (Some (replicate kMaxHeight None))
              Hinv HB HA) as (prev' & Hfind & p & -> & Hlen & Hlow & Hhigh).
  rewrite length_replicate in *.
  pose proof (inv_max _ _ Hinv) as Hmax.
  assert (HA' : Forall (λ a, lt k (keyof s a)) A).
  { rewrite Forall_forall in *. intros a Ha. apply not_lt_gt; [by apply HA|].
    intros Heq. apply Hk. unfold keys. rewrite fmap_app, elem_of_app. right.
    rewrite <- Heq. by apply list_elem_of_fmap_2. }
  unfold Insert. rewrite Hfind. cbn [mbind option_bind].
  assert (Hdup : match head A with
                 | None => Some false
                 | Some i => node ← nodes s !! i; Some (Equal k (key node))
                 end = Some false).
  { destruct A as [|a A]; [done|]. cbn [head].
    destruct (height_lookup s a 0) as (node & Hn & _).
    { apply (order_range s (B ++ a :: A)); [done|].
      rewrite elem_of_app, elem_of_cons. auto. }
    rewrite Hn. cbn [mbind option_bind]. f_equal. unfold Equal.
    apply Z.eqb_neq. intros Heq%(compare_eq Hord).
    apply Forall_cons in HA' as [Ha _]. apply (lt_irrefl k).
    unfold keyof in Ha. rewrite Hn in Ha. by rewrite Heq at 2. }
  rewrite Hdup. cbn [mbind option_bind assert negb].
  destruct (RandomHeight_spec s) as (h & rnd & -> & Hh).
  cbn [mbind option_bind GetMaxHeight max_height_ nodes rnd_].
  assert (Hlink : forall mh (prev : prev_array),
            h <= mh -> max_height_ s <= mh <= kMaxHeight ->
            (forall L, L < h -> prev !! L = Some (Some (pred_at s B L))) ->
            exists s' order',
              link_levels
                (mkList (nodes s ++ [mkNode k (replicate h None)]) mh rnd)
                (length (nodes s)) prev 0 h = Some s' /\
              Inv s' order' /\
              forall K, K ∈ keys s' order' <-> K = k \/ K ∈ keys s (B ++ A)).
  { intros mh prev Hmh1 Hmh2 Hprev.
    destruct (link_new_node s B A k h mh rnd prev) as (s' & Hrun & Hinv' & Hk');
      try done; [lia|].
    exists s', (B ++ length (nodes s) :: A). split; [done|]. split; [done|].
    intros K. rewrite Hk'. unfold keys.
    rewrite fmap_app, !elem_of_app, elem_of_cons. tauto. }
  destruct (decide (max_height_ s < h)) as [Hgrow|Hkeep]; cbn [NewNode nodes max_height_ rnd_].
  - apply Hlink; [lia | lia |]. intros L HL.
    destruct (fill_prev_spec (h - max_height_ s) p (max_height_ s))
      as [_ ->].
    destruct (decide (max_height_ s <= L)) as [Hle|Hlt].
    + rewrite decide_True by lia. do 2 f_equal. unfold pred_at.
      assert (above s L B = []) as ->; [|done].
      apply elem_of_nil_inv. intros i [Hi1 Hi2]%list_elem_of_filter.
      destruct (order_range s (B ++ A) i Hinv); [apply elem_of_app; by left|].
      lia.
    + rewrite decide_False by lia. apply Hlow; lia.
  - apply Hlink; [lia | lia |]. intros L HL. apply Hlow; lia.
Qed.

Lemma InsertAll_spec ks : forall s order,
  Inv s order -> NoDup ks -> (forall k, k ∈ ks -> k ∉ keys s order) ->
  exists s' order', InsertAll s ks = Some s' /\ Inv s' order' /\
    forall K, K ∈ keys s' order' <-> K ∈ ks \/ K ∈ keys s order.
Proof.
  induction ks as [|k ks IH]; intros s order Hinv Hnd Hnew; cbn [InsertAll].
  - exists s, order. split; [done|]. split; [done|]. intros K.
    rewrite elem_of_nil. tauto.
  - apply NoDup_cons in Hnd as [Hk Hnd].
    destruct (Insert_spec s order k Hinv) as (s1 & order1 & -> & Hinv1 & Hk1).
    { apply Hnew. left. }
    cbn [mbind option_bind].
    destruct (IH s1 order1 Hinv1 Hnd) as (s' & order' & -> & Hinv' & Hk').
    { intros k' Hk'. rewrite Hk1. intros [->|Hin]; [done|].
      revert Hin. apply Hnew. by right. }
    exists s', order'. split; [done|]. split; [done|]. intros K.
    rewrite Hk', Hk1, elem_of_cons. tauto.
Qed.

(** C1. For every sequence of [Insert] calls with pairwise distinct keys
    on a fresh skip list under a total-order comparator, every call
    completes, and afterwards [Contains] answers true for every key that
    was inserted and false for every key that was not, whatever the random
    source gives. *)
Theorem Contains_after_inserts (ks : list Key) :
  NoDup ks ->
  exists s0 s, create = Some s0 /\ InsertAll s0 ks = Some s /\
    forall K, (K ∈ ks -> Contains s K = Some true) /\
              (K ∉ ks -> Contains s K = Some false).
Proof.
  intros Hnd.
  destruct (InsertAll_spec ks fresh [] Inv_fresh Hnd)
    as (s & order & Hrun & Hinv & Hkeys).
  { intros k _. apply not_elem_of_nil. }
  exists fresh, s. split; [apply create_fresh|]. split; [done|]. intros K.
  assert (K ∈ keys s order <-> K ∈ ks) as Hiff.
  { rewrite Hkeys. cbn. rewrite elem_of_nil. tauto. }
  destruct (Contains_spec s order K Hinv) as [[Hin ->]|[Hout ->]].
  - split; [done|]. intros HK. by apply Hiff in Hin.
  - split; [|done]. intros HK. by apply Hiff in HK.
Qed.

(** *** The other operations on a well-formed list *)

Lemma lt_asym a b : lt a b -> ~ lt b a.
Proof. intros H1 H2. by eapply lt_irrefl, lt_trans. Qed.

Lemma node_key s order i :
  Inv s order -> i ∈ order ->
  exists node, nodes s !! i = Some node /\ key node = keyof s i.
Proof.
  intros Hinv Hi. destruct (height_lookup s i 0) as (node & Hn & _).
  { by apply (order_range s order). }
  exists node. split; [done|]. unfold keyof. by rewrite Hn.
Qed.

(** A key that is in the list is the key of the first node that is not
    before it. *)
Lemma first_not_before s B A k :
  Inv s (B ++ A) ->
  Forall (λ b, lt (keyof s b) k) B -> Forall (λ a, ~ lt (keyof s a) k) A ->
  k ∈ keys s (B ++ A) -> exists a A', A = a :: A' /\ keyof s a = k.
Proof.
  intros Hinv HB HA Hk. unfold keys in Hk.
  rewrite fmap_app, elem_of_app in Hk. destruct Hk as [Hk|Hk].
  { apply list_elem_of_fmap in Hk as (b & -> & Hb).
    rewrite Forall_forall in HB. by apply HB, lt_irrefl in Hb. }
  destruct A as [|a A']; [by apply elem_of_nil in Hk|].
  exists a, A'. split; [done|].
  rewrite fmap_cons in Hk. apply elem_of_cons in Hk as [->|Hk]; [done|].
  pose proof (inv_sorted _ _ Hinv) as Hs. unfold keys in Hs.
  rewrite fmap_app, fmap_cons in Hs.
  apply increasing_app in Hs as (_ & [Hs _] & _).
  rewrite Forall_forall in Hs. apply Hs in Hk.
  apply Forall_cons in HA as [Ha _]. done.
Qed.

Lemma Insert_present s order k :
  Inv s order -> k ∈ keys s order -> Insert s k = None.
Proof.
  intros Hinv Hk.
  destruct (split_at s order k (inv_sorted _ _ Hinv)) as (B & A & -> & HB & HA).
  destruct (FindGreaterOrEqual_spec s B A k (Some (replicate kMaxHeight None))
              Hinv HB HA) as (prev' & Hfind & p & -> & _).
  destruct (first_not_before s B A k) as (a & A' & -> & Ha); try done.
  destruct (node_key s (B ++ a :: A') a Hinv) as (node & Hn & Hkey).
  { rewrite elem_of_app, elem_of_cons. auto. }
  unfold Insert. rewrite Hfind. cbn [mbind option_bind head]. rewrite Hn.
  cbn [mbind option_bind]. unfold Equal.
  assert ((compare_ k (key node) =? 0)%Z = true) as ->; [|done].
  apply Z.eqb_eq, (compare_eq Hord). congruence.
Qed.

Lemma Seek_spec s B A k :
  Inv s (B ++ A) ->
  Forall (λ b, lt (keyof s b) k) B -> Forall (λ a, ~ lt (keyof s a) k) A ->
  Seek s k = Some (head A).
Proof.
  intros Hinv HB HA.
  destruct (FindGreaterOrEqual_spec s B A k None Hinv HB HA)
    as (prev' & Hfind & _).
  unfold Seek. by rewrite Hfind.
Qed.

Lemma SeekToFirst_spec s order : Inv s order -> SeekToFirst s = Some (head order).
Proof.
  intros Hinv. unfold SeekToFirst.
  pose proof (inv_path _ _ Hinv 0) as Hp. rewrite above_0 in Hp.
  - apply path_head, Hp. unfold kMaxHeight. lia.
  - intros i Hi. by apply (order_range s order).
Qed.

Lemma walk_path s l : forall x fuel,
  path s 0 x l -> (forall i, i ∈ l -> 1 <= height s i) -> length l <= fuel ->
  walk fuel s (head l) = Some (keys s l).
Proof.
  induction l as [|y l IH]; intros x fuel Hp Hl Hfuel.
  - by destruct fuel.
  - destruct fuel as [|fuel]; [cbn in Hfuel; lia|]. inversion Hp; subst.
    cbn [head walk Iterator_key Iterator_Next mbind option_bind].
    destruct (height_lookup s y 0) as (node & Hn & _); [apply Hl; left|].
    rewrite Hn. cbn [mbind option_bind].
    erewrite path_head by done. cbn [mbind option_bind].
    rewrite (IH y fuel); try done.
    + cbn. unfold keyof. by rewrite Hn.
    + intros i Hi. apply Hl. by right.
    + cbn in Hfuel. lia.
Qed.

Lemma walk_spec s order fuel :
  Inv s order -> length order <= fuel ->
  walk fuel s (head order) = Some (keys s order).
Proof.
  intros Hinv Hfuel.
  assert (Hh : forall i, i ∈ order -> 1 <= height s i).
  { intros i Hi. by apply (order_range s order). }
  pose proof (inv_path _ _ Hinv 0) as Hp. rewrite above_0 in Hp by done.
  eapply walk_path; try done. apply Hp. unfold kMaxHeight. lia.
Qed.

Lemma FindLast_loop_spec s order fuel :
  Inv s order ->
  forall b1 b2 x level,
  order = b1 ++ b2 -> x = default head_ (last b1) ->
  (b1 = [] \/ level < height s x) -> level < kMaxHeight ->
  length b2 + level < fuel ->
  FindLast_loop fuel s x level = Some (default head_ (last order)).
Proof.
  intros Hinv.
  induction fuel as [|fuel IH]; intros b1 b2 x level Heq Hx Hb1 Hlevel Hfuel;
    [lia|].
  assert (Hnext : Next s x level = Some (head (above s level b2))).
  { pose proof (inv_path _ _ Hinv level Hlevel) as Hp.
    rewrite Heq in Hp. unfold above in Hp. rewrite filter_app in Hp.
    apply path_last in Hp. fold (above s level b1) in Hp.
    by rewrite (last_above _ _ _ x) in Hp. }
  cbn [FindLast_loop]. rewrite Hnext. cbn [mbind option_bind].
  destruct (above s level b2) as [|n r] eqn:Hab; cbn [head].
  - destruct level as [|level].
    + assert (b2 = []) as ->.
      { rewrite <- (above_0 s b2); [done|]. intros i Hi.
        apply (order_range s order); [done|]. rewrite Heq, elem_of_app. auto. }
      rewrite Heq, app_nil_r. by rewrite Hx.
    + apply (IH b1 b2); try done; try lia.
      destruct Hb1 as [?|?]; [by left | right; lia].
  - apply filter_head_split in Hab as (m1 & m2 & -> & Hm1 & Hn).
    apply (IH (b1 ++ m1 ++ [n]) m2); try done.
    + rewrite Heq. by rewrite <- !app_assoc.
    + by rewrite !app_assoc, last_snoc.
    + by right.
    + rewrite length_app in Hfuel. cbn in Hfuel. lia.
Qed.

Lemma last_not_head s order x :
  Inv s order -> last order = Some x -> x <> head_.
Proof.
  intros Hinv Hx%last_Some_elem_of.
  apply (order_range s order) in Hx as [? _]; [|done]. unfold head_. lia.
Qed.

Lemma SeekToLast_spec s order : Inv s order -> SeekToLast s = Some (last order).
Proof.
  intros Hinv. unfold SeekToLast, FindLast, GetMaxHeight.
  pose proof (inv_max _ _ Hinv) as Hmax.
  pose proof (inv_count _ _ Hinv) as Hcount.
  destruct (max_height_ s) as [|level] eqn:Hmh; [lia|].
  rewrite (FindLast_loop_spec s order _ Hinv [] order head_ level);
    try done; [|by left|lia|lia].
  cbn [mbind option_bind]. f_equal.
  destruct (last order) as [x|] eqn:Hl; cbn [default].
  - rewrite decide_False; [done|]. by eapply last_not_head.
  - by rewrite decide_True.
Qed.

Lemma FindLessThan_loop_spec s B A k fuel :
  Inv s (B ++ A) ->
  Forall (λ b, lt (keyof s b) k) B -> Forall (λ a, ~ lt (keyof s a) k) A ->
  forall b1 b2 x level,
  B = b1 ++ b2 -> x = default head_ (last b1) ->
  (b1 = [] \/ level < height s x) -> level < kMaxHeight ->
  length b2 + level < fuel ->
  FindLessThan_loop fuel s k x level = Some (default head_ (last B)).
Proof.
  intros Hinv HB HA.
  induction fuel as [|fuel IH]; intros b1 b2 x level HBeq Hx Hb1 Hlevel Hfuel;
    [lia|].
  assert (Hnext : Next s x level
                  = Some (head (above s level b2 ++ above s level A))).
  { pose proof (inv_path _ _ Hinv level Hlevel) as Hp.
    rewrite HBeq in Hp. unfold above in Hp.
    rewrite <- app_assoc, !filter_app in Hp. apply path_last in Hp.
    fold (above s level b1) in Hp. by rewrite (last_above _ _ _ x) in Hp. }
  assert (Hxnode : exists xnode, nodes s !! x = Some xnode /\
            (bool_decide (x = head_) || (compare_ (key xnode) k <? 0)%Z) = true).
  { destruct (last b1) as [y|] eqn:Hl; cbn [default] in Hx; subst x.
    - apply last_Some_elem_of in Hl.
      destruct (node_key s (B ++ A) y Hinv) as (node & Hn & Hkey).
      { rewrite HBeq, !elem_of_app. auto. }
      exists node. split; [done|]. apply orb_true_iff. right.
      rewrite Hkey. apply Z.ltb_lt. rewrite Forall_forall in HB. apply HB.
      rewrite HBeq, elem_of_app. auto.
    - destruct (height_lookup s head_ 0) as (node & Hn & _).
      { rewrite (inv_head _ _ Hinv). unfold kMaxHeight. lia. }
      exists node. split; [done|]. by rewrite bool_decide_eq_true_2. }
  destruct Hxnode as (xnode & Hxn & Hassert).
  cbn [FindLessThan_loop]. rewrite Hxn. cbn [mbind option_bind].
  rewrite Hassert. cbn [assert mbind option_bind]. rewrite Hnext.
  cbn [mbind option_bind].
  destruct (above s level b2) as [|n r] eqn:Hab.
  - assert (Hstop : match head ([] ++ above s level A) with
                    | None => Some true
                    | Some i =>
                        node ← nodes s !! i;
                        Some (compare_ (key node) k >=? 0)%Z
                    end = Some true).
    { cbn [app]. destruct (above s level A) as [|a r] eqn:HaA; [done|].
      assert (a ∈ A) as Ha.
      { assert (a ∈ above s level A) as Ha by (rewrite HaA; left).
        by apply list_elem_of_filter in Ha as [_ ?]. }
      cbn [head].
      destruct (node_key s (B ++ A) a Hinv) as (node & Hn & Hkey).
      { rewrite elem_of_app. auto. }
      rewrite Hn. cbn [mbind option_bind]. f_equal. rewrite Hkey.
      apply Z.geb_le. rewrite Forall_forall in HA. apply HA in Ha.
      unfold lt in Ha. lia. }
    rewrite Hstop. cbn [mbind option_bind].
    destruct level as [|level].
    + assert (b2 = []) as ->.
      { rewrite <- (above_0 s b2); [done|]. intros i Hi.
        apply (order_range s (B ++ A)); [done|]. rewrite HBeq, !elem_of_app.
        auto. }
      rewrite HBeq, app_nil_r. by rewrite Hx.
    + apply (IH b1 b2); try done; try lia.
      destruct Hb1 as [?|?]; [by left | right; lia].
  - apply filter_head_split in Hab as (m1 & m2 & -> & Hm1 & Hn).
    assert (n ∈ B) as HnB by (rewrite HBeq, !elem_of_app, elem_of_cons; auto).
    cbn [app head].
    destruct (node_key s (B ++ A) n Hinv) as (node & Hnn & Hkey).
    { rewrite elem_of_app. auto. }
    rewrite Hnn. cbn [mbind option_bind]. rewrite Hkey.
    rewrite Forall_forall in HB. pose proof (HB _ HnB) as Hlt. unfold lt in Hlt.
    assert ((compare_ (keyof s n) k >=? 0)%Z = false) as ->.
    { apply not_true_iff_false. rewrite Z.geb_le. lia. }
    cbn [mbind option_bind].
    apply (IH (b1 ++ m1 ++ [n]) m2); try done.
    + rewrite HBeq. by rewrite <- !app_assoc.
    + by rewrite !app_assoc, last_snoc.
    + by right.
    + rewrite length_app in Hfuel. cbn in Hfuel. lia.
Qed.

Lemma FindLessThan_spec s B A k :
  Inv s (B ++ A) ->
  Forall (λ b, lt (keyof s b) k) B -> Forall (λ a, ~ lt (keyof s a) k) A ->
  FindLessThan s k = Some (default head_ (last B)).
Proof.
  intros Hinv HB HA. unfold FindLessThan, GetMaxHeight.
  pose proof (inv_max _ _ Hinv) as Hmax.
  pose proof (inv_count _ _ Hinv) as Hcount. rewrite length_app in Hcount.
  destruct (max_height_ s) as [|level] eqn:Hmh; [lia|].
  apply (FindLessThan_loop_spec s B A k _ Hinv HB HA [] B); try done;
    [by left | lia | lia].
Qed.

(** [Prev] from a node of the list: the node before it in key order, or
    the invalid position at the first node. *)
Lemma Iterator_Prev_spec s B i A :
  Inv s (B ++ i :: A) -> Iterator_Prev s (Some i) = Some (last B).
Proof.
  intros Hinv.
  destruct (node_key s _ i Hinv) as (node & Hn & Hkey).
  { rewrite elem_of_app, elem_of_cons. auto. }
  pose proof (inv_sorted _ _ Hinv) as Hs. unfold keys in Hs.
  rewrite fmap_app, fmap_cons in Hs.
  apply increasing_app in Hs as (_ & [HiA _] & HBi).
  unfold Iterator_Prev. cbn [mbind option_bind]. rewrite Hn.
  cbn [mbind option_bind]. rewrite Hkey.
  rewrite (FindLessThan_spec s B (i :: A)); try done.
  - cbn [mbind option_bind]. f_equal.
    destruct (last B) as [x|] eqn:Hl; cbn [default].
    + rewrite decide_False; [done|].
      apply last_Some_elem_of in Hl.
      destruct (order_range s (B ++ i :: A) x Hinv) as [? _].
      { rewrite elem_of_app. auto. }
      unfold head_, id. lia.
    + by rewrite decide_True.
  - apply Forall_forall. intros b Hb. apply HBi; [|left].
    by apply list_elem_of_fmap_2.
  - constructor; [apply lt_irrefl|]. rewrite Forall_fmap in HiA.
    eapply List.Forall_impl; [|exact HiA]. intros a Ha. by apply lt_asym.
Qed.

(** *** Lists built by the constructor and [Insert] *)

Definition build (ks : list Key) : option t := s0 ← create; InsertAll s0 ks.

Lemma build_Inv ks s :
  NoDup ks -> build ks = Some s ->
  exists order, Inv s order /\ forall K, K ∈ keys s order <-> K ∈ ks.
Proof.
  intros Hnd Hb. unfold build in Hb. rewrite create_fresh in Hb.
  cbn [mbind option_bind] in Hb.
  destruct (InsertAll_spec ks fresh [] Inv_fresh Hnd)
    as (s' & order & Hrun & Hinv & Hkeys).
  { intros k _. apply not_elem_of_nil. }
  assert (s' = s) as -> by congruence.
  exists order. split; [done|]. intros K. rewrite Hkeys. cbn.
  rewrite elem_of_nil. tauto.
Qed.

(** Inserting a key a second time fails the assertion of [Insert]. *)
Theorem Insert_duplicate_aborts ks s k :
  NoDup ks -> build ks = Some s -> k ∈ ks -> Insert s k = None.
Proof.
  intros Hnd Hb Hk. destruct (build_Inv ks s Hnd Hb) as (order & Hinv & Hkeys). clear Hb.
  apply (Insert_present s order); [done|]. by apply Hkeys.
Qed.

(** Iterating from [SeekToFirst] with [Next] visits every inserted key
    once, in strictly ascending order. *)
Theorem iteration_ascending ks s :
  NoDup ks -> build ks = Some s ->
  exists it out,
    SeekToFirst s = Some it /\ walk (length ks) s it = Some out /\
    increasing out /\ out ≡ₚ ks.
Proof.
  intros Hnd Hb. destruct (build_Inv ks s Hnd Hb) as (order & Hinv & Hkeys). clear Hb.
  assert (Hperm : keys s order ≡ₚ ks).
  { apply NoDup_Permutation; [|done|done].
    apply (increasing_NoDup id). rewrite list_fmap_id.
    apply (inv_sorted _ _ Hinv). }
  exists (head order), (keys s order). split; [by apply SeekToFirst_spec|].
  split; [|split; [apply (inv_sorted _ _ Hinv) | done]].
  apply walk_spec; [done|]. apply Permutation_length in Hperm.
  unfold keys in Hperm. rewrite length_fmap in Hperm. lia.
Qed.

(** [Seek] stops at the smallest inserted key that is not before the
    target, and at the invalid position when every key is before it. *)
Theorem Seek_first_not_before ks s K :
  NoDup ks -> build ks = Some s ->
  exists it,
    Seek s K = Some it /\
    match Iterator_key s it with
    | Some K' =>
        K' ∈ ks /\ ~ lt K' K /\ forall k, k ∈ ks -> ~ lt k K -> ~ lt k K'
    | None => Valid it = false /\ forall k, k ∈ ks -> lt k K
    end.
Proof.
  intros Hnd Hb. destruct (build_Inv ks s Hnd Hb) as (order & Hinv & Hkeys). clear Hb.
  destruct (split_at s order K (inv_sorted _ _ Hinv)) as (B & A & -> & HB & HA).
  exists (head A). split; [by apply (Seek_spec s B A)|].
  assert (HBlt : forall k, k ∈ keys s B -> lt k K).
  { intros k (b & -> & Hb')%list_elem_of_fmap. rewrite Forall_forall in HB.
    by apply HB. }
  destruct A as [|a A]; cbn [head Iterator_key mbind option_bind].
  - split; [done|]. intros k Hk%Hkeys. apply HBlt. by rewrite app_nil_r in Hk.
  - destruct (node_key s _ a Hinv) as (node & Hn & Hkey).
    { rewrite elem_of_app, elem_of_cons. auto. }
    rewrite Hn. cbn [mbind option_bind]. rewrite Hkey.
    apply Forall_cons in HA as [Ha HA]. split; [|split; [done|]].
    + apply Hkeys. unfold keys.
      rewrite fmap_app, elem_of_app, fmap_cons, elem_of_cons. auto.
    + intros k Hk%Hkeys Hge. unfold keys in Hk.
      rewrite fmap_app, elem_of_app, fmap_cons, elem_of_cons in Hk.
      destruct Hk as [Hk|[->|Hk]].
      * by apply HBlt in Hk.
      * apply lt_irrefl.
      * pose proof (inv_sorted _ _ Hinv) as Hs. unfold keys in Hs.
        rewrite fmap_app, fmap_cons in Hs.
        apply increasing_app in Hs as (_ & [Hs _] & _).
        rewrite Forall_forall in Hs. by apply lt_asym, Hs.
Qed.

(** [SeekToLast] stops at the greatest inserted key, and at the invalid
    position in an empty list. *)
Theorem SeekToLast_greatest ks s :
  NoDup ks -> build ks = Some s ->
  exists it,
    SeekToLast s = Some it /\
    match Iterator_key s it with
    | Some K' => K' ∈ ks /\ forall k, k ∈ ks -> ~ lt K' k
    | None => Valid it = false /\ ks = []
    end.
Proof.
  intros Hnd Hb. destruct (build_Inv ks s Hnd Hb) as (order & Hinv & Hkeys). clear Hb.
  exists (last order). split; [by apply SeekToLast_spec|].
  destruct (last order) as [x|] eqn:Hl; cbn [Iterator_key mbind option_bind].
  - apply last_Some in Hl as [o' ->].
    destruct (node_key s _ x Hinv) as (node & Hn & Hkey).
    { rewrite elem_of_app, elem_of_cons. auto. }
    rewrite Hn. cbn [mbind option_bind]. rewrite Hkey.
    pose proof (inv_sorted _ _ Hinv) as Hs. unfold keys in Hs.
    rewrite fmap_app in Hs. apply increasing_app in Hs as (_ & _ & Hs).
    split.
    + apply Hkeys. unfold keys. rewrite fmap_app, elem_of_app. right.
      cbn. left.
    + intros k Hk%Hkeys. unfold keys in Hk.
      rewrite fmap_app, elem_of_app in Hk. destruct Hk as [Hk|Hk].
      * apply lt_asym, Hs; [done|]. cbn. left.
      * cbn in Hk. apply elem_of_cons in Hk as [->|Hk];
          [apply lt_irrefl | by apply elem_of_nil in Hk].
  - apply last_None in Hl as ->. split; [done|].
    apply elem_of_nil_inv. intros k Hk%Hkeys. by apply elem_of_nil in Hk.
Qed.

(** [Prev] from the position of an inserted key stops at the greatest
    inserted key before it, and at the invalid position when there is
    none. *)
Theorem Prev_greatest_before ks s K :
  NoDup ks -> build ks = Some s -> K ∈ ks ->
  exists it it',
    Seek s K = Some it /\ Iterator_key s it = Some K /\
    Iterator_Prev s it = Some it' /\
    match Iterator_key s it' with
    | Some K' =>
        K' ∈ ks /\ lt K' K /\ forall k, k ∈ ks -> lt k K -> ~ lt K' k
    | None => Valid it' = false /\ forall k, k ∈ ks -> ~ lt k K
    end.
Proof.
  intros Hnd Hb HK. destruct (build_Inv ks s Hnd Hb) as (order & Hinv & Hkeys). clear Hb.
  destruct (split_at s order K (inv_sorted _ _ Hinv)) as (B & A & -> & HB & HA).
  destruct (first_not_before s B A K) as (a & A' & -> & Ha); try done.
  { by apply Hkeys. }
  exists (Some a), (last B). split; [by rewrite (Seek_spec s B (a :: A'))|].
  destruct (node_key s _ a Hinv) as (node & Hn & Hkey).
  { rewrite elem_of_app, elem_of_cons. auto. }
  split; [|split; [by apply (Iterator_Prev_spec s B a A')|]].
  { cbn [Iterator_key mbind option_bind]. rewrite Hn. cbn. congruence. }
  assert (Hrest : forall k, k ∈ keys s (a :: A') -> ~ lt k K).
  { intros k (i & -> & Hi)%list_elem_of_fmap. rewrite Forall_forall in HA.
    by apply HA. }
  destruct (last B) as [b|] eqn:Hl; cbn [Iterator_key mbind option_bind].
  - apply last_Some in Hl as [B' ->].
    destruct (node_key s _ b Hinv) as (bnode & Hbn & Hbkey).
    { rewrite !elem_of_app, elem_of_cons. auto. }
    rewrite Hbn. cbn [mbind option_bind]. rewrite Hbkey.
    pose proof (inv_sorted _ _ Hinv) as Hs. unfold keys in Hs.
    rewrite !fmap_app in Hs.
    apply increasing_app in Hs as (Hs & _ & _).
    apply increasing_app in Hs as (_ & _ & Hs).
    split; [|split].
    + apply Hkeys. unfold keys. rewrite !fmap_app, !elem_of_app. left; right.
      cbn. left.
    + rewrite Forall_forall in HB. apply HB. rewrite elem_of_app. right. left.
    + intros k Hk%Hkeys Hlt. unfold keys in Hk.
      rewrite fmap_app, elem_of_app in Hk. destruct Hk as [Hk|Hk];
        [|by apply Hrest in Hk].
      rewrite fmap_app, elem_of_app in Hk. destruct Hk as [Hk|Hk].
      * apply lt_asym, Hs; [done|]. cbn. left.
      * cbn in Hk. apply elem_of_cons in Hk as [->|Hk];
          [apply lt_irrefl | by apply elem_of_nil in Hk].
  - apply last_None in Hl as ->. split; [done|].
    intros k Hk%Hkeys. by apply Hrest.
Qed.

(** A list built by [Insert] calls keeps its height between one and
    [kMaxHeight]. *)
Theorem GetMaxHeight_bounds ks s :
  NoDup ks -> build ks = Some s -> 1 <= GetMaxHeight s <= kMaxHeight.
Proof.
  intros Hnd Hb. destruct (build_Inv ks s Hnd Hb) as (order & Hinv & _). clear Hb.
  apply (inv_max _ _ Hinv).
Qed.

End Ordered.

End WithKey.

(** An instance: integer keys compared by their difference, and a random
    source that is a linear congruential generator. *)
Definition Z_compare (a b : Z) : Z := (a - b)%Z.

Definition lcg_Next (seed : Z) : Z * Z :=
  let seed' := ((seed * 16807) mod 2147483647)%Z in (seed', seed').

Lemma Z_compare_total : total_order Z_compare.
Proof. unfold Z_compare. split; intros; lia. Qed.

Lemma Contains_after_inserts_witness :
  exists s0 s,
    create 0%Z id = Some s0 /\
    InsertAll Z_compare lcg_Next s0 [3; 1; 4; 5; 9; 2; 6]%Z = Some s /\
    forall K, (K ∈ [3; 1; 4; 5; 9; 2; 6]%Z -> Contains Z_compare s K = Some true) /\
              (K ∉ [3; 1; 4; 5; 9; 2; 6]%Z -> Contains Z_compare s K = Some false).
Proof.
  apply (Contains_after_inserts Z_compare 0%Z id lcg_Next Z_compare_total).
  apply (bool_decide_unpack _). vm_compute. exact I.
Defined.

Definition example_keys : list Z := [3; 1; 4; 5; 9; 2; 6]%Z.

Definition example_list : t :=
  Eval vm_compute in
    default (fresh 0%Z id) (build Z_compare 0%Z id lcg_Next example_keys).

Lemma build_example :
  build Z_compare 0%Z id lcg_Next example_keys = Some example_list.
Proof. vm_compute. reflexivity. Qed.

Lemma NoDup_example_keys : NoDup example_keys.
Proof. apply (bool_decide_unpack _). vm_compute. exact I. Qed.

Lemma Insert_duplicate_aborts_witness :
  Insert Z_compare lcg_Next example_list 4%Z = None.
Proof.
  apply (Insert_duplicate_aborts Z_compare 0%Z id lcg_Next Z_compare_total
           example_keys).
  - apply NoDup_example_keys.
  - apply build_example.
  - apply (bool_decide_unpack _). vm_compute. exact I.
Defined.

Lemma iteration_ascending_witness :
  exists it out,
    SeekToFirst example_list = Some it /\
    walk (length example_keys) example_list it = Some out /\
    increasing Z_compare out /\ out ≡ₚ example_keys.
Proof.
  apply (iteration_ascending Z_compare 0%Z id lcg_Next Z_compare_total).
  - apply NoDup_example_keys.
  - apply build_example.
Defined.

Lemma Seek_first_not_before_witness :
  exists it,
    Seek Z_compare example_list 7%Z = Some it /\
    match Iterator_key example_list it with
    | Some K' =>
        K' ∈ example_keys /\ ~ lt Z_compare K' 7%Z /\
        forall k, k ∈ example_keys -> ~ lt Z_compare k 7%Z ->
                  ~ lt Z_compare k K'
    | None =>
        Valid it = false /\ forall k, k ∈ example_keys -> lt Z_compare k 7%Z
    end.
Proof.
  apply (Seek_first_not_before Z_compare 0%Z id lcg_Next Z_compare_total).
  - apply NoDup_example_keys.
  - apply build_example.
Defined.

Lemma SeekToLast_greatest_witness :
  exists it,
    SeekToLast example_list = Some it /\
    match Iterator_key example_list it with
    | Some K' =>
        K' ∈ example_keys /\ forall k, k ∈ example_keys -> ~ lt Z_compare K' k
    | None => Valid it = false /\ example_keys = []
    end.
Proof.
  apply (SeekToLast_greatest Z_compare 0%Z id lcg_Next Z_compare_total).
  - apply NoDup_example_keys.
  - apply build_example.
Defined.

Lemma Prev_greatest_before_witness :
  exists it it',
    Seek Z_compare example_list 5%Z = Some it /\
    Iterator_key example_list it = Some 5%Z /\
    Iterator_Prev Z_compare example_list it = Some it' /\
    match Iterator_key example_list it' with
    | Some K' =>
        K' ∈ example_keys /\ lt Z_compare K' 5%Z /\
        forall k, k ∈ example_keys -> lt Z_compare k 5%Z ->
                  ~ lt Z_compare K' k
    | None =>
        Valid it' = false /\
        forall k, k ∈ example_keys -> ~ lt Z_compare k 5%Z
    end.
Proof.
  apply (Prev_greatest_before Z_compare 0%Z id lcg_Next Z_compare_total).
  - apply NoDup_example_keys.
  - apply build_example.
  - apply (bool_decide_unpack _). vm_compute. exact I.
Defined.

Lemma GetMaxHeight_bounds_witness :
  1 <= GetMaxHeight example_list <= kMaxHeight.
Proof.
  apply (GetMaxHeight_bounds Z_compare 0%Z id lcg_Next Z_compare_total
           example_keys).
  - apply NoDup_example_keys.
  - apply build_example.
Defined.

(** The scenario of the example list: lookups, iteration and the moves
    of the iterator. *)
Example example_list_scenario :
  Contains Z_compare example_list 7%Z = Some false /\
  Contains Z_compare example_list 4%Z = Some true /\
  (it ← SeekToFirst example_list; walk 7 example_list it)
  = Some [1; 2; 3; 4; 5; 6; 9]%Z /\
  (it ← SeekToLast example_list; Iterator_key example_list it) = Some 9%Z /\
  (it ← Seek Z_compare example_list 7%Z;
   it ← Iterator_Prev Z_compare example_list it;
   Iterator_key example_list it) = Some 6%Z.
Proof. vm_compute. done. Qed.

End SkipList.

(** ** db/table_cache.cc *)

Module TableCache.

(** Modelled from the spec: util/coding.h is not among the sources; a
    fixed-width integer is written as its bytes, least significant
    first. *)
Definition EncodeFixed64 (v : Z) : bytes :=
  [ byte_of_Z v; byte_of_Z (Z.shiftr v 8);
    byte_of_Z (Z.shiftr v 16); byte_of_Z (Z.shiftr v 24);
    byte_of_Z (Z.shiftr v 32); byte_of_Z (Z.shiftr v 40);
    byte_of_Z (Z.shiftr v 48); byte_of_Z (Z.shiftr v 56) ].

Section WithCollaborators.

(** The collaborators of the table cache are not among the sources and
    are kept abstract: the objects [RandomAccessFile], [Table] and
    [Cache::Handle], the states of the environment and of the cache, and
    the options, the read options and the argument [arg] that [Get] hands
    to the table. *)
Context {File Table Handle Env Cache Opts ReadOpts Arg : Type}.

Record TableAndFile := mkTableAndFile
  { file : option File;
    table : option Table }.

(** [Env::NewRandomAccessFile(fname, &file)]: from the state of the
    environment, the name and the pointer [file] holds before the call,
    the status, the pointer [file] holds after the call and the new state
    of the environment. *)
Variable NewRandomAccessFile :
  Env -> string -> option File -> Status * option File * Env.

(** [Table::Open(options, file, size, &table)], called with a null
    [table]: the status and the pointer [table] holds after the call. *)
Variable Table_Open : Opts -> option File -> Z -> Status * option Table.

(** [Table::InternalGet(options, k, arg, handle_result)]: the status and
    what the callback has made of [arg]. *)
Variable Table_InternalGet :
  option Table -> ReadOpts -> bytes -> Arg -> Status * Arg.

(** db/filename.h: the name of a table file, with the extension .ldb, and
    its name with the older extension .sst. *)
Variable TableFileName : string -> Z -> string.
Variable SSTTableFileName : string -> Z -> string.

(** leveldb/cache.h.  Every operation can change the state of the cache;
    [Lookup] and [Insert] return a handle, [Lookup] a null one on a
    miss. *)
Variable Cache_Lookup : Cache -> bytes -> option Handle * Cache.
Variable Cache_Insert :
  Cache -> bytes -> TableAndFile -> Z -> option Handle * Cache.
Variable Cache_Value : Cache -> option Handle -> TableAndFile.
Variable Cache_Release : Cache -> option Handle -> Cache.
Variable Cache_Erase : Cache -> bytes -> Cache.

Record t := mkTableCache
  { env_ : Env;
    dbname_ : string;
    options_ : Opts;
    cache_ : Cache }.

Definition set_env (tc : t) (e : Env) : t :=
  mkTableCache e (dbname_ tc) (options_ tc) (cache_ tc).

Definition set_cache (tc : t) (c : Cache) : t :=
  mkTableCache (env_ tc) (dbname_ tc) (options_ tc) c.

(** [TableCache::FindTable]: the status, the handle stored in [*handle]
    and the table cache after the call.  [delete file] on the failure path
    and the deleter handed to [Insert] free objects; they are no part of
    the state kept here. *)
Definition FindTable (tc : t) (file_number file_size : Z)
  : option (Status * option Handle * t) :=
  let s := OK in
  let key := EncodeFixed64 file_number in
  let '(handle, cache) := Cache_Lookup (cache_ tc) key in
  let tc := set_cache tc cache in
  match handle with
  | Some _ => Some (s, handle, tc)
  | None =>
      let fname := TableFileName (dbname_ tc) file_number in
      let file := None in
      let table := None in
      let '(s, file, env) := NewRandomAccessFile (env_ tc) fname file in
      let tc := set_env tc env in
      let '(s, file, tc) :=
        if ok s then (s, file, tc)
        else
          let old_fname := SSTTableFileName (dbname_ tc) file_number in
          let '(s', file, env) :=
            NewRandomAccessFile (env_ tc) old_fname file in
          (if ok s' then OK else s, file, set_env tc env) in
      let '(s, table) :=
        if ok s then Table_Open (options_ tc) file file_size
        else (s, table) in
      if ok s then
        let tf := mkTableAndFile file table in
        let '(handle, cache) := Cache_Insert (cache_ tc) key tf 1 in
        Some (s, handle, set_cache tc cache)
      else
        _ ← assert (match table with None => true | Some _ => false end);
        (* We do not cache error results so that if the error is
           transient, or somebody repairs the file, we recover
           automatically. *)
        Some (s, handle, tc)
  end.

(** [TableCache::Get]: the status, [arg] after the call and the table
    cache after the call. *)
Definition Get (tc : t) (options : ReadOpts) (file_number file_size : Z)
    (k : bytes) (arg : Arg) : option (Status * Arg * t) :=
  '(s, handle, tc) ← FindTable tc file_number file_size;
  if ok s then
    let t := table (Cache_Value (cache_ tc) handle) in
    let '(s, arg) := Table_InternalGet t options k arg in
    Some (s, arg, set_cache tc (Cache_Release (cache_ tc) handle))
  else Some (s, arg, tc).

(** [TableCache::Evict] *)
Definition Evict (tc : t) (file_number : Z) : t :=
  set_cache tc (Cache_Erase (cache_ tc) (EncodeFixed64 file_number)).

(** The result of [FindTable] on a hit: only the cache is consulted. *)
Lemma FindTable_hit tc n size h cache1 :
  Cache_Lookup (cache_ tc) (EncodeFixed64 n) = (Some h, cache1) ->
  FindTable tc n size = Some (OK, Some h, set_cache tc cache1).
Proof. intros Hl. unfold FindTable. by rewrite Hl. Qed.

(** The result of [FindTable] on a miss, by the outcome of the two
    attempts to open the file and of [Table::Open]. *)
Lemma FindTable_miss_cases tc n size cache1 :
  Cache_Lookup (cache_ tc) (EncodeFixed64 n) = (None, cache1) ->
  (forall f, ok (Table_Open (options_ tc) f size).1 = false ->
             (Table_Open (options_ tc) f size).2 = None) ->
  let ldb := NewRandomAccessFile (env_ tc) (TableFileName (dbname_ tc) n) None in
  let sst := NewRandomAccessFile ldb.2 (SSTTableFileName (dbname_ tc) n)
               ldb.1.2 in
  let opened := if ok ldb.1.1 then ldb else sst in
  let parsed := Table_Open (options_ tc) opened.1.2 size in
  let inserted :=
    Cache_Insert cache1 (EncodeFixed64 n)
      (mkTableAndFile opened.1.2 parsed.2) 1 in
  FindTable tc n size =
    if ok ldb.1.1 || ok sst.1.1 then
      if ok parsed.1
      then Some (parsed.1, inserted.1,
                 mkTableCache opened.2 (dbname_ tc) (options_ tc) inserted.2)
      else Some (parsed.1, None,
                 mkTableCache opened.2 (dbname_ tc) (options_ tc) cache1)
    else Some (ldb.1.1, None,
               mkTableCache opened.2 (dbname_ tc) (options_ tc) cache1).
Proof.
  intros Hl Hopen. cbn zeta. unfold FindTable. rewrite Hl.
  unfold set_cache, set_env. cbn [env_ dbname_ options_ cache_].
  destruct (NewRandomAccessFile (env_ tc) (TableFileName (dbname_ tc) n) None)
    as [[s1 f1] e1]. cbn [fst snd env_ dbname_ options_ cache_].
  destruct (ok s1) eqn:Hs1; cbn [orb env_ dbname_ options_ cache_ fst snd].
  - rewrite Hs1. pose proof (Hopen f1) as Hnull.
    destruct (Table_Open (options_ tc) f1 size) as [st table].
    cbn [fst snd] in *.
    destruct (Cache_Insert cache1 (EncodeFixed64 n) (mkTableAndFile f1 table) 1)
      as [h cache2].
    destruct (ok st); [done|]. by rewrite Hnull.
  - destruct (NewRandomAccessFile e1 (SSTTableFileName (dbname_ tc) n) f1)
      as [[s2 f2] e2]. cbn [fst snd env_ dbname_ options_ cache_].
    destruct (ok s2) eqn:Hs2; cbn [ok env_ dbname_ options_ cache_].
    + pose proof (Hopen f2) as Hnull.
      destruct (Table_Open (options_ tc) f2 size) as [st table].
      cbn [fst snd] in *.
      destruct (Cache_Insert cache1 (EncodeFixed64 n)
                  (mkTableAndFile f2 table) 1) as [h cache2].
      destruct (ok st); [done|]. by rewrite Hnull.
    + rewrite Hs1. cbn. by rewrite Hs1.
Qed.

(** What a failed [FindTable] leaves behind, whatever the collaborators
    do. *)
Lemma FindTable_failed tc n size s h tc' :
  FindTable tc n size = Some (s, h, tc') -> ok s = false ->
  h = None /\
  (Cache_Lookup (cache_ tc) (EncodeFixed64 n)).1 = None /\
  cache_ tc' = (Cache_Lookup (cache_ tc) (EncodeFixed64 n)).2 /\
  dbname_ tc' = dbname_ tc /\ options_ tc' = options_ tc.
Proof.
  unfold FindTable.
  destruct (Cache_Lookup (cache_ tc) (EncodeFixed64 n)) as [[h0|] cache1].
  { intros Heq Hs. by simplify_eq/=. }
  unfold set_cache, set_env. cbn [env_ dbname_ options_ cache_ fst snd].
  destruct (NewRandomAccessFile (env_ tc) (TableFileName (dbname_ tc) n) None)
    as [[s1 f1] e1].
  destruct (ok s1) eqn:Hs1; cbn [env_ dbname_ options_ cache_].
  - rewrite Hs1. destruct (Table_Open (options_ tc) f1 size) as [st table].
    destruct (ok st) eqn:Hst.
    + destruct (Cache_Insert cache1 _ _ _) as [h1 cache2].
      intros Heq Hs. simplify_eq/=. congruence.
    + destruct table; intros Heq Hs; by simplify_eq/=.
  - destruct (NewRandomAccessFile e1 (SSTTableFileName (dbname_ tc) n) f1)
      as [[s2 f2] e2]. cbn [env_ dbname_ options_ cache_].
    destruct (ok s2) eqn:Hs2; cbn [ok].
    + destruct (Table_Open (options_ tc) f2 size) as [st table].
      destruct (ok st) eqn:Hst.
      * destruct (Cache_Insert cache1 _ _ _) as [h1 cache2].
        intros Heq Hs. simplify_eq/=. congruence.
      * destruct table; intros Heq Hs; by simplify_eq/=.
    + rewrite Hs1. cbn. rewrite Hs1. intros Heq Hs. by simplify_eq/=.
Qed.

(** C10. On a cache miss [FindTable] opens the file under its .ldb name
    and, when that fails, under its .sst name, going on with an OK status
    when the second attempt succeeds.  When neither name can be opened
    the status of the first attempt is returned, and when [Table::Open]
    fails its status is returned; in both cases the handle is null and the
    cache is left as [Lookup] left it, with no entry inserted.  An entry
    holding the file and the table is inserted exactly when a file was
    opened and parsed, and its handle is returned. *)
Theorem FindTable_miss tc n size cache1 :
  Cache_Lookup (cache_ tc) (EncodeFixed64 n) = (None, cache1) ->
  (forall f, ok (Table_Open (options_ tc) f size).1 = false ->
             (Table_Open (options_ tc) f size).2 = None) ->
  let ldb := NewRandomAccessFile (env_ tc) (TableFileName (dbname_ tc) n) None in
  let sst := NewRandomAccessFile ldb.2 (SSTTableFileName (dbname_ tc) n)
               ldb.1.2 in
  let opened := if ok ldb.1.1 then ldb else sst in
  let parsed := Table_Open (options_ tc) opened.1.2 size in
  let inserted :=
    Cache_Insert cache1 (EncodeFixed64 n)
      (mkTableAndFile opened.1.2 parsed.2) 1 in
  FindTable tc n size =
    if ok ldb.1.1 || ok sst.1.1 then
      if ok parsed.1
      then Some (parsed.1, inserted.1,
                 mkTableCache opened.2 (dbname_ tc) (options_ tc) inserted.2)
      else Some (parsed.1, None,
                 mkTableCache opened.2 (dbname_ tc) (options_ tc) cache1)
    else Some (ldb.1.1, None,
               mkTableCache opened.2 (dbname_ tc) (options_ tc) cache1).
Proof. apply FindTable_miss_cases. Qed.

(** A failed [FindTable] is not remembered: on a cache in which a missed
    key stays missing, the next [FindTable] for the same file misses again
    and so asks the environment again. *)
Theorem FindTable_failure_not_cached tc n size s h tc' :
  (forall c k c', Cache_Lookup c k = (None, c') ->
                  (Cache_Lookup c' k).1 = None) ->
  FindTable tc n size = Some (s, h, tc') -> ok s = false ->
  h = None /\ (Cache_Lookup (cache_ tc') (EncodeFixed64 n)).1 = None.
Proof.
  intros Hlaw Hfind Hs.
  destruct (FindTable_failed _ _ _ _ _ _ Hfind Hs) as (-> & Hmiss & -> & _).
  split; [done|].
  destruct (Cache_Lookup (cache_ tc) (EncodeFixed64 n)) as [h0 c1] eqn:Hl.
  cbn [fst snd] in *. subst h0. by eapply Hlaw.
Qed.

(** [Get] for a table whose file can be opened under neither name returns
    the status of the attempt on the .ldb name; it calls neither the table
    nor [Release], so [arg] and the cache stay as they are. *)
Theorem Get_unopenable tc options n size k arg cache1 :
  Cache_Lookup (cache_ tc) (EncodeFixed64 n) = (None, cache1) ->
  let ldb := NewRandomAccessFile (env_ tc) (TableFileName (dbname_ tc) n) None in
  let sst := NewRandomAccessFile ldb.2 (SSTTableFileName (dbname_ tc) n)
               ldb.1.2 in
  ok ldb.1.1 = false -> ok sst.1.1 = false ->
  Get tc options n size k arg =
    Some (ldb.1.1, arg, mkTableCache sst.2 (dbname_ tc) (options_ tc) cache1).
Proof.
  intros Hl ldb sst Hldb Hsst. unfold Get, FindTable. rewrite Hl.
  unfold set_cache, set_env. cbn [env_ dbname_ options_ cache_].
  subst sst ldb.
  destruct (NewRandomAccessFile (env_ tc) (TableFileName (dbname_ tc) n) None)
    as [[s1 f1] e1]. cbn [fst snd env_ dbname_ options_ cache_] in *.
  rewrite Hldb.
  destruct (NewRandomAccessFile e1 (SSTTableFileName (dbname_ tc) n) f1)
    as [[s2 f2] e2]. cbn [fst snd env_ dbname_ options_ cache_] in *.
  rewrite Hsst, !Hldb. cbn. by rewrite ?Hldb.
Qed.

(** [Evict] erases the entry under the key [FindTable] looks up: on a
    cache in which an erased key is missing, [FindTable] after [Evict]
    goes to the environment, and fails when the file can be opened under
    neither name, whatever was cached before. *)
Theorem FindTable_after_Evict tc n size :
  (forall c k, (Cache_Lookup (Cache_Erase c k) k).1 = None) ->
  let cache1 :=
    (Cache_Lookup (Cache_Erase (cache_ tc) (EncodeFixed64 n))
       (EncodeFixed64 n)).2 in
  let ldb := NewRandomAccessFile (env_ tc) (TableFileName (dbname_ tc) n) None in
  let sst := NewRandomAccessFile ldb.2 (SSTTableFileName (dbname_ tc) n)
               ldb.1.2 in
  ok ldb.1.1 = false -> ok sst.1.1 = false ->
  FindTable (Evict tc n) n size =
    Some (ldb.1.1, None,
          mkTableCache sst.2 (dbname_ tc) (options_ tc) cache1).
Proof.
  intros Hlaw cache1 ldb sst Hldb Hsst. unfold FindTable, Evict.
  unfold set_cache, set_env. cbn [env_ dbname_ options_ cache_].
  pose proof (Hlaw (cache_ tc) (EncodeFixed64 n)) as Hmiss. subst cache1.
  destruct (Cache_Lookup (Cache_Erase (cache_ tc) (EncodeFixed64 n))
              (EncodeFixed64 n)) as [h0 c1].
  cbn [fst snd] in *. subst h0 sst ldb.
  cbn [env_ dbname_ options_ cache_].
  destruct (NewRandomAccessFile (env_ tc) (TableFileName (dbname_ tc) n) None)
    as [[s1 f1] e1]. cbn [fst snd env_ dbname_ options_ cache_] in *.
  rewrite Hldb.
  destruct (NewRandomAccessFile e1 (SSTTableFileName (dbname_ tc) n) f1)
    as [[s2 f2] e2]. cbn [fst snd env_ dbname_ options_ cache_] in *.
  rewrite Hsst, !Hldb. cbn. by rewrite ?Hldb.
Qed.

End WithCollaborators.

(** An instance of the collaborators: an environment that is the list of
    the names of the files that can be opened, a file that is its name, a
    table that is the size of its file, and a cache that is the list of
    its entries, whose handle is the entry's value. *)
Definition disk_open (env : list string) (fname : string)
    (file : option string) : Status * option string * list string :=
  if bool_decide (fname ∈ env) then (OK, Some fname, env)
  else (IOError fname, None, env).

Definition size_table (options : unit) (file : option string) (size : Z)
  : Status * option Z :=
  match file with
  | Some _ =>
      if 0 <? size then (OK, Some size)
      else (Corruption "file is too short to be an sstable", None)
  | None => (InvalidArgument "no file", None)
  end.

Definition size_table_get (table : option Z) (options : unit) (k : bytes)
    (arg : list Z) : Status * list Z :=
  match table with
  | Some size => (OK, size :: arg)
  | None => (NotFound "no table", arg)
  end.

Definition digit (d : Z) : string :=
  String (Ascii.ascii_of_N (Z.to_N (48 + d))) EmptyString.

Fixpoint number_digits (fuel : nat) (n : Z) : string :=
  match fuel with
  | O => EmptyString
  | S fuel' =>
      String.append
        (if n <? 10 then EmptyString else number_digits fuel' (n / 10))
        (digit (n mod 10))
  end.

Definition number (n : Z) : string := number_digits 20 n.

Definition ldb_name (dbname : string) (n : Z) : string :=
  String.append dbname (String.append "/" (String.append (number n) ".ldb")).

Definition sst_name (dbname : string) (n : Z) : string :=
  String.append dbname (String.append "/" (String.append (number n) ".sst")).

Definition list_cache := list (bytes * @TableAndFile string Z).

Definition key_eqb (a b : bytes) : bool :=
  bool_decide (Z_of_byte <$> a = Z_of_byte <$> b).

Fixpoint cache_find (c : list_cache) (k : bytes)
  : option (@TableAndFile string Z) :=
  match c with
  | [] => None
  | (k', v) :: c' => if key_eqb k' k then Some v else cache_find c' k
  end.

Definition list_cache_Lookup (c : list_cache) (k : bytes) :=
  (cache_find c k, c).

Definition list_cache_Insert (c : list_cache) (k : bytes)
    (v : @TableAndFile string Z) (charge : Z) :=
  (Some v, (k, v) :: c).

Definition list_cache_Erase (c : list_cache) (k : bytes) : list_cache :=
  List.filter (fun e => negb (key_eqb e.1 k)) c.

Definition list_cache_Value (c : list_cache)
    (h : option (@TableAndFile string Z)) : @TableAndFile string Z :=
  default (mkTableAndFile None None) h.

Definition list_cache_Release (c : list_cache)
    (h : option (@TableAndFile string Z)) : list_cache := c.

Definition example_cache (env : list string)
  : @t (list string) list_cache unit :=
  mkTableCache env "db" tt [].

Definition example_FindTable :=
  FindTable disk_open size_table ldb_name sst_name
    list_cache_Lookup list_cache_Insert.

Lemma size_table_null f size :
  ok (size_table tt f size).1 = false -> (size_table tt f size).2 = None.
Proof. unfold size_table. destruct f; [|done]. by destruct (0 <? size). Qed.

Lemma list_cache_miss_stable (c : list_cache) k c' :
  list_cache_Lookup c k = (None, c') -> (list_cache_Lookup c' k).1 = None.
Proof. unfold list_cache_Lookup. by intros [= Hmiss <-]. Qed.

Lemma list_cache_erased (c : list_cache) k :
  (list_cache_Lookup (list_cache_Erase c k) k).1 = None.
Proof.
  unfold list_cache_Lookup, list_cache_Erase. cbn [fst].
  induction c as [|[k' v] c IH]; [done|]. cbn [List.filter fst].
  destruct (key_eqb k' k) eqn:Hk; cbn [negb cache_find]; [done|].
  by rewrite Hk.
Qed.

(** Only the older name exists: the table is found under it. *)
Lemma FindTable_miss_witness :
  example_FindTable (example_cache ["db/5.sst"%string]) 5 100 =
    Some (OK, Some (mkTableAndFile (Some "db/5.sst"%string) (Some 100)),
          mkTableCache ["db/5.sst"%string] "db" tt
            [(EncodeFixed64 5,
              mkTableAndFile (Some "db/5.sst"%string) (Some 100))]).
Proof.
  apply (FindTable_miss disk_open size_table ldb_name sst_name
           list_cache_Lookup list_cache_Insert
           (example_cache ["db/5.sst"%string]) 5 100 []).
  - reflexivity.
  - intros f. apply size_table_null.
Defined.

Lemma FindTable_failure_not_cached_witness :
  @None (@TableAndFile string Z) = None /\
  (list_cache_Lookup
     (cache_ (mkTableCache ["db/5.ldb"%string] "db" tt []))
     (EncodeFixed64 5)).1 = None.
Proof.
  apply (FindTable_failure_not_cached disk_open size_table ldb_name sst_name
           list_cache_Lookup list_cache_Insert
           (example_cache ["db/5.ldb"%string]) 5 0
           (Corruption "file is too short to be an sstable")).
  - apply list_cache_miss_stable.
  - reflexivity.
  - reflexivity.
Defined.

Lemma Get_unopenable_witness :
  Get disk_open size_table size_table_get ldb_name sst_name
    list_cache_Lookup list_cache_Insert list_cache_Value list_cache_Release
    (example_cache []) tt 5 100 [] [] =
  Some (IOError "db/5.ldb", [], mkTableCache [] "db" tt []).
Proof.
  apply (Get_unopenable disk_open size_table size_table_get ldb_name sst_name
           list_cache_Lookup list_cache_Insert list_cache_Value
           list_cache_Release (example_cache []) tt 5 100 [] [] []);
    reflexivity.
Defined.

(** The table is cached, then its file disappears and the table is
    evicted. *)
Lemma FindTable_after_Evict_witness :
  example_FindTable
    (Evict list_cache_Erase
       (mkTableCache [] "db" tt
          [(EncodeFixed64 5,
            mkTableAndFile (Some "db/5.ldb"%string) (Some 100))]) 5) 5 100 =
  Some (IOError "db/5.ldb", None, mkTableCache [] "db" tt []).
Proof.
  apply (FindTable_after_Evict disk_open size_table ldb_name sst_name
           list_cache_Lookup list_cache_Insert list_cache_Erase
           (mkTableCache [] "db" tt
              [(EncodeFixed64 5,
                mkTableAndFile (Some "db/5.ldb"%string) (Some 100))]) 5 100).
  - apply list_cache_erased.
  - reflexivity.
  - reflexivity.
Defined.

End TableCache.
